(** * SentraAI: retrieval core of main.cpp, embedded in Rocq

    The development follows src/main.cpp: the vector index (build, saveToDisk,
    loadFromDisk, search, cosineSim), the chunker inside loadDocuments and the
    bounded context loop of SentraEngine::answer; then the rest of the file:
    runCommand, postJson, the prompt of chatWithContext, buildOrLoadIndex
    and answer, loadConfig and the command loop of main.

    Conventions of the embedding
    - std::string is [string]; std::vector is [list]; std::size_t values that
      only count characters or elements are [nat] (the code never lets them
      wrap); uint32_t and int are [Z] with the conversion written out.
    - A C++ [float] stored in an embedding is kept as its four bytes of object
      representation (little endian), because saveToDisk and loadFromDisk copy
      these bytes; its numeric value is read off with [Float32.value] as an
      IEEE-754 binary32 datum of Stdlib's SpecFloat.
    - [throw std::runtime_error(msg)] is the outcome [Throw msg]. *)

From Stdlib Require Import List String Ascii ZArith Lia Bool Arith PeanoNat.
From Stdlib Require Import Permutation Sorted.
From Stdlib Require Import Floats.SpecFloat.
From Stdlib Require Import DecimalString.
From Stdlib Require DecimalZ DecimalPos.
From Stdlib Require Import Reals Lra Psatz.
From coqutil Require Import Byte Word.LittleEndianList.
Import ListNotations.

Local Open Scope string_scope.
Local Open Scope list_scope.
Local Open Scope nat_scope.

(** ** Outcomes *)

Inductive result (A : Type) : Type :=
| Ok (a : A)
| Throw (what : string).
Arguments Ok {A} a.
Arguments Throw {A} what.

Definition bind {A B : Type} (r : result A) (k : A -> result B) : result B :=
  match r with
  | Ok a => k a
  | Throw w => Throw w
  end.

Notation "x <- r ;; k" := (bind r (fun x => k))
  (at level 61, r at next level, right associativity).

(** ** IEEE-754 values *)

Module Float32.

(** Object representation of a C++ float: byte 0 is the least significant. *)
Record float : Type := Build { b0 : byte; b1 : byte; b2 : byte; b3 : byte }.

Definition to_bytes (f : float) : list byte := [b0 f; b1 f; b2 f; b3 f].

Definition bits (f : float) : Z := le_combine (to_bytes f).

Definition of_bits (w : Z) : float :=
  Build (byte.of_Z w) (byte.of_Z (Z.shiftr w 8))
        (byte.of_Z (Z.shiftr w 16)) (byte.of_Z (Z.shiftr w 24)).

(** binary32: 24 bits of precision, infinities at exponent 128. *)
Definition prec : Z := 24.
Definition emax : Z := 128.

Definition value (f : float) : spec_float :=
  let w := bits f in
  let s := Z.testbit w 31 in
  let e := Z.land (Z.shiftr w 23) 255 in
  let m := Z.land w (2 ^ 23 - 1) in
  if (e =? 0)%Z then
    match m with
    | Zpos p => S754_finite s p (-149)
    | _ => S754_zero s
    end
  else if (e =? 255)%Z then
    if (m =? 0)%Z then S754_infinity s else S754_nan
  else S754_finite s (Z.to_pos (m + 2 ^ 23)) (e - 150).

(** The literal 0.0f. *)
Definition zero : spec_float := S754_zero false.

(** a > b on floats (false as soon as one side is a NaN). *)
Definition gt (a b : spec_float) : bool := SFltb b a.

End Float32.

Module Float64.

Definition prec : Z := 53.
Definition emax : Z := 1024.

(** static_cast<double>(float): exact, only the mantissa is re-aligned. *)
Definition of_float (x : spec_float) : spec_float :=
  match x with
  | S754_finite s m e => binary_round prec emax s m e
  | _ => x
  end.

(** static_cast<float>(double): round to nearest, ties to even. *)
Definition to_float (x : spec_float) : spec_float :=
  match x with
  | S754_finite s m e => binary_round Float32.prec Float32.emax s m e
  | _ => x
  end.

Definition zero : spec_float := S754_zero false.
Definition add : spec_float -> spec_float -> spec_float := SFadd prec emax.
Definition mul : spec_float -> spec_float -> spec_float := SFmul prec emax.
Definition div : spec_float -> spec_float -> spec_float := SFdiv prec emax.
Definition sqrt : spec_float -> spec_float := SFsqrt prec emax.
Definition eqb : spec_float -> spec_float -> bool := SFeqb.

End Float64.

Definition float : Type := Float32.float.

(** ** Config & Types *)

Record Document : Type := mkDocument {
  id : string;
  sourcePath : string;
  content : string
}.

Record IndexEntry : Type := mkIndexEntry {
  doc : Document;
  embedding : list float
}.

(** ** Vector Index: build and cosine similarity *)

Module VectorIndex.

(** The three accumulators of the loop of cosineSim, in double. *)
Fixpoint cosineSim_loop (a b : list float) (dot na nb : spec_float)
  : spec_float * spec_float * spec_float :=
  match a, b with
  | x :: a', y :: b' =>
      let xd := Float64.of_float (Float32.value x) in
      let yd := Float64.of_float (Float32.value y) in
      cosineSim_loop a' b'
        (Float64.add dot (Float64.mul xd yd))
        (Float64.add na (Float64.mul xd xd))
        (Float64.add nb (Float64.mul yd yd))
  | _, _ => (dot, na, nb)
  end.

Definition cosineSim (a b : list float) : spec_float :=
  if negb (List.length a =? List.length b) || (List.length a =? 0) then Float32.zero
  else
    let '(dot, na, nb) :=
      cosineSim_loop a b Float64.zero Float64.zero Float64.zero in
    if Float64.eqb na Float64.zero || Float64.eqb nb Float64.zero
    then Float32.zero
    else Float64.to_float
           (Float64.div dot (Float64.mul (Float64.sqrt na) (Float64.sqrt nb))).

(** First loop of build: the size of the first non-empty embedding. *)
Fixpoint refDim_of (embeddings : list (list float)) : nat :=
  match embeddings with
  | [] => 0
  | emb :: rest =>
      if negb (List.length emb =? 0) then List.length emb else refDim_of rest
  end.

(** Second loop of build: docs[i] and embeddings[i] walked together. *)
Fixpoint build_loop (refDim : nat) (docs : list Document)
         (embeddings : list (list float)) : list IndexEntry :=
  match docs, embeddings with
  | d :: docs', emb :: embeddings' =>
      if List.length emb =? 0 then build_loop refDim docs' embeddings'
      else if negb (List.length emb =? refDim) then build_loop refDim docs' embeddings'
      else mkIndexEntry d emb :: build_loop refDim docs' embeddings'
  | _, _ => []
  end.

Definition build (docs : list Document) (embeddings : list (list float))
  : result (list IndexEntry) :=
  if List.length docs =? 0 then Throw "No documents to build index."
  else if negb (List.length docs =? List.length embeddings)
       then Throw "Docs and embeddings size mismatch"
  else
    let refDim := refDim_of embeddings in
    if refDim =? 0 then Throw "All embeddings are empty."
    else
      let entries_ := build_loop refDim docs embeddings in
      if List.length entries_ =? 0
      then Throw "No valid entries after filtering embeddings."
      else Ok entries_.

End VectorIndex.

(** ** Files *)

(** Modelled from the spec: nlohmann::json (json.hpp is included by main.cpp
    but is not among the sources).  The metadata artifact is a JSON array of
    objects {id, source, content}; a document is kept as the value it
    denotes, so that j.dump(2) followed by json::parse gives the value back
    (formatting is not load-significant).  Only the accessors used by
    loadFromDisk are modelled; a wrong kind of value raises a json exception. *)
Module Json.

#[local] Unset Elimination Schemes.
Inductive json : Type :=
| Null
| Str (s : string)
| Arr (elements : list json)
| Obj (members : list (string * json))
| Other.
#[local] Set Elimination Schemes.

(** j.size() *)
Definition size (j : json) : nat :=
  match j with
  | Null => 0
  | Arr l => List.length l
  | Obj m => List.length m
  | _ => 1
  end.

(** j[i] *)
Definition at_index (j : json) (i : nat) : result json :=
  match j with
  | Arr l =>
      match nth_error l i with
      | Some x => Ok x
      | None => Throw "json: array index out of range"
      end
  | _ => Throw "json: cannot use operator[] with a numeric argument"
  end.

Fixpoint lookup (key : string) (m : list (string * json)) : json :=
  match m with
  | [] => Null
  | (k, v) :: m' => if String.eqb k key then v else lookup key m'
  end.

(** j[key] *)
Definition at_key (j : json) (key : string) : result json :=
  match j with
  | Obj m => Ok (lookup key m)
  | Null => Ok Null
  | _ => Throw "json: cannot use operator[] with a string argument"
  end.

(** j.get<std::string>() *)
Definition get_string (j : json) : result string :=
  match j with
  | Str s => Ok s
  | _ => Throw "json: type must be string"
  end.

End Json.

(** The two artifacts.  [metaFile] holds what json::parse makes of the text
    of the file: [None] inside when the text is not JSON. *)
Record Disk : Type := mkDisk {
  writable : bool;
  indexFile : option (list byte);
  metaFile : option (option Json.json)
}.

(** std::ifstream opened in binary mode: the bytes not yet consumed and the
    fail bit.  [read] is istream::read(buf, n): on a stream that has failed
    nothing is extracted and the buffer is untouched; when fewer than [n]
    bytes are left, those are stored at the front of the buffer, the rest of
    the buffer keeps what it held, and the fail bit is set. *)
Module IStream.

Record istream : Type := mk { rest : list byte; failbit : bool }.

Definition open (bytes : list byte) : istream := mk bytes false.

Definition read (s : istream) (buf : list byte) (n : nat)
  : list byte * istream :=
  if failbit s then (buf, s)
  else if n <=? List.length (rest s)
  then (firstn n (rest s) ++ skipn n buf, mk (skipn n (rest s)) false)
  else (rest s ++ skipn (List.length (rest s)) buf, mk [] true).

End IStream.

Definition zero_byte : byte := byte.of_Z 0.

(** The bytes behind embedding.data(), and a vector<float> seen through
    reinterpret_cast<char*>. *)
Definition bytes_of_floats (v : list float) : list byte :=
  flat_map Float32.to_bytes v.

Fixpoint floats_of_bytes (bs : list byte) : list float :=
  match bs with
  | c0 :: c1 :: c2 :: c3 :: bs' => Float32.Build c0 c1 c2 c3 :: floats_of_bytes bs'
  | _ => []
  end.

Definition uint32_max : Z := 2 ^ 32 - 1.

(** static_cast<uint32_t>(n) for a std::size_t n. *)
Definition to_uint32 (n : nat) : Z := (Z.of_nat n mod 2 ^ 32)%Z.

Definition int_max : Z := 2 ^ 31 - 1.

(** static_cast<int>(n) for a std::size_t n. *)
Definition to_int (n : nat) : Z :=
  ((Z.of_nat n + 2 ^ 31) mod 2 ^ 32 - 2 ^ 31)%Z.

Module Persist.

Definition metadata_of (e : IndexEntry) : Json.json :=
  Json.Obj [("id", Json.Str (id (doc e)));
            ("source", Json.Str (sourcePath (doc e)));
            ("content", Json.Str (content (doc e)))].

(** out.write(e.embedding.data(), dim * sizeof(float)): the first
    4*dim bytes of the vector (for a built store every vector has them). *)
Definition write_block (dim : Z) (e : IndexEntry) : list byte :=
  firstn (Z.to_nat (dim * 4)) (bytes_of_floats (embedding e)).

Definition saveToDisk (entries_ : list IndexEntry) (d : Disk) : result Disk :=
  match entries_ with
  | [] => Throw "No entries to save."
  | e0 :: _ =>
      if negb (writable d) then Throw "Failed to open index file for writing"
      else
        let num := to_uint32 (List.length entries_) in
        let dim := to_uint32 (List.length (embedding e0)) in
        let bin := le_split 4 num ++ le_split 4 dim
                   ++ flat_map (write_block dim) entries_ in
        let j := Json.Arr (map metadata_of entries_) in
        Ok (mkDisk (writable d) (Some bin) (Some (Some j)))
  end.

(** Body of the for loop of loadFromDisk, for i, i+1, ..., i+n-1. *)
Fixpoint load_loop (j : Json.json) (dim : Z) (n i : nat) (s : IStream.istream)
  : result (list IndexEntry) :=
  match n with
  | O => Ok []
  | S n' =>
      ji <- Json.at_index j i ;;
      d_id <- bind (Json.at_key ji "id") Json.get_string ;;
      d_source <- bind (Json.at_key ji "source") Json.get_string ;;
      d_content <- bind (Json.at_key ji "content") Json.get_string ;;
      let nbytes := Z.to_nat (dim * 4) in
      let '(emb, s') := IStream.read s (repeat zero_byte nbytes) nbytes in
      tl <- load_loop j dim n' (S i) s' ;;
      Ok (mkIndexEntry (mkDocument d_id d_source d_content)
                       (floats_of_bytes emb) :: tl)
  end.

Definition loadFromDisk (d : Disk) : result (list IndexEntry) :=
  match indexFile d with
  | None => Throw "Failed to open index file"
  | Some bytes =>
      let s0 := IStream.open bytes in
      let '(numb, s1) := IStream.read s0 (le_split 4 0) 4 in
      let '(dimb, s2) := IStream.read s1 (le_split 4 0) 4 in
      let num := le_combine numb in
      let dim := le_combine dimb in
      match metaFile d with
      | None => Throw "Failed to open file: artifacts/metadata.json"
      | Some None => Throw "json: parse error"
      | Some (Some j) =>
          if negb (Z.of_nat (Json.size j) =? num)%Z
          then Throw "Metadata size does not match index"
          else load_loop j dim (Z.to_nat num) 0 s2
      end
  end.

End Persist.


(** ** std::partial_sort *)

(** What the C++ standard promises of
    std::partial_sort(first, first + middle, last, comp) once it returns:
    the range is a rearrangement of what it held; its first [middle] elements
    are sorted with respect to comp (no element is comp-before one placed
    ahead of it) and none of the remaining elements is comp-before any of
    them.  The order of elements that comp does not separate is left open.
    The call requires 0 <= middle <= last - first and a comp that is a strict
    weak ordering on the elements. *)
Module PartialSort.

Section Contract.
Context {T : Type} (comp : T -> T -> bool).

Definition not_after (x y : T) : Prop := comp y x = false.

Definition post (middle : nat) (input output : list T) : Prop :=
  Permutation input output /\
  StronglySorted not_after (firstn middle output) /\
  (forall x y, In x (firstn middle output) -> In y (skipn middle output) ->
               not_after x y).

(** comp is a strict weak ordering on the elements of l: asymmetric, and an
    element comp-before another is comp-before, or has comp-before it, any
    third one. *)
Definition strict_weak_on (l : list T) : Prop :=
  (forall x y, In x l -> In y l -> comp x y = true -> comp y x = false) /\
  (forall x y z, In x l -> In y l -> In z l ->
                 comp x y = true -> comp x z = true \/ comp z y = true).

(** The same, as a check that runs. *)
Definition strict_weak_onb (l : list T) : bool :=
  forallb (fun x => forallb (fun y =>
     implb (comp x y) (negb (comp y x))
     && forallb (fun z => implb (comp x y) (comp x z || comp z y)) l) l) l.

(** What the range holds once the call has returned.  Within the contract
    it is [post].  When comp is no strict weak ordering on the elements (a
    NaN among the scores), the standard promises nothing: the selections by
    heap that the libraries implement still return and do nothing but move
    the elements of the range (as the one of libstdc++ below does, whatever
    comp answers), so the range is taken to end as some rearrangement of
    what it held, in an order about which nothing is said. *)
Definition returned (middle : nat) (input output : list T) : Prop :=
  Permutation input output /\
  (strict_weak_on input -> post middle input output).

(** The stable rearrangement: straight insertion, an element going in front
    of the first one that is not comp-before it, so that elements comp does
    not separate keep their order. *)
Fixpoint insert (x : T) (l : list T) : list T :=
  match l with
  | [] => [x]
  | y :: l' => if comp y x then y :: insert x l' else x :: l
  end.

Fixpoint insertion_sort (l : list T) : list T :=
  match l with
  | [] => []
  | x :: l' => insert x (insertion_sort l')
  end.

End Contract.

(** The implementation of GNU libstdc++ 12 (bits/stl_algo.h and
    bits/stl_heap.h): __heap_select followed by __sort_heap.  The range is a
    list, iterators are offsets from first, difference_type is [Z] and its
    division truncates.  Every loop carries fuel and answers [None] when the
    fuel runs out. *)
Section Gnu.
Context {T : Type} (comp : T -> T -> bool) (dflt : T).

Definition get (a : list T) (i : Z) : T := nth (Z.to_nat i) a dflt.

Definition set (a : list T) (i : Z) (v : T) : list T :=
  if (Z.to_nat i <? List.length a)
  then firstn (Z.to_nat i) a ++ v :: skipn (S (Z.to_nat i)) a
  else a.

Fixpoint push_heap (fuel : nat) (a : list T) (holeIndex topIndex : Z) (value : T)
  : option (list T) :=
  match fuel with
  | O => None
  | S fuel' =>
      let parent := Z.quot (holeIndex - 1) 2 in
      if (holeIndex >? topIndex)%Z && comp (get a parent) value
      then push_heap fuel' (set a holeIndex (get a parent)) parent topIndex value
      else Some (set a holeIndex value)
  end.

Fixpoint adjust_heap_down (fuel : nat) (a : list T) (holeIndex secondChild len : Z)
  : option (list T * Z * Z) :=
  match fuel with
  | O => None
  | S fuel' =>
      if (secondChild <? Z.quot (len - 1) 2)%Z
      then
        let c := (2 * (secondChild + 1))%Z in
        let c := if comp (get a c) (get a (c - 1)) then (c - 1)%Z else c in
        adjust_heap_down fuel' (set a holeIndex (get a c)) c c len
      else Some (a, holeIndex, secondChild)
  end.

Definition adjust_heap (fuel : nat) (a : list T) (holeIndex len : Z) (value : T)
  : option (list T) :=
  let topIndex := holeIndex in
  match adjust_heap_down fuel a holeIndex holeIndex len with
  | None => None
  | Some (a, holeIndex, secondChild) =>
      let '(a, holeIndex) :=
        if (Z.land len 1 =? 0)%Z && (secondChild =? Z.quot (len - 2) 2)%Z
        then
          let c := (2 * (secondChild + 1))%Z in
          (set a holeIndex (get a (c - 1)), (c - 1)%Z)
        else (a, holeIndex) in
      push_heap fuel a holeIndex topIndex value
  end.

(** __pop_heap(first, last, result, comp) with last - first = len. *)
Definition pop_heap (fuel : nat) (a : list T) (len result : Z) : option (list T) :=
  let value := get a result in
  adjust_heap fuel (set a result (get a 0%Z)) 0%Z len value.

Fixpoint make_heap_loop (fuel : nat) (a : list T) (len parent : Z)
  : option (list T) :=
  match fuel with
  | O => None
  | S fuel' =>
      match adjust_heap (S (List.length a)) a parent len (get a parent) with
      | None => None
      | Some a' =>
          if (parent =? 0)%Z then Some a'
          else make_heap_loop fuel' a' len (parent - 1)%Z
      end
  end.

Definition make_heap (a : list T) (len : Z) : option (list T) :=
  if (len <? 2)%Z then Some a
  else make_heap_loop (S (List.length a)) a len (Z.quot (len - 2) 2).

(** The for loop of __heap_select, from i = middle on. *)
Fixpoint heap_select_loop (n : nat) (a : list T) (middle i : Z) : option (list T) :=
  match n with
  | O => Some a
  | S n' =>
      if comp (get a i) (get a 0%Z)
      then match pop_heap (S (List.length a)) a middle i with
           | None => None
           | Some a' => heap_select_loop n' a' middle (i + 1)%Z
           end
      else heap_select_loop n' a middle (i + 1)%Z
  end.

Definition heap_select (a : list T) (middle : Z) : option (list T) :=
  match make_heap a middle with
  | None => None
  | Some a' =>
      heap_select_loop (List.length a - Z.to_nat middle) a' middle middle
  end.

Fixpoint sort_heap (fuel : nat) (a : list T) (last : Z) : option (list T) :=
  match fuel with
  | O => None
  | S fuel' =>
      if (last >? 1)%Z
      then match pop_heap (S (List.length a)) a (last - 1) (last - 1) with
           | None => None
           | Some a' => sort_heap fuel' a' (last - 1)%Z
           end
      else Some a
  end.

Definition partial_sort (a : list T) (middle : Z) : option (list T) :=
  match heap_select a middle with
  | None => None
  | Some a' => sort_heap (S (List.length a)) a' middle
  end.

End Gnu.

End PartialSort.


(** ** Vector Index: search *)

Module Search.

(** An element of [scored]: std::pair<float, size_t>. *)
Definition scored_t : Type := (spec_float * nat)%type.

(** The first loop of search: scored[i] = (cosineSim(query, entries_[i]), i),
    here from position i on. *)
Fixpoint scored_from (i : nat) (queryEmbedding : list float)
         (entries_ : list IndexEntry) : list scored_t :=
  match entries_ with
  | [] => []
  | e :: rest =>
      (VectorIndex.cosineSim queryEmbedding (embedding e), i)
        :: scored_from (S i) queryEmbedding rest
  end.

Definition scored_of (queryEmbedding : list float) (entries_ : list IndexEntry)
  : list scored_t :=
  scored_from 0 queryEmbedding entries_.

(** The lambda handed to partial_sort: a.first > b.first. *)
Definition comp (a b : scored_t) : bool := Float32.gt (fst a) (fst b).

Definition clamp (topK : Z) (size : nat) : Z :=
  if (topK >? to_int size)%Z then to_int size else topK.

Definition no_entry : IndexEntry := mkIndexEntry (mkDocument "" "" "") [].

(** The last loop of search: result[i] = entries_[scored[i].second].doc. *)
Definition docs_of (entries_ : list IndexEntry) (ranked : list scored_t)
  : list Document :=
  map (fun p => doc (nth (snd p) entries_ no_entry)) ranked.

(** search, with std::partial_sort taken at its contract: [sorted] is what
    [scored] holds once partial_sort has returned.  An empty index throws.
    The call needs its middle, scored.begin() + topK, within the range: a
    topK that is negative, or beyond the size after the clamp, is outside
    the contract and has no outcome. *)
Inductive search (entries_ : list IndexEntry) (queryEmbedding : list float)
          (topK : Z) : result (list Document) -> Prop :=
| search_empty :
    entries_ = [] ->
    search entries_ queryEmbedding topK (Throw "Index is empty.")
| search_ranked : forall sorted,
    entries_ <> [] ->
    (0 <= clamp topK (List.length entries_) <= Z.of_nat (List.length entries_))%Z ->
    PartialSort.returned comp (Z.to_nat (clamp topK (List.length entries_)))
                         (scored_of queryEmbedding entries_) sorted ->
    search entries_ queryEmbedding topK
           (Ok (docs_of entries_
                  (firstn (Z.to_nat (clamp topK (List.length entries_))) sorted))).

(** search, run with the partial_sort of GNU libstdc++. *)
Definition search_gnu (entries_ : list IndexEntry) (queryEmbedding : list float)
           (topK : Z) : option (result (list Document)) :=
  match entries_ with
  | [] => Some (Throw "Index is empty.")
  | _ =>
      let scored := scored_of queryEmbedding entries_ in
      let k := clamp topK (List.length entries_) in
      if (k <? 0)%Z then None
      else
        match PartialSort.partial_sort comp (Float32.zero, 0) scored k with
        | None => None
        | Some sorted => Some (Ok (docs_of entries_ (firstn (Z.to_nat k) sorted)))
        end
  end.

End Search.


(** ** Engine: loadDocuments *)

Module Chunker.

Definition newline : ascii := "010"%char.

(** The literal "\n\n". *)
Definition separator : string := String newline (String newline EmptyString).

(** What the directory iterator yields for one entry, and what
    readFileToString makes of it ([None]: the file cannot be opened). *)
Record DirEntry : Type := mkDirEntry {
  is_regular_file : bool;
  path : string;
  extension : string;
  file : option string
}.

(** std::to_string(int) *)
Definition to_string (n : Z) : string := NilZero.string_of_int (Z.to_int n).

(** The state the loops share: docs and docCounter. *)
Definition state : Type := (list Document * Z)%type.

Definition push (path_string chunk : string) (st : state) : state :=
  let '(docs, docCounter) := st in
  (docs ++ [mkDocument ("doc-" ++ to_string docCounter) path_string chunk],
   (docCounter + 1)%Z).

(** The while loop over one file; content.find is [String.index],
    content.substr is [String.substring].  [None]: out of fuel. *)
Fixpoint chunk_loop (fuel : nat) (path_string content : string) (pos : nat)
         (st : state) : option state :=
  match fuel with
  | O => None
  | S fuel' =>
      if pos <? String.length content then
        let next := String.index pos separator content in
        let chunk :=
          match next with
          | None => String.substring pos (String.length content - pos) content
          | Some n => String.substring pos (n - pos) content
          end in
        let st' := if negb (String.length chunk =? 0)
                   then push path_string chunk st else st in
        match next with
        | None => Some st'
        | Some n => chunk_loop fuel' path_string content (n + 2) st'
        end
      else Some st
  end.

(** The for loop over the directory. *)
Fixpoint files_loop (entries : list DirEntry) (st : state)
  : option (result state) :=
  match entries with
  | [] => Some (Ok st)
  | entry :: rest =>
      if negb (is_regular_file entry) then files_loop rest st
      else if negb (String.eqb (extension entry) ".txt") then files_loop rest st
      else
        match file entry with
        | None => Some (Throw ("Failed to open file: " ++ path entry)%string)
        | Some content =>
            if String.length content =? 0 then files_loop rest st
            else
              match chunk_loop (S (String.length content)) (path entry)
                               content 0 st with
              | None => None
              | Some st' => files_loop rest st'
              end
        end
  end.

(** [dir] is [None] when the data directory does not exist. *)
Definition loadDocuments (dataDir : string) (dir : option (list DirEntry))
  : option (result (list Document)) :=
  match dir with
  | None => Some (Throw ("Data directory does not exist: " ++ dataDir)%string)
  | Some entries =>
      match files_loop entries ([], 0%Z) with
      | None => None
      | Some (Throw w) => Some (Throw w)
      | Some (Ok (docs, _)) => Some (Ok docs)
      end
  end.

(** Splitting as the specification words it: the texts between
    occurrences of the separator, read from the left. *)
Fixpoint split_acc (cur : string) (s : string) : list string :=
  match s with
  | EmptyString => [cur]
  | String c s' =>
      if String.prefix separator s
      then cur :: match s' with
                  | EmptyString => [EmptyString]
                  | String _ s'' => split_acc EmptyString s''
                  end
      else split_acc (cur ++ String c EmptyString) s'
  end.

Definition split (s : string) : list string := split_acc EmptyString s.

Definition nonempty (s : string) : bool := negb (String.length s =? 0).

Definition chunks_of (content : string) : list string :=
  filter nonempty (split content).

End Chunker.

(** ** Engine: the bounded context of answer *)

Module SentraEngine.

Definition MAX_TOTAL_CHARS : nat := 3000.
Definition MAX_CHARS_PER_CHUNK : nat := 800.

Definition ellipsis : string := "...".

(** per-chunk cap *)
Definition per_chunk_cap (chunk : string) : string :=
  if MAX_CHARS_PER_CHUNK <? String.length chunk
  then (String.substring 0 MAX_CHARS_PER_CHUNK chunk ++ ellipsis)%string
  else chunk.

(** The test against the global cap; [None] is the break of its
    [remaining == 0] branch. *)
Definition global_cap (total_chars : nat) (chunk : string) : option string :=
  if MAX_TOTAL_CHARS <? total_chars + String.length chunk then
    let remaining := MAX_TOTAL_CHARS - total_chars in
    if (0 <? remaining) && (remaining <? String.length chunk)
    then Some (String.substring 0 remaining chunk ++ ellipsis)%string
    else if remaining =? 0 then None
    else Some chunk
  else Some chunk.

Definition decorate (d : Document) (chunk : string) : string :=
  "[" ++ sourcePath d ++ "]" ++ String Chunker.newline EmptyString ++ chunk.

(** The for loop over the retrieved docs, with its two variables. *)
Fixpoint context_loop (docs : list Document) (total_chars : nat)
         (context : list string) : list string * nat :=
  match docs with
  | [] => (context, total_chars)
  | d :: rest =>
      if MAX_TOTAL_CHARS <=? total_chars then (context, total_chars)
      else
        match global_cap total_chars (per_chunk_cap (content d)) with
        | None => (context, total_chars)
        | Some chunk =>
            let decorated := decorate d chunk in
            context_loop rest (total_chars + String.length decorated)
                         (context ++ [decorated])
        end
  end.

(** Step 3 of answer: the context handed to chatWithContext. *)
Definition build_context (docs : list Document) : list string :=
  fst (context_loop docs 0 []).

Definition total_length (context : list string) : nat :=
  fold_right (fun s n => String.length s + n) 0 context.

End SentraEngine.


(** * Specification-side definitions *)

(** ** build *)

Module BuildSpec.

(** The pairs the specification keeps: embedding non-empty and of the
    reference dimension, in input order. *)
Definition valid (D : nat) (p : Document * list float) : bool :=
  negb (List.length (snd p) =? 0) && (List.length (snd p) =? D).

Definition survivors (D : nat) (docs : list Document)
           (embeddings : list (list float)) : list IndexEntry :=
  map (fun p => mkIndexEntry (fst p) (snd p))
      (filter (valid D) (combine docs embeddings)).

(** D is the length of the first non-empty embedding of the list. *)
Definition first_nonempty_length (embeddings : list (list float)) (D : nat)
  : Prop :=
  exists before emb after,
    embeddings = before ++ emb :: after /\
    Forall (fun e => e = []) before /\ emb <> [] /\ D = List.length emb.

End BuildSpec.

(** ** loadFromDisk *)

Module LoadSpec.

(** What a stream can still deliver. *)
Definition avail (s : IStream.istream) : list byte :=
  if IStream.failbit s then [] else IStream.rest s.

(** The first [m] bytes of [bs], with zero bytes where [bs] has run out. *)
Fixpoint take_padded (m : nat) (bs : list byte) : list byte :=
  match m with
  | O => []
  | S m' =>
      match bs with
      | [] => zero_byte :: take_padded m' []
      | x :: bs' => x :: take_padded m' bs'
      end
  end.

(** Record i paired with the i-th block of [k] bytes of the payload, the
    payload being continued by zero bytes. *)
Fixpoint read_blocks (k : nat) (recs : list IndexEntry) (payload : list byte)
  : list IndexEntry :=
  match recs with
  | [] => []
  | r :: recs' =>
      mkIndexEntry (doc r) (floats_of_bytes (take_padded k payload))
        :: read_blocks k recs' (skipn k payload)
  end.

Definition block_bytes (e : IndexEntry) : list byte :=
  bytes_of_floats (embedding e).

End LoadSpec.

(** ** search *)

Module SearchSpec.

(** The selection the specification asks for: the k best scores, ties in
    insertion order. *)
Definition stable_top_k (entries_ : list IndexEntry) (queryEmbedding : list float)
           (topK : Z) : list Document :=
  Search.docs_of entries_
    (firstn (Z.to_nat (Search.clamp topK (List.length entries_)))
            (PartialSort.insertion_sort Search.comp
               (Search.scored_of queryEmbedding entries_))).

(** [ranked] lists scores in non-increasing order. *)
Definition descending (ranked : list Search.scored_t) : Prop :=
  StronglySorted (fun a b => Float32.gt (fst b) (fst a) = false) ranked.

(** A float that is +0.0 or -0.0. *)
Definition is_zero (x : float) : Prop :=
  exists s, Float32.value x = S754_zero s.

End SearchSpec.

(** ** loadDocuments *)

Module ChunkSpec.

(** s without its first n characters. *)
Fixpoint drop (n : nat) (s : string) : string :=
  match n, s with
  | O, _ => s
  | S _, EmptyString => EmptyString
  | S n', String _ s' => drop n' s'
  end.

(** The pieces put back together, the separator between neighbours. *)
Fixpoint join (pieces : list string) : string :=
  match pieces with
  | [] => EmptyString
  | [x] => x
  | x :: rest => x ++ Chunker.separator ++ join rest
  end.

(** A directory entry that loadDocuments reads. *)
Definition eligible (e : Chunker.DirEntry) : bool :=
  Chunker.is_regular_file e && String.eqb (Chunker.extension e) ".txt".

Definition readable (e : Chunker.DirEntry) : Prop :=
  eligible e = true -> Chunker.file e <> None.

(** The (path, text) pairs of the corpus, files in discovery order and the
    chunks of a file in reading order. *)
Definition file_chunks (e : Chunker.DirEntry) : list (string * string) :=
  if eligible e then
    match Chunker.file e with
    | Some content => map (pair (Chunker.path e)) (Chunker.chunks_of content)
    | None => []
    end
  else [].

Definition corpus_chunks (entries : list Chunker.DirEntry)
  : list (string * string) :=
  flat_map file_chunks entries.

(** Ids handed out one after the other, starting from c. *)
Fixpoint number_from (c : Z) (items : list (string * string)) : list Document :=
  match items with
  | [] => []
  | (p, t) :: rest =>
      mkDocument ("doc-" ++ Chunker.to_string c) p t :: number_from (c + 1) rest
  end.

(** Pushing the non-empty pieces, in order. *)
Definition push_all (path_string : string) (pieces : list string)
           (st : Chunker.state) : Chunker.state :=
  fold_left (fun st t => Chunker.push path_string t st)
            (filter Chunker.nonempty pieces) st.

End ChunkSpec.
(** ** Specification vocabulary for the arithmetic of cosineSim *)

Module FloatSpec.

(** The real number m * 2^e. *)
Definition F2R (m e : Z) : R := (IZR m * powerRZ 2 e)%R.

(** The unit roundoff of binary64. *)
Definition u : R := powerRZ 2 (-52).

(** A float that is neither infinite nor a NaN. *)
Definition finite32 (x : float) : Prop :=
  match Float32.value x with
  | S754_zero _ | S754_finite _ _ _ => True
  | _ => False
  end.

(** The accumulator na of cosineSim after the elements of v, from acc. *)
Fixpoint sum_squares (acc : spec_float) (v : list float) : spec_float :=
  match v with
  | [] => acc
  | x :: v' =>
      let xd := Float64.of_float (Float32.value x) in
      sum_squares (Float64.add acc (Float64.mul xd xd)) v'
  end.

(** What the accumulator na of cosineSim is after at least one square of a
    finite float that is not zero: a positive double with a full mantissa,
    no smaller than the smallest such square, and below the point from
    which adding a square no longer changes it. *)
Definition bounded_sum (acc : spec_float) : Prop :=
  exists m e,
    acc = S754_finite false m e /\ Zpos (digits2_pos m) = 53%Z /\
    (powerRZ 2 (-301) <= F2R (Zpos m) e <= powerRZ 2 314)%R.

(** The float 1.0f. *)
Definition one32 : spec_float := S754_finite false 8388608 (-23).

End FloatSpec.


(** ** Sample data *)

Module Sample.

(** 1.0f, 2.0f and 0.0f *)
Definition one : float := Float32.of_bits 1065353216.
Definition two : float := Float32.of_bits 1073741824.
Definition zero : float := Float32.of_bits 0.
Definition three : float := Float32.of_bits 1077936128.
(** 0.1f, which is not a dyadic fraction before rounding. *)
Definition tenth : float := Float32.of_bits 1036831949.
(** +infinity. *)
Definition infinity : float := Float32.of_bits 2139095040.

(** The value 1.0f. *)
Definition score_one : spec_float := S754_finite false 8388608 (-23).

Definition doc0 : Document := mkDocument "doc-0" "data/a.txt" "alpha".
Definition doc1 : Document := mkDocument "doc-1" "data/a.txt" "beta".
Definition doc2 : Document := mkDocument "doc-2" "data/b.txt" "gamma".

(** Three chunks; the embeddings of the last two point the same way. *)
Definition docs : list Document := [doc0; doc1; doc2].
Definition embeddings : list (list float) := [[zero; one]; [one; zero]; [two; zero]].

Definition entries : list IndexEntry :=
  [mkIndexEntry doc0 [zero; one]; mkIndexEntry doc1 [one; zero];
   mkIndexEntry doc2 [two; zero]].

Definition query : list float := [one; zero].

(** A query of the wrong dimension. *)
Definition short_query : list float := [one].

(** A store whose second embedding has an infinite component: against
    [query] its score is inf / (1 * inf), a NaN. *)
Definition nan_entries : list IndexEntry :=
  [mkIndexEntry doc0 [zero; one]; mkIndexEntry doc1 [infinity; zero];
   mkIndexEntry doc2 [one; zero]].

Definition empty_disk : Disk := mkDisk true None None.

(** A vector file announcing 2 entries of dimension 1 and holding six of
    the eight bytes of payload. *)
Definition truncated_payload : list byte :=
  map byte.of_Z [1; 2; 3; 4; 5; 6]%Z.

Definition truncated_disk : Disk :=
  mkDisk true
         (Some (le_split 4 2 ++ le_split 4 1 ++ truncated_payload))
         (Some (Some (Json.Arr (map Persist.metadata_of
                                    [mkIndexEntry doc0 []; mkIndexEntry doc1 []])))).

Fixpoint replicate (n : nat) (c : ascii) : string :=
  match n with
  | O => EmptyString
  | S n' => String c (replicate n' c)
  end.

(** A chunk of 1000 characters. *)
Definition long_doc : Document :=
  mkDocument "doc-0" "data/a.txt" (replicate 1000 "a"%char).

(** A chunk of 800 characters. *)
Definition full_doc : Document :=
  mkDocument "doc-0" "data/a.txt" (replicate 800 "a"%char).

(** A chunk of 1000 characters from a file whose path has 200 characters. *)
Definition long_path_doc : Document :=
  mkDocument "doc-0" ("data/" ++ replicate 191 "n"%char ++ ".txt")
             (replicate 1000 "a"%char).

Definition abc : string :=
  "A" ++ Chunker.separator ++ "B" ++ Chunker.separator ++ "C".

Definition corpus : list Chunker.DirEntry :=
  [Chunker.mkDirEntry true "data/a.txt" ".txt" (Some abc);
   Chunker.mkDirEntry false "data/sub" "" None;
   Chunker.mkDirEntry true "data/b.txt" ".txt"
     (Some (Chunker.separator ++ "D" ++ Chunker.separator)%string)].

End Sample.
(** * The rest of main.cpp *)

(** ** Small utilities: runCommand *)

Module Command.

Definition nul : ascii := "000"%char.

(** fgets(buffer, size, pipe) with size = n + 1, on the characters the pipe
    still holds: at most n of them are stored, and none after a newline.
    The result is what the buffer holds and what the pipe keeps. *)
Fixpoint fgets (n : nat) (pipe : string) : string * string :=
  match n, pipe with
  | S n', String c pipe' =>
      if Ascii.eqb c Chunker.newline then (String c EmptyString, pipe')
      else let '(buffer, rest) := fgets n' pipe' in (String c buffer, rest)
  | _, _ => (EmptyString, pipe)
  end.

(** The buffer read as a C string, which is what [result += buffer]
    appends: its characters before the first NUL. *)
Fixpoint c_str (buffer : string) : string :=
  match buffer with
  | EmptyString => EmptyString
  | String c buffer' =>
      if Ascii.eqb c nul then EmptyString else String c (c_str buffer')
  end.

(** The while loop; fgets answers NULL once the pipe is at its end.
    [None]: out of fuel. *)
Fixpoint read_loop (fuel : nat) (pipe result : string) : option string :=
  match fuel with
  | O => None
  | S fuel' =>
      match pipe with
      | EmptyString => Some result
      | _ =>
          let '(buffer, rest) := fgets 4095 pipe in
          read_loop fuel' rest (result ++ c_str buffer)
      end
  end.

(** [pipe] is what popen(cmd, "r") gives: [None] when the command cannot be
    started, otherwise the bytes that the command has written to its
    standard output by the time it ends.  The command is taken to end: while
    it runs fgets waits for it, and a command that runs for ever keeps the
    loop waiting, which is not modelled.  The exit code is ignored. *)
Definition runCommand (cmd : string) (pipe : option string)
  : option (result string) :=
  match pipe with
  | None => Some (Throw ("Failed to run command: " ++ cmd))
  | Some out =>
      match read_loop (S (String.length out)) out EmptyString with
      | None => None
      | Some r => Some (Ok r)
      end
  end.

(** s holds a NUL character. *)
Fixpoint has_nul (s : string) : bool :=
  match s with
  | EmptyString => false
  | String c s' => Ascii.eqb c nul || has_nul s'
  end.

End Command.

(** ** Small utilities: files *)

(** The files the program reads and writes by name: the contents by path (the
    first binding of a path is the file), and the paths on which an ofstream
    can be opened. *)
Module Files.

Record FileSystem : Type := mkFileSystem {
  files : list (string * string);
  creatable : string -> bool
}.

Fixpoint content_of (path : string) (fs : list (string * string)) : option string :=
  match fs with
  | [] => None
  | (p, data) :: fs' => if String.eqb p path then Some data else content_of path fs'
  end.

Definition readFileToString (path : string) (fs : FileSystem) : result string :=
  match content_of path (files fs) with
  | None => Throw ("Failed to open file: " ++ path)
  | Some data => Ok data
  end.

(** The file is created or truncated, then filled with data. *)
Definition writeStringToFile (path data : string) (fs : FileSystem)
  : result FileSystem :=
  if negb (creatable fs path) then Throw ("Failed to write file: " ++ path)
  else Ok (mkFileSystem ((path, data) :: files fs) (creatable fs)).

End Files.

(** ** Config *)

Module Config.

Record SentraConfig : Type := mkSentraConfig {
  apiKey : string;
  baseUrl : string;
  embeddingModel : string;
  chatModel : string;
  dataDir : string;
  artifactsDir : string;
  indexPath : string;
  metaPath : string;
  topK : Z
}.

(** The default member initializers of SentraConfig. *)
Definition defaults : SentraConfig :=
  mkSentraConfig "" "https://api.openai.com/v1" "text-embedding-3-small"
                 "gpt-5-nano" "data" "artifacts" "artifacts/index.bin"
                 "artifacts/metadata.json" 3.

Definition with_apiKey (cfg : SentraConfig) (key : string) : SentraConfig :=
  mkSentraConfig key (baseUrl cfg) (embeddingModel cfg) (chatModel cfg)
                 (dataDir cfg) (artifactsDir cfg) (indexPath cfg) (metaPath cfg)
                 (topK cfg).

(** std::getline(in, line): the characters before the first newline, and what
    is left after that newline. *)
Fixpoint getline (s : string) : string * string :=
  match s with
  | EmptyString => (EmptyString, EmptyString)
  | String c s' =>
      if Ascii.eqb c Chunker.newline then (EmptyString, s')
      else let '(line, rest) := getline s' in (String c line, rest)
  end.

(** [api_key_txt] is the content of api_key.txt, [None] when it cannot be
    opened. *)
Definition loadConfig (api_key_txt : option string) : result SentraConfig :=
  match api_key_txt with
  | None => Throw "Create api_key.txt with your API key."
  | Some text =>
      let key := fst (getline text) in
      if String.length key =? 0 then Throw "api_key.txt is empty."
      else Ok (with_apiKey defaults key)
  end.

End Config.

(** ** HTTP client using system curl *)

Module HttpClient.

Definition dquote : string := String "034"%char EmptyString.

Definition tmpPath (cfg : Config.SentraConfig) : string :=
  Config.artifactsDir cfg ++ "/curl_body.json".

(** The curl command line of postJson. *)
Definition command (cfg : Config.SentraConfig) (path : string) : string :=
  "curl -s -X POST " ++ dquote ++ (Config.baseUrl cfg ++ path) ++ dquote ++ " "
  ++ "-H " ++ dquote ++ "Authorization: Bearer " ++ Config.apiKey cfg ++ dquote ++ " "
  ++ "-H " ++ dquote ++ "Content-Type: application/json" ++ dquote ++ " "
  ++ "--data-binary @" ++ tmpPath cfg.

(** [shell cmd fs] is what popen gives for cmd on the file system fs (see
    [Command.runCommand]).  The outcome comes with the file system postJson
    leaves behind. *)
Definition postJson (cfg : Config.SentraConfig)
           (shell : string -> Files.FileSystem -> option string)
           (path bodyJson : string) (fs : Files.FileSystem)
  : option (result string * Files.FileSystem) :=
  match Files.writeStringToFile (tmpPath cfg) bodyJson fs with
  | Throw what => Some (Throw what, fs)
  | Ok fs' =>
      let cmd := command cfg path in
      match Command.runCommand cmd (shell cmd fs') with
      | None => None
      | Some (Throw what) => Some (Throw what, fs')
      | Some (Ok response) =>
          if String.length response =? 0
          then Some (Throw ("Empty response from curl (or curl failed). Command: "
                            ++ cmd), fs')
          else Some (Ok response, fs')
      end
  end.

End HttpClient.

(** ** LLM client: the prompt of chatWithContext *)

Module LlmClient.

Definition nl : string := String Chunker.newline EmptyString.

(** The literal "\n\n---\n\n". *)
Definition rule : string := (nl ++ nl ++ "---" ++ nl ++ nl)%string.

(** The first loop of chatWithContext. *)
Definition contextText (contextChunks : list string) : string :=
  fold_left (fun text c => ((text ++ c) ++ rule)%string) contextChunks EmptyString.

Definition instructions : string :=
  "You are SentraAI, a retrieval-augmented assistant. "
  ++ "Use the provided context when it is relevant to the user's question. "
  ++ "If the question is generic small talk (like 'hello'), you may respond normally. "
  ++ "If the user asks about specific facts not in the context, say you don't know."
  ++ nl ++ nl ++ "Context:" ++ nl.

Definition prompt (question : string) (contextChunks : list string) : string :=
  (instructions ++ contextText contextChunks ++ nl ++ "Question:" ++ nl
   ++ question ++ nl ++ nl ++ "Answer:")%string.

End LlmClient.

(** ** Engine: orchestration *)

(** The language model is reached through curl and json.hpp; here it is a
    parameter.  [embed w text] stands for LlmClient::embed(text) in the world
    w, [chat w prompt] for the exchange at the end of
    LlmClient::chatWithContext, once the prompt is built: each gives its
    outcome and the world it leaves. *)
Module Engine.

(** VectorIndex::existsOnDisk; an artifact that exists is taken to be one
    that can be opened. *)
Definition existsOnDisk (d : Disk) : bool :=
  match indexFile d, metaFile d with
  | Some _, Some _ => true
  | _, _ => false
  end.

Section WithModel.
Context {W : Type}.
Context (embed : W -> string -> result (list float) * W).
Context (chat : W -> string -> result string * W).

(** The loop of buildOrLoadIndex that embeds every chunk, in order; the
    first exception ends it. *)
Fixpoint embed_all (docs : list Document) (w : W)
  : result (list (list float)) * W :=
  match docs with
  | [] => (Ok [], w)
  | d :: rest =>
      match embed w (content d) with
      | (Throw what, w1) => (Throw what, w1)
      | (Ok emb, w1) =>
          match embed_all rest w1 with
          | (Throw what, w2) => (Throw what, w2)
          | (Ok embeddings, w2) => (Ok (emb :: embeddings), w2)
          end
      end
  end.

(** buildOrLoadIndex: the outcome is the store it leaves in the index, with
    the disk and the world after it.  [None]: loadDocuments ran out of
    fuel. *)
Definition buildOrLoadIndex (dataDir : string)
           (dir : option (list Chunker.DirEntry)) (d : Disk) (w : W)
  : option (result (list IndexEntry) * Disk * W) :=
  if existsOnDisk d then Some (Persist.loadFromDisk d, d, w)
  else
    match Chunker.loadDocuments dataDir dir with
    | None => None
    | Some (Throw what) => Some (Throw what, d, w)
    | Some (Ok docs) =>
        if List.length docs =? 0
        then Some (Throw "No documents found in data directory.", d, w)
        else
          match embed_all docs w with
          | (Throw what, w1) => Some (Throw what, d, w1)
          | (Ok embeddings, w1) =>
              match VectorIndex.build docs embeddings with
              | Throw what => Some (Throw what, d, w1)
              | Ok entries_ =>
                  match Persist.saveToDisk entries_ d with
                  | Throw what => Some (Throw what, d, w1)
                  | Ok d' => Some (Ok entries_, d', w1)
                  end
              end
          end
    end.

(** SentraEngine::answer on the store entries_, search being taken at the
    contract of std::partial_sort. *)
Inductive answer (entries_ : list IndexEntry) (topK : Z) (question : string)
          (w : W) : result string * W -> Prop :=
| answer_embed_throws : forall what w1,
    embed w question = (Throw what, w1) ->
    answer entries_ topK question w (Throw what, w1)
| answer_search_throws : forall qEmb w1 what,
    embed w question = (Ok qEmb, w1) ->
    Search.search entries_ qEmb topK (Throw what) ->
    answer entries_ topK question w (Throw what, w1)
| answer_chat : forall qEmb w1 docs,
    embed w question = (Ok qEmb, w1) ->
    Search.search entries_ qEmb topK (Ok docs) ->
    answer entries_ topK question w
           (chat w1 (LlmClient.prompt question (SentraEngine.build_context docs))).

End WithModel.

End Engine.

(** ** main: the command loop *)

Module Cli.

(** The loop over the characters of an answer. *)
Definition sanitize_char (c : ascii) : ascii :=
  if Ascii.eqb c "146"%char || Ascii.eqb c "039"%char then "039"%char else c.

Fixpoint sanitize (ans : string) : string :=
  match ans with
  | EmptyString => EmptyString
  | String c ans' => String (sanitize_char c) (sanitize ans')
  end.

(** What the loop writes. *)
Inductive event : Type :=
| Stdout (text : string)
| Stderr (text : string).

Definition you : event := Stdout "You> ".

Section Loop.
Context {W : Type}.
(** engine.answer in the world w. *)
Context (answer : W -> string -> result string * W).

Definition report (r : result string) : event :=
  match r with
  | Ok ans =>
      Stdout (LlmClient.nl ++ "SentraAI> " ++ sanitize ans
              ++ LlmClient.nl ++ LlmClient.nl)%string
  | Throw what => Stderr ("Error: " ++ what ++ LlmClient.nl)%string
  end.

(** The while loop of main; [lines] is what the calls of
    std::getline(std::cin, line) give one after the other, until it fails. *)
Fixpoint loop (lines : list string) (w : W) : list event * W :=
  match lines with
  | [] => ([you], w)
  | line :: rest =>
      if String.eqb line "exit" || String.eqb line "quit" then ([you], w)
      else if String.length line =? 0 then
        let '(out, w') := loop rest w in (you :: out, w')
      else
        let '(r, w1) := answer w line in
        let '(out, w') := loop rest w1 in
        (you :: report r :: out, w')
  end.

(** The questions put to the engine, one after the other. *)
Fixpoint ask_all (questions : list string) (w : W) : list event * W :=
  match questions with
  | [] => ([], w)
  | q :: rest =>
      let '(r, w1) := answer w q in
      let '(out, w') := ask_all rest w1 in
      (report r :: out, w')
  end.

End Loop.

(** The lines before the first exit or quit. *)
Fixpoint session (lines : list string) : list string :=
  match lines with
  | [] => []
  | line :: rest =>
      if String.eqb line "exit" || String.eqb line "quit" then []
      else line :: session rest
  end.

Definition is_prompt (e : event) : bool :=
  match e with
  | Stdout text => String.eqb text "You> "
  | Stderr _ => false
  end.

End Cli.

(** ** Specification-side definitions for the rest of the code *)

Module IndexFile.

(** The two counters at the head of the index file, as loadFromDisk gets
    them: bytes that are missing leave the zeros the variables started with. *)
Definition num (bytes : list byte) : Z :=
  le_combine (LoadSpec.take_padded 4 bytes).

Definition dim (bytes : list byte) : Z :=
  le_combine (LoadSpec.take_padded 4 (skipn 4 bytes)).

(** The head saveToDisk writes for N entries of D floats. *)
Definition head (N D : nat) : list byte :=
  le_split 4 (Z.of_nat N) ++ le_split 4 (Z.of_nat D).

End IndexFile.

Module ChunkText.

(** The text holds the separator "\n\n" somewhere. *)
Fixpoint has_separator (s : string) : bool :=
  match s with
  | EmptyString => false
  | String _ s' => String.prefix Chunker.separator s || has_separator s'
  end.

End ChunkText.

Module ContextSpec.

(** k full stops. *)
Fixpoint dots (k : nat) : string :=
  match k with
  | O => EmptyString
  | S k' => String "."%char (dots k')
  end.

(** The texts answer can put behind the source of a chunk: the content
    itself, or a beginning of it of at most 800 characters followed by three
    to five full stops. *)
Definition shaped (d : Document) (chunk : string) : Prop :=
  chunk = content d \/
  exists n k,
    n <= SentraEngine.MAX_CHARS_PER_CHUNK /\ n < String.length (content d) /\
    3 <= k <= 5 /\
    chunk = (String.substring 0 n (content d) ++ dots k)%string.

End ContextSpec.

Module TextSpec.

(** The character c occurs in s. *)
Fixpoint occurs (c : ascii) (s : string) : bool :=
  match s with
  | EmptyString => false
  | String x s' => Ascii.eqb x c || occurs c s'
  end.

End TextSpec.

(** ** More sample data *)

Module Demo.

(** Three chunks whose embeddings make three different angles with
    (1, 0). *)
Definition store : list IndexEntry :=
  [mkIndexEntry Sample.doc0 [Sample.zero; Sample.one];
   mkIndexEntry Sample.doc1 [Sample.one; Sample.one];
   mkIndexEntry Sample.doc2 [Sample.one; Sample.zero]].

(** The payload of the index file of [Sample.entries]. *)
Definition payload : list byte :=
  flat_map LoadSpec.block_bytes Sample.entries.

Definition meta : option (option Json.json) :=
  Some (Some (Json.Arr (map Persist.metadata_of Sample.entries))).

Definition saved_disk : Disk :=
  mkDisk true (Some (IndexFile.head 3 2 ++ payload)) meta.

(** The same, with three more bytes at the end of the index file. *)
Definition padded_disk : Disk :=
  mkDisk true
         (Some (IndexFile.head 3 2 ++ payload ++ map byte.of_Z [7; 8; 9]%Z))
         meta.

(** A directory whose second text file cannot be opened. *)
Definition locked : Chunker.DirEntry :=
  Chunker.mkDirEntry true "data/c.txt" ".txt" None.

Definition broken_corpus : list Chunker.DirEntry :=
  Sample.corpus ++ locked :: Sample.corpus.

(** A model that embeds every text as (1, 0) and answers every prompt with
    the same sentence; its world counts the calls. *)
Definition embed (w : nat) (text : string) : result (list float) * nat :=
  (Ok Sample.query, S w).

Definition chat (w : nat) (prompt : string) : result string * nat :=
  (Ok "It is a letter.", S w).

(** An engine that fails on the question "why" and echoes the others. *)
Definition echo (w : nat) (question : string) : result string * nat :=
  if String.eqb question "why" then (Throw "no answer", S w)
  else (Ok question, S w).

Definition typed : list string := ["hello"; ""; "why"; "quit"; "later"].

(** An answer with the byte 0x92 (the right single quote of Windows-1252)
    where an apostrophe is meant. *)
Definition curly : string := ("it" ++ String "146"%char "s is")%string.

Definition config : Config.SentraConfig :=
  Config.with_apiKey Config.defaults "sk-test".

(** A machine where the body file can be written, and a curl that answers
    with the body it was given. *)
Definition machine : Files.FileSystem :=
  Files.mkFileSystem [("notes.txt", "n")] (fun _ => true).

Definition curl (cmd : string) (fs : Files.FileSystem) : option string :=
  Files.content_of (HttpClient.tmpPath config) (Files.files fs).

End Demo.



(** * Properties *)

(** ** build *)

Lemma length_zero_nil {A : Type} (l : list A) :
  (List.length l =? 0) = true <-> l = [].
Proof.
  destruct l; simpl; split; intros H; try reflexivity; discriminate.
Qed.

Lemma refDim_of_all_empty embeddings :
  Forall (fun e => e = []) embeddings -> VectorIndex.refDim_of embeddings = 0.
Proof.
  induction 1 as [|e l He _ IH]; simpl; [reflexivity|].
  subst e. simpl. exact IH.
Qed.

Lemma refDim_of_zero embeddings :
  VectorIndex.refDim_of embeddings = 0 -> Forall (fun e => e = []) embeddings.
Proof.
  induction embeddings as [|e l IH]; simpl; intros H; [constructor|].
  destruct e as [|x e'].
  - constructor; [reflexivity | apply IH; exact H].
  - simpl in H. discriminate.
Qed.

Lemma refDim_of_first embeddings :
  ~ Forall (fun e => e = []) embeddings ->
  BuildSpec.first_nonempty_length embeddings (VectorIndex.refDim_of embeddings).
Proof.
  induction embeddings as [|e l IH]; intros Hne.
  - exfalso. apply Hne. constructor.
  - destruct e as [|x e'].
    + destruct IH as (before & emb & after & -> & Hb & He & HD).
      { intros Hall. apply Hne. constructor; [reflexivity | exact Hall]. }
      exists ([] :: before), emb, after. simpl.
      repeat split; try assumption. constructor; [reflexivity | assumption].
    + exists [], (x :: e'), l. simpl.
      repeat split; [constructor | discriminate].
Qed.

Lemma build_loop_survivors D docs embeddings :
  VectorIndex.build_loop D docs embeddings = BuildSpec.survivors D docs embeddings.
Proof.
  unfold BuildSpec.survivors.
  revert embeddings; induction docs as [|d docs IH]; intros [|emb embeddings];
    simpl; try reflexivity.
  unfold BuildSpec.valid at 1; simpl.
  destruct (List.length emb =? 0) eqn:E0; simpl; [apply IH|].
  destruct (List.length emb =? D) eqn:ED; simpl; [f_equal|]; apply IH.
Qed.

Lemma survivors_nonempty docs embeddings :
  List.length docs = List.length embeddings ->
  ~ Forall (fun e => e = []) embeddings ->
  BuildSpec.survivors (VectorIndex.refDim_of embeddings) docs embeddings <> [].
Proof.
  intros Hlen Hne.
  destruct (refDim_of_first embeddings Hne)
    as (before & emb & after & Heq & Hb & He & HD).
  rewrite HD. clear HD. subst embeddings. clear Hne.
  revert docs Hlen. induction Hb as [|b before Hb0 Hb IH]; intros docs Hlen.
  - destruct docs as [|d docs]; [discriminate|].
    unfold BuildSpec.survivors. simpl. unfold BuildSpec.valid at 1. simpl.
    destruct emb as [|x emb]; [contradiction|].
    simpl. rewrite Nat.eqb_refl. simpl. discriminate.
  - destruct docs as [|d docs]; [discriminate|].
    subst b. unfold BuildSpec.survivors. simpl.
    unfold BuildSpec.valid at 1. simpl.
    apply IH. simpl in Hlen. injection Hlen as Hlen. exact Hlen.
Qed.

Lemma survivors_dim D docs embeddings :
  Forall (fun e => List.length (embedding e) = D)
         (BuildSpec.survivors D docs embeddings).
Proof.
  unfold BuildSpec.survivors. apply Forall_forall. intros e He.
  apply in_map_iff in He. destruct He as (p & <- & Hp).
  apply filter_In in Hp. destruct Hp as [_ Hv].
  unfold BuildSpec.valid in Hv. apply andb_true_iff in Hv.
  destruct Hv as [_ Hv]. apply Nat.eqb_eq in Hv. exact Hv.
Qed.

(** What a successful build leaves in entries_. *)
Lemma build_ok_inv docs embeddings entries :
  VectorIndex.build docs embeddings = Ok entries ->
  let D := VectorIndex.refDim_of embeddings in
  entries = BuildSpec.survivors D docs embeddings /\
  entries <> [] /\ D <> 0 /\
  Forall (fun e => List.length (embedding e) = D) entries.
Proof.
  unfold VectorIndex.build. intros H.
  destruct (List.length docs =? 0); [discriminate|].
  destruct (negb (List.length docs =? List.length embeddings)); [discriminate|].
  destruct (VectorIndex.refDim_of embeddings =? 0) eqn:ED; [discriminate|].
  destruct (List.length (VectorIndex.build_loop _ docs embeddings) =? 0) eqn:EL;
    [discriminate|].
  injection H as <-. simpl.
  rewrite build_loop_survivors in *.
  repeat split.
  - intros Hnil. rewrite Hnil in EL. discriminate.
  - apply Nat.eqb_neq. exact ED.
  - apply survivors_dim.
Qed.

(** C5. For a non-empty list of chunks with as many embeddings: when every
    embedding is empty build throws ("All embeddings are empty."); otherwise
    the reference dimension D is the length of the first non-empty embedding
    and build succeeds with exactly the pairs whose embedding is non-empty and
    of length D, in input order (the others are dropped); whenever no pair
    survives build throws; and when exactly one pair survives the store has a
    single entry. *)
Theorem C5_build_filters_by_reference_dimension :
  forall docs embeddings,
    docs <> [] ->
    List.length docs = List.length embeddings ->
    let D := VectorIndex.refDim_of embeddings in
    (Forall (fun e => e = []) embeddings ->
     VectorIndex.build docs embeddings = Throw "All embeddings are empty.") /\
    (~ Forall (fun e => e = []) embeddings ->
     BuildSpec.first_nonempty_length embeddings D /\
     VectorIndex.build docs embeddings
       = Ok (BuildSpec.survivors D docs embeddings)) /\
    (BuildSpec.survivors D docs embeddings = [] ->
     exists what, VectorIndex.build docs embeddings = Throw what) /\
    (List.length (BuildSpec.survivors D docs embeddings) = 1 ->
     exists e, VectorIndex.build docs embeddings = Ok [e]).
Proof.
  intros docs embeddings Hdocs Hlen D.
  assert (Hstart : forall r,
            (if VectorIndex.refDim_of embeddings =? 0
             then Throw "All embeddings are empty."
             else
               let entries_ := VectorIndex.build_loop
                                 (VectorIndex.refDim_of embeddings) docs embeddings in
               if List.length entries_ =? 0
               then Throw "No valid entries after filtering embeddings."
               else Ok entries_) = r ->
            VectorIndex.build docs embeddings = r).
  { intros r Hr. unfold VectorIndex.build.
    destruct docs as [|d0 docs']; [contradiction|]. simpl List.length at 1.
    simpl (S _ =? 0). cbv iota.
    rewrite Hlen, Nat.eqb_refl. simpl negb. cbv iota. exact Hr. }
  assert (Hall : Forall (fun e => e = []) embeddings ->
                 VectorIndex.build docs embeddings = Throw "All embeddings are empty.").
  { intros Hempty. apply Hstart.
    rewrite (refDim_of_all_empty _ Hempty). reflexivity. }
  assert (Hsome : ~ Forall (fun e => e = []) embeddings ->
                  VectorIndex.build docs embeddings
                    = Ok (BuildSpec.survivors D docs embeddings)).
  { intros Hne. apply Hstart.
    destruct (VectorIndex.refDim_of embeddings =? 0) eqn:ED.
    - exfalso. apply Hne. apply refDim_of_zero. apply Nat.eqb_eq. exact ED.
    - cbv zeta. rewrite build_loop_survivors.
      pose proof (survivors_nonempty docs embeddings Hlen Hne) as Hs.
      fold D in Hs |- *.
      destruct (BuildSpec.survivors D docs embeddings); [contradiction|].
      reflexivity. }
  assert (Hdec : Forall (fun e : list float => e = []) embeddings \/
                 ~ Forall (fun e : list float => e = []) embeddings).
  { destruct (Forall_dec (fun e : list float => e = [])
                (fun e => match e with
                          | [] => left eq_refl
                          | x :: e' => right (fun H : x :: e' = [] =>
                                                 @nil_cons _ x e' (eq_sym H))
                          end) embeddings); [left | right]; assumption. }
  split; [exact Hall|]. split; [|split].
  - intros Hne. split; [apply refDim_of_first; exact Hne | apply Hsome; exact Hne].
  - intros Hnil. destruct Hdec as [He | Hne].
    + eexists. apply Hall. exact He.
    + exfalso. exact (survivors_nonempty docs embeddings Hlen Hne Hnil).
  - intros Hone. destruct Hdec as [He | Hne].
    + exfalso. unfold D in Hone. rewrite (refDim_of_all_empty _ He) in Hone.
      unfold BuildSpec.survivors in Hone. rewrite length_map in Hone.
      assert (Hf : filter (BuildSpec.valid 0) (combine docs embeddings) = []).
      { clear. induction (combine docs embeddings) as [|p l IH]; simpl; [reflexivity|].
        unfold BuildSpec.valid at 1.
        destruct (List.length (snd p) =? 0); simpl; exact IH. }
      rewrite Hf in Hone. discriminate.
    + rewrite (Hsome Hne).
      destruct (BuildSpec.survivors D docs embeddings) as [|e [|e' l]];
        try discriminate.
      exists e. reflexivity.
Qed.

(** ** saveToDisk and loadFromDisk *)

Lemma floats_of_bytes_of_floats v : floats_of_bytes (bytes_of_floats v) = v.
Proof.
  induction v as [|f v IH]; [reflexivity|].
  destruct f as [c0 c1 c2 c3]. simpl. f_equal. exact IH.
Qed.

Lemma length_bytes_of_floats v :
  List.length (bytes_of_floats v) = 4 * List.length v.
Proof.
  induction v as [|f v IH]; [reflexivity|].
  unfold bytes_of_floats in *. simpl. rewrite IH. lia.
Qed.

Lemma bytes_of_floats_of_bytes D : forall bs,
  List.length bs = 4 * D ->
  bytes_of_floats (floats_of_bytes bs) = bs /\
  List.length (floats_of_bytes bs) = D.
Proof.
  induction D as [|D IH]; intros bs Hlen.
  - destruct bs; [split; reflexivity | discriminate].
  - destruct bs as [|c0 [|c1 [|c2 [|c3 bs]]]]; simpl in Hlen; try lia.
    destruct (IH bs) as [Hb Hl]; [lia|].
    simpl. split; [|lia].
    unfold bytes_of_floats in *. simpl. rewrite Hb. reflexivity.
Qed.

Lemma take_padded_length m : forall bs,
  List.length (LoadSpec.take_padded m bs) = m.
Proof.
  induction m as [|m IH]; intros bs; [reflexivity|].
  destruct bs; simpl; rewrite IH; reflexivity.
Qed.

Lemma take_padded_nil m : LoadSpec.take_padded m [] = repeat zero_byte m.
Proof. induction m as [|m IH]; simpl; [reflexivity | rewrite IH; reflexivity]. Qed.

Lemma take_padded_app_exact bs : forall tl,
  LoadSpec.take_padded (List.length bs) (bs ++ tl) = bs.
Proof. induction bs as [|x bs IH]; intros tl; simpl; [reflexivity | rewrite IH; reflexivity]. Qed.

Lemma take_padded_short m : forall bs,
  List.length bs <= m ->
  LoadSpec.take_padded m bs = bs ++ repeat zero_byte (m - List.length bs).
Proof.
  induction m as [|m IH]; intros bs Hle.
  - destruct bs; [reflexivity | simpl in Hle; lia].
  - destruct bs as [|x bs]; simpl.
    + rewrite take_padded_nil. reflexivity.
    + rewrite IH by (simpl in Hle; lia). reflexivity.
Qed.

Lemma take_padded_long m : forall bs,
  m <= List.length bs -> LoadSpec.take_padded m bs = firstn m bs.
Proof.
  induction m as [|m IH]; intros bs Hle; [reflexivity|].
  destruct bs as [|x bs]; simpl in *; [lia|].
  rewrite IH by lia. reflexivity.
Qed.

Lemma take_padded_add a : forall b bs,
  LoadSpec.take_padded (a + b) bs
  = LoadSpec.take_padded a bs ++ LoadSpec.take_padded b (skipn a bs).
Proof.
  induction a as [|a IH]; intros b bs; [reflexivity|].
  destruct bs as [|x bs]; simpl.
  - rewrite IH. destruct a; reflexivity.
  - rewrite IH. reflexivity.
Qed.

(** istream::read into a zeroed buffer of the requested size. *)
Lemma read_zero_buffer s k :
  let '(buf, s') := IStream.read s (repeat zero_byte k) k in
  buf = LoadSpec.take_padded k (LoadSpec.avail s) /\
  LoadSpec.avail s' = skipn k (LoadSpec.avail s).
Proof.
  unfold IStream.read, LoadSpec.avail.
  destruct s as [rest fail]. simpl.
  destruct fail.
  - simpl. rewrite take_padded_nil, skipn_nil. split; reflexivity.
  - destruct (k <=? List.length rest) eqn:E.
    + apply Nat.leb_le in E. simpl.
      rewrite take_padded_long by exact E.
      rewrite skipn_all2 by (rewrite repeat_length; lia).
      rewrite app_nil_r. split; reflexivity.
    + apply Nat.leb_gt in E. simpl.
      rewrite take_padded_short by lia.
      split; [|symmetry; apply skipn_all2; lia].
      f_equal. clear -E.
      revert k E. induction rest as [|x rest IH]; intros k E; simpl.
      * rewrite Nat.sub_0_r. reflexivity.
      * destruct k as [|k]; [simpl in E; lia|]. simpl.
        apply IH. simpl in E. lia.
Qed.

Lemma metadata_fields e :
  bind (Json.at_key (Persist.metadata_of e) "id") Json.get_string = Ok (id (doc e)) /\
  bind (Json.at_key (Persist.metadata_of e) "source") Json.get_string
    = Ok (sourcePath (doc e)) /\
  bind (Json.at_key (Persist.metadata_of e) "content") Json.get_string
    = Ok (content (doc e)).
Proof. repeat split. Qed.

(** The loop of loadFromDisk over well-formed metadata never throws: record
    i receives the i-th block of the payload, zero bytes standing in for
    whatever the file does not hold. *)
Lemma load_loop_read_blocks dim all : forall todo done s,
  all = done ++ todo ->
  Persist.load_loop (Json.Arr (map Persist.metadata_of all)) dim
                    (List.length todo) (List.length done) s
  = Ok (LoadSpec.read_blocks (Z.to_nat (dim * 4)) todo (LoadSpec.avail s)).
Proof.
  induction todo as [|r todo IH]; intros done s Hall; [reflexivity|].
  cbn [List.length Persist.load_loop].
  assert (Hnth : Json.at_index (Json.Arr (map Persist.metadata_of all))
                               (List.length done) = Ok (Persist.metadata_of r)).
  { unfold Json.at_index. subst all.
    rewrite map_app, nth_error_app2 by (rewrite length_map; lia).
    rewrite length_map, Nat.sub_diag. reflexivity. }
  rewrite Hnth. cbn [bind].
  destruct (metadata_fields r) as (-> & -> & ->). cbn [bind].
  pose proof (read_zero_buffer s (Z.to_nat (dim * 4))) as Hread.
  destruct (IStream.read s (repeat zero_byte (Z.to_nat (dim * 4)))
                         (Z.to_nat (dim * 4))) as [emb s'].
  destruct Hread as [-> Havail].
  specialize (IH (done ++ [r]) s').
  rewrite length_app, Nat.add_1_r in IH.
  rewrite IH by (rewrite <- app_assoc; exact Hall).
  cbn [bind LoadSpec.read_blocks]. rewrite Havail.
  destruct r as [[i sp c] em]. reflexivity.
Qed.

Lemma read_header n tl :
  (0 <= n <= uint32_max)%Z ->
  IStream.read (IStream.open (le_split 4 n ++ tl)) (le_split 4 0) 4
  = (le_split 4 n, IStream.open tl) /\
  le_combine (le_split 4 n) = n.
Proof.
  intros Hn. split.
  - reflexivity.
  - rewrite le_combine_split. apply Z.mod_small.
    unfold uint32_max in Hn. change (Z.of_nat 4 * 8)%Z with 32%Z. lia.
Qed.

(** loadFromDisk on a file with a whole header and metadata of N records. *)
Lemma loadFromDisk_read_blocks d N D payload recs :
  (Z.of_nat N <= uint32_max)%Z ->
  (Z.of_nat D <= uint32_max)%Z ->
  List.length recs = N ->
  indexFile d = Some (le_split 4 (Z.of_nat N) ++ le_split 4 (Z.of_nat D) ++ payload) ->
  metaFile d = Some (Some (Json.Arr (map Persist.metadata_of recs))) ->
  Persist.loadFromDisk d = Ok (LoadSpec.read_blocks (4 * D) recs payload).
Proof.
  intros HN HD Hlen Hidx Hmeta.
  unfold Persist.loadFromDisk. rewrite Hidx, Hmeta.
  destruct (read_header (Z.of_nat N)
              (le_split 4 (Z.of_nat D) ++ payload)) as [-> HcN]; [lia|].
  destruct (read_header (Z.of_nat D) payload) as [-> HcD]; [lia|].
  rewrite HcN, HcD.
  cbn [Json.size]. rewrite length_map, Hlen, Z.eqb_refl. cbn [negb].
  rewrite Nat2Z.id, <- Hlen.
  pose proof (load_loop_read_blocks (Z.of_nat D) recs recs []
                (IStream.open payload) eq_refl) as Hloop.
  cbn [List.length] in Hloop. rewrite Hloop.
  replace (Z.to_nat (Z.of_nat D * 4)) with (4 * D) by lia.
  reflexivity.
Qed.

Lemma skipn_app_exact {A : Type} (k : nat) (a b : list A) :
  List.length a = k -> skipn k (a ++ b) = b.
Proof.
  intros <-. induction a as [|x a IH]; simpl; [reflexivity | exact IH].
Qed.

Lemma take_padded_app_len k a b :
  List.length a = k -> LoadSpec.take_padded k (a ++ b) = a.
Proof. intros <-. apply take_padded_app_exact. Qed.

Lemma read_blocks_complete D : forall entries tl,
  Forall (fun e => List.length (embedding e) = D) entries ->
  LoadSpec.read_blocks (4 * D) entries
                       (flat_map LoadSpec.block_bytes entries ++ tl)
  = entries.
Proof.
  induction entries as [|e entries IH]; intros tl Hdim; [reflexivity|].
  inversion Hdim as [|e' l He Hrest]. clear Hdim. subst e' l.
  cbn [flat_map LoadSpec.read_blocks]. rewrite <- app_assoc.
  assert (Hlen : List.length (LoadSpec.block_bytes e) = 4 * D).
  { unfold LoadSpec.block_bytes. rewrite length_bytes_of_floats, He. reflexivity. }
  rewrite take_padded_app_len, skipn_app_exact by exact Hlen.
  unfold LoadSpec.block_bytes at 1. rewrite floats_of_bytes_of_floats.
  rewrite IH by exact Hrest.
  destruct e; reflexivity.
Qed.

Lemma write_block_whole D e :
  List.length (embedding e) = D ->
  Persist.write_block (Z.of_nat D) e = LoadSpec.block_bytes e.
Proof.
  intros He. unfold Persist.write_block, LoadSpec.block_bytes.
  apply firstn_all2. rewrite length_bytes_of_floats, He. lia.
Qed.

Lemma to_uint32_small n : (Z.of_nat n <= uint32_max)%Z -> to_uint32 n = Z.of_nat n.
Proof.
  intros Hn. unfold to_uint32. apply Z.mod_small. unfold uint32_max in Hn. lia.
Qed.

(** Round trip for any non-empty store whose vectors share one length. *)
Lemma save_then_load entries D d :
  entries <> [] ->
  Forall (fun e => List.length (embedding e) = D) entries ->
  writable d = true ->
  (Z.of_nat (List.length entries) <= uint32_max)%Z ->
  (Z.of_nat D <= uint32_max)%Z ->
  exists d', Persist.saveToDisk entries d = Ok d' /\
             Persist.loadFromDisk d' = Ok entries.
Proof.
  intros Hne Hdim Hw HN HD.
  destruct entries as [|e0 entries']; [contradiction|].
  set (entries := e0 :: entries') in *.
  unfold Persist.saveToDisk. fold entries. rewrite Hw. cbn [negb].
  eexists. split; [reflexivity|].
  assert (He0 : List.length (embedding e0) = D).
  { inversion Hdim; assumption. }
  rewrite He0, !to_uint32_small by assumption.
  erewrite loadFromDisk_read_blocks with (recs := entries) (N := List.length entries)
    (D := D) (payload := flat_map LoadSpec.block_bytes entries);
    try reflexivity; try assumption.
  - rewrite <- (app_nil_r (flat_map LoadSpec.block_bytes entries)).
    rewrite read_blocks_complete by exact Hdim. reflexivity.
  - cbn [indexFile]. do 3 f_equal.
    clear -Hdim. induction Hdim as [|e l He _ IH]; [reflexivity|].
    cbn [flat_map]. rewrite IH, (write_block_whole D e He). reflexivity.
Qed.


Lemma read_blocks_docs k : forall recs payload,
  map doc (LoadSpec.read_blocks k recs payload) = map doc recs.
Proof.
  induction recs as [|r recs IH]; intros payload; [reflexivity|].
  simpl. rewrite IH. reflexivity.
Qed.

Lemma read_blocks_dim D : forall recs payload,
  Forall (fun e => List.length (embedding e) = D)
         (LoadSpec.read_blocks (4 * D) recs payload).
Proof.
  induction recs as [|r recs IH]; intros payload; constructor.
  - cbn [embedding].
    exact (proj2 (bytes_of_floats_of_bytes D _ (take_padded_length _ _))).
  - apply IH.
Qed.

Lemma read_blocks_bytes D : forall recs payload,
  flat_map LoadSpec.block_bytes (LoadSpec.read_blocks (4 * D) recs payload)
  = LoadSpec.take_padded (List.length recs * (4 * D)) payload.
Proof.
  induction recs as [|r recs IH]; intros payload; [reflexivity|].
  cbn [LoadSpec.read_blocks flat_map List.length].
  replace (S (List.length recs) * (4 * D))
    with (4 * D + List.length recs * (4 * D)) by lia.
  rewrite take_padded_add, IH. f_equal.
  unfold LoadSpec.block_bytes. cbn [embedding].
  exact (proj1 (bytes_of_floats_of_bytes D _ (take_padded_length _ _))).
Qed.

(** C4 (as the code has it). A vector file with a whole header (N, D) but
    fewer than N*D floats after it, next to metadata of N records, is loaded
    without any error: loadFromDisk returns N entries carrying the metadata in
    order, each with D floats, and the bytes of these floats are the bytes
    the file holds after the header followed by zero bytes.  The missing
    floats are thus zero-filled, and a float cut by the end of the file is
    partly read. *)
Theorem C4_truncated_payload_loads_zero_filled :
  forall (N D : nat) (payload : list byte) (recs : list IndexEntry) (d : Disk),
    (Z.of_nat N <= uint32_max)%Z ->
    (Z.of_nat D <= uint32_max)%Z ->
    List.length recs = N ->
    List.length payload < N * (4 * D) ->
    indexFile d = Some (le_split 4 (Z.of_nat N) ++ le_split 4 (Z.of_nat D)
                          ++ payload) ->
    metaFile d = Some (Some (Json.Arr (map Persist.metadata_of recs))) ->
    exists entries,
      Persist.loadFromDisk d = Ok entries /\
      map doc entries = map doc recs /\
      Forall (fun e => List.length (embedding e) = D) entries /\
      flat_map LoadSpec.block_bytes entries
      = payload ++ repeat zero_byte (N * (4 * D) - List.length payload).
Proof.
  intros N D payload recs d HN HD Hlen Hshort Hidx Hmeta.
  exists (LoadSpec.read_blocks (4 * D) recs payload).
  split; [exact (loadFromDisk_read_blocks d N D payload recs HN HD Hlen Hidx Hmeta)|].
  split; [apply read_blocks_docs|].
  split; [apply read_blocks_dim|].
  rewrite read_blocks_bytes, Hlen.
  apply take_padded_short. lia.
Qed.

(** ** std::partial_sort: the contract can be met *)

Section PartialSortFacts.
Context {T : Type} (comp : T -> T -> bool).

Lemma insert_In x y : forall l,
  In y (PartialSort.insert comp x l) <-> y = x \/ In y l.
Proof.
  induction l as [|z l IH]; simpl.
  - intuition congruence.
  - destruct (comp z x); simpl; rewrite ?IH; intuition congruence.
Qed.

Lemma insert_perm x : forall l,
  Permutation (x :: l) (PartialSort.insert comp x l).
Proof.
  induction l as [|z l IH]; simpl; [reflexivity|].
  destruct (comp z x); [|reflexivity].
  rewrite perm_swap. apply perm_skip. exact IH.
Qed.

Lemma insertion_sort_perm : forall l,
  Permutation l (PartialSort.insertion_sort comp l).
Proof.
  induction l as [|x l IH]; simpl; [reflexivity|].
  rewrite <- insert_perm. apply perm_skip. exact IH.
Qed.

Lemma insert_sorted (dom : list T) x :
  PartialSort.strict_weak_on comp dom ->
  In x dom ->
  forall l, incl l dom ->
    StronglySorted (PartialSort.not_after comp) l ->
    StronglySorted (PartialSort.not_after comp) (PartialSort.insert comp x l).
Proof.
  intros [Hasym Hneg] Hx.
  induction l as [|y l IH]; intros Hincl Hs; simpl.
  - repeat constructor.
  - inversion Hs as [|y' l' Hsl Hy]; subst.
    assert (Hy_dom : In y dom) by (apply Hincl; left; reflexivity).
    assert (Hl_dom : incl l dom) by (intros z Hz; apply Hincl; right; exact Hz).
    destruct (comp y x) eqn:Eyx.
    + constructor; [apply IH; assumption|].
      apply Forall_forall. intros w Hw. apply insert_In in Hw.
      destruct Hw as [-> | Hw].
      * unfold PartialSort.not_after. apply Hasym; assumption.
      * rewrite Forall_forall in Hy. apply Hy. exact Hw.
    + constructor; [exact Hs|].
      apply Forall_forall. intros w [<- | Hw].
      * exact Eyx.
      * unfold PartialSort.not_after.
        destruct (comp w x) eqn:Ewx; [|reflexivity].
        rewrite Forall_forall in Hy. specialize (Hy w Hw).
        unfold PartialSort.not_after in Hy.
        destruct (Hneg w x y (Hl_dom w Hw) Hx Hy_dom Ewx) as [H | H]; congruence.
Qed.

Lemma insertion_sort_sorted (dom : list T) :
  PartialSort.strict_weak_on comp dom ->
  forall l, incl l dom ->
    StronglySorted (PartialSort.not_after comp) (PartialSort.insertion_sort comp l).
Proof.
  intros Hswo. induction l as [|x l IH]; intros Hincl; simpl.
  - constructor.
  - apply (insert_sorted dom); try assumption.
    + apply Hincl. left. reflexivity.
    + intros z Hz. apply Hincl. right.
      apply (Permutation_in z (Permutation_sym (insertion_sort_perm l))). exact Hz.
    + apply IH. intros z Hz. apply Hincl. right. exact Hz.
Qed.

Lemma StronglySorted_app_inv (R : T -> T -> Prop) : forall l1 l2,
  StronglySorted R (l1 ++ l2) ->
  StronglySorted R l1 /\ (forall x y, In x l1 -> In y l2 -> R x y).
Proof.
  induction l1 as [|a l1 IH]; intros l2 Hs; simpl in *.
  - split; [constructor | intros x y []].
  - inversion Hs as [|a' l' Hs' Ha]; subst.
    destruct (IH l2 Hs') as [H1 H2].
    rewrite Forall_forall in Ha.
    split.
    + constructor; [exact H1|]. apply Forall_forall. intros z Hz.
      apply Ha. apply in_or_app. left. exact Hz.
    + intros x y [<- | Hx] Hy.
      * apply Ha. apply in_or_app. right. exact Hy.
      * apply H2; assumption.
Qed.

(** Whatever the position of middle, sorting the whole range by insertion
    meets the contract of partial_sort. *)
Lemma insertion_sort_post middle l :
  PartialSort.strict_weak_on comp l ->
  PartialSort.post comp middle l (PartialSort.insertion_sort comp l).
Proof.
  intros Hswo.
  pose proof (insertion_sort_sorted l Hswo l (incl_refl l)) as Hs.
  rewrite <- (firstn_skipn middle (PartialSort.insertion_sort comp l)) in Hs.
  destruct (StronglySorted_app_inv _ _ _ Hs) as [H1 H2].
  split; [apply insertion_sort_perm | split; assumption].
Qed.

Lemma strict_weak_onb_sound l :
  PartialSort.strict_weak_onb comp l = true -> PartialSort.strict_weak_on comp l.
Proof.
  unfold PartialSort.strict_weak_onb. intros H.
  rewrite forallb_forall in H.
  split.
  - intros x y Hx Hy Hxy.
    specialize (H x Hx). rewrite forallb_forall in H. specialize (H y Hy).
    apply andb_true_iff in H. destruct H as [H _].
    rewrite Hxy in H. simpl in H. apply negb_true_iff in H. exact H.
  - intros x y z Hx Hy Hz Hxy.
    specialize (H x Hx). rewrite forallb_forall in H. specialize (H y Hy).
    apply andb_true_iff in H. destruct H as [_ H].
    rewrite forallb_forall in H. specialize (H z Hz).
    rewrite Hxy in H. simpl in H. apply orb_true_iff in H. exact H.
Qed.

End PartialSortFacts.

(** ** std::partial_sort: the libstdc++ selection only moves elements *)

Section GnuFacts.
Context {T : Type} (comp : T -> T -> bool) (dflt : T).

Lemma set_length (a : list T) i v :
  List.length (PartialSort.set a i v) = List.length a.
Proof.
  unfold PartialSort.set.
  destruct (Nat.ltb_spec (Z.to_nat i) (List.length a)) as [Hlt | _]; [|reflexivity].
  rewrite length_app, length_firstn. cbn [List.length]. rewrite length_skipn. lia.
Qed.

Lemma set_at (l1 l2 : list T) x i v :
  i = Z.of_nat (List.length l1) ->
  PartialSort.set (l1 ++ x :: l2) i v = l1 ++ v :: l2.
Proof.
  intros ->. unfold PartialSort.set. rewrite Nat2Z.id.
  assert (Hlt : (List.length l1 <? List.length (l1 ++ x :: l2)) = true).
  { apply Nat.ltb_lt. rewrite length_app. cbn [List.length]. lia. }
  rewrite Hlt.
  rewrite firstn_app, firstn_all, Nat.sub_diag. cbn [firstn]. rewrite app_nil_r.
  rewrite skipn_app.
  rewrite skipn_all2 by lia.
  replace (S (List.length l1) - List.length l1) with 1 by lia.
  reflexivity.
Qed.

Lemma get_at (l1 l2 : list T) x i :
  i = Z.of_nat (List.length l1) ->
  PartialSort.get dflt (l1 ++ x :: l2) i = x.
Proof.
  intros ->. unfold PartialSort.get. rewrite Nat2Z.id.
  rewrite app_nth2 by lia. rewrite Nat.sub_diag. reflexivity.
Qed.

Lemma split_at (a : list T) n :
  n < List.length a ->
  exists l1 x l2, a = l1 ++ x :: l2 /\ List.length l1 = n.
Proof.
  intros Hn. destruct (nth_split a dflt Hn) as (l1 & l2 & Ha & Hl).
  exists l1, (nth n a dflt), l2. split; assumption.
Qed.

Lemma perm_exchange (l2 l3 : list T) x y :
  Permutation (y :: l2 ++ x :: l3) (x :: l2 ++ y :: l3).
Proof.
  apply Permutation_trans with (y :: x :: l2 ++ l3).
  - apply perm_skip. apply Permutation_sym, Permutation_middle.
  - apply Permutation_trans with (x :: y :: l2 ++ l3); [apply perm_swap|].
    apply perm_skip. apply Permutation_middle.
Qed.

(** Filling the hole at i with the element at j, which makes j the hole,
    leaves the same elements once the hole is filled. *)
Lemma set_swap (a : list T) i j v :
  (0 <= i < Z.of_nat (List.length a))%Z ->
  (0 <= j < Z.of_nat (List.length a))%Z ->
  Permutation
    (PartialSort.set (PartialSort.set a i (PartialSort.get dflt a j)) j v)
    (PartialSort.set a i v).
Proof.
  intros Hi Hj.
  destruct (Z.lt_trichotomy i j) as [Hlt | [Heq | Hgt]].
  - destruct (split_at a (Z.to_nat i)) as (l1 & x & r & -> & Hl1); [lia|].
    rewrite length_app in Hj. cbn [List.length] in Hj.
    destruct (split_at r (Z.to_nat j - Z.to_nat i - 1)) as (l2 & y & l3 & -> & Hl2);
      [lia|].
    assert (Ei : i = Z.of_nat (List.length l1)) by lia.
    assert (Ej : j = Z.of_nat (List.length (l1 ++ x :: l2))).
    { rewrite length_app. cbn [List.length]. lia. }
    assert (Ej' : j = Z.of_nat (List.length (l1 ++ y :: l2))).
    { rewrite length_app. cbn [List.length]. lia. }
    replace (PartialSort.get dflt (l1 ++ x :: l2 ++ y :: l3) j) with y.
    2:{ symmetry. replace (l1 ++ x :: l2 ++ y :: l3) with ((l1 ++ x :: l2) ++ y :: l3)
          by (rewrite <- app_assoc; reflexivity).
        apply get_at. exact Ej. }
    rewrite (set_at l1 (l2 ++ y :: l3) x i y Ei).
    rewrite (set_at l1 (l2 ++ y :: l3) x i v Ei).
    replace (l1 ++ y :: l2 ++ y :: l3) with ((l1 ++ y :: l2) ++ y :: l3)
      by (rewrite <- app_assoc; reflexivity).
    rewrite (set_at (l1 ++ y :: l2) l3 y j v Ej').
    rewrite <- app_assoc. cbn [app].
    apply Permutation_app_head. apply perm_exchange.
  - subst j.
    destruct (split_at a (Z.to_nat i)) as (l1 & x & r & -> & Hl1); [lia|].
    assert (Ei : i = Z.of_nat (List.length l1)) by lia.
    rewrite (get_at l1 r x i Ei).
    rewrite (set_at l1 r x i x Ei), (set_at l1 r x i v Ei). reflexivity.
  - destruct (split_at a (Z.to_nat j)) as (l1 & y & r & -> & Hl1); [lia|].
    rewrite length_app in Hi. cbn [List.length] in Hi.
    destruct (split_at r (Z.to_nat i - Z.to_nat j - 1)) as (l2 & x & l3 & -> & Hl2);
      [lia|].
    assert (Ej : j = Z.of_nat (List.length l1)) by lia.
    assert (Ei : i = Z.of_nat (List.length (l1 ++ y :: l2))).
    { rewrite length_app. cbn [List.length]. lia. }
    rewrite (get_at l1 (l2 ++ x :: l3) y j Ej).
    replace (l1 ++ y :: l2 ++ x :: l3) with ((l1 ++ y :: l2) ++ x :: l3)
      by (rewrite <- app_assoc; reflexivity).
    rewrite (set_at (l1 ++ y :: l2) l3 x i y Ei).
    rewrite (set_at (l1 ++ y :: l2) l3 x i v Ei).
    rewrite <- !app_assoc. cbn [app].
    rewrite (set_at l1 (l2 ++ y :: l3) y j v Ej).
    apply Permutation_app_head. apply perm_exchange.
Qed.

Lemma set_same (a : list T) i :
  (0 <= i < Z.of_nat (List.length a))%Z ->
  PartialSort.set a i (PartialSort.get dflt a i) = a.
Proof.
  intros Hi.
  destruct (split_at a (Z.to_nat i)) as (l1 & x & r & -> & Hl1); [lia|].
  assert (Ei : i = Z.of_nat (List.length l1)) by lia.
  rewrite (get_at l1 r x i Ei). apply set_at. exact Ei.
Qed.

Lemma push_heap_moves : forall fuel a holeIndex topIndex value a',
  PartialSort.push_heap comp dflt fuel a holeIndex topIndex value = Some a' ->
  (0 <= topIndex)%Z ->
  (0 <= holeIndex < Z.of_nat (List.length a))%Z ->
  Permutation a' (PartialSort.set a holeIndex value).
Proof.
  induction fuel as [|fuel IH]; intros a hole top value a' H Htop Hhole;
    [discriminate|].
  cbn [PartialSort.push_heap] in H.
  destruct ((hole >? top)%Z && comp (PartialSort.get dflt a (Z.quot (hole - 1) 2)) value)
    eqn:Hc.
  - apply andb_true_iff in Hc. destruct Hc as [Hgt _].
    apply Z.gtb_lt in Hgt.
    assert (Hp : (0 <= Z.quot (hole - 1) 2 < hole)%Z).
    { split; [apply Z.quot_pos; lia|].
      apply Z.quot_lt_upper_bound; lia. }
    apply IH in H; [|exact Htop|rewrite set_length; lia].
    apply (Permutation_trans H). apply set_swap; lia.
  - injection H as <-. reflexivity.
Qed.

Lemma adjust_heap_down_moves : forall fuel a holeIndex len a' holeIndex' secondChild',
  PartialSort.adjust_heap_down comp dflt fuel a holeIndex holeIndex len
  = Some (a', holeIndex', secondChild') ->
  (0 <= holeIndex < Z.of_nat (List.length a))%Z ->
  (len <= Z.of_nat (List.length a))%Z ->
  secondChild' = holeIndex' /\
  (0 <= holeIndex' < Z.of_nat (List.length a'))%Z /\
  List.length a' = List.length a /\
  forall value,
    Permutation (PartialSort.set a' holeIndex' value)
                (PartialSort.set a holeIndex value).
Proof.
  induction fuel as [|fuel IH]; intros a hole len a' hole' sc' H Hhole Hlen;
    [discriminate|].
  cbn [PartialSort.adjust_heap_down] in H.
  destruct (hole <? Z.quot (len - 1) 2)%Z eqn:Hc.
  - apply Z.ltb_lt in Hc.
    assert (Hq : (2 * Z.quot (len - 1) 2 <= len - 1)%Z).
    { assert (0 <= len - 1)%Z.
      { destruct (Z_le_gt_dec 0 (len - 1)) as [|Hneg]; [assumption|].
        assert (Z.quot (len - 1) 2 <= 0)%Z by (apply Z.quot_le_upper_bound; lia).
        lia. }
      pose proof (Z.quot_rem (len - 1) 2 ltac:(lia)) as E.
      pose proof (Z.rem_bound_pos (len - 1) 2 ltac:(lia) ltac:(lia)). lia. }
    set (c0 := (2 * (hole + 1))%Z) in *.
    set (c := if comp (PartialSort.get dflt a c0) (PartialSort.get dflt a (c0 - 1))
              then (c0 - 1)%Z else c0) in *.
    assert (Hcr : (hole < c < Z.of_nat (List.length a))%Z).
    { unfold c, c0.
      destruct (comp _ _); lia. }
    apply IH in H; [|rewrite set_length; lia|rewrite set_length; lia].
    destruct H as (Hsc & Hh' & Hl' & Hperm).
    rewrite set_length in Hl'.
    split; [exact Hsc|]. split; [exact Hh'|]. split; [exact Hl'|].
    intros value. apply (Permutation_trans (Hperm value)).
    apply set_swap; lia.
  - injection H as <- <- <-.
    split; [reflexivity|]. split; [exact Hhole|]. split; [reflexivity|].
    intros value. reflexivity.
Qed.

(** The only child of the last inner node of a heap of even length. *)
Lemma last_child_in_range len h :
  Z.land len 1 = 0%Z ->
  h = Z.quot (len - 2) 2 ->
  (0 <= h)%Z ->
  (2 * (h + 1) - 1 < len)%Z.
Proof.
  intros Heven Hlast Hh.
  assert (0 <= len - 2)%Z.
  { destruct (Z_le_gt_dec 0 (len - 2)) as [|Hneg]; [assumption|].
    destruct (Z.eq_dec len 1) as [-> | Hne]; [discriminate Heven|].
    assert (Z.quot (len - 2) 2 < 0)%Z.
    { rewrite <- (Z.opp_involutive (len - 2)), Z.quot_opp_l by lia.
      assert (1 <= Z.quot (- (len - 2)) 2)%Z
        by (apply Z.quot_le_lower_bound; lia).
      lia. }
    lia. }
  pose proof (Z.quot_rem (len - 2) 2 ltac:(lia)) as E.
  pose proof (Z.rem_bound_pos (len - 2) 2 ltac:(lia) ltac:(lia)). lia.
Qed.

Lemma adjust_heap_moves fuel a holeIndex len value a' :
  PartialSort.adjust_heap comp dflt fuel a holeIndex len value = Some a' ->
  (0 <= holeIndex < Z.of_nat (List.length a))%Z ->
  (len <= Z.of_nat (List.length a))%Z ->
  Permutation a' (PartialSort.set a holeIndex value).
Proof.
  intros H Hhole Hlen. unfold PartialSort.adjust_heap in H.
  destruct (PartialSort.adjust_heap_down comp dflt fuel a holeIndex holeIndex len)
    as [[[a1 h1] sc1]|] eqn:Hd; [|discriminate].
  destruct (adjust_heap_down_moves _ _ _ _ _ _ _ Hd Hhole Hlen)
    as (-> & Hh1 & Hl1 & Hperm).
  destruct ((Z.land len 1 =? 0)%Z && (h1 =? Z.quot (len - 2) 2)%Z) eqn:Hc.
  - apply andb_true_iff in Hc. destruct Hc as [Heven Hlast].
    apply Z.eqb_eq in Heven. apply Z.eqb_eq in Hlast.
    pose proof (last_child_in_range len h1 Heven Hlast ltac:(lia)) as Hc1.
    apply push_heap_moves in H; [|lia|rewrite set_length; lia].
    apply (Permutation_trans H).
    apply Permutation_trans with (PartialSort.set a1 h1 value); [|apply Hperm].
    apply set_swap; lia.
  - apply push_heap_moves in H; [|lia|lia].
    apply (Permutation_trans H). apply Hperm.
Qed.

Lemma pop_heap_moves fuel a len result a' :
  PartialSort.pop_heap comp dflt fuel a len result = Some a' ->
  (0 <= result < Z.of_nat (List.length a))%Z ->
  (len <= Z.of_nat (List.length a))%Z ->
  Permutation a' a.
Proof.
  intros H Hres Hlen. unfold PartialSort.pop_heap in H.
  apply adjust_heap_moves in H; [|rewrite set_length; lia|rewrite set_length; lia].
  apply (Permutation_trans H).
  apply Permutation_trans
    with (PartialSort.set a result (PartialSort.get dflt a result)).
  - apply set_swap; lia.
  - rewrite set_same by lia. reflexivity.
Qed.

Lemma make_heap_loop_moves : forall fuel a len parent a',
  PartialSort.make_heap_loop comp dflt fuel a len parent = Some a' ->
  (0 <= parent < Z.of_nat (List.length a))%Z ->
  (len <= Z.of_nat (List.length a))%Z ->
  Permutation a' a.
Proof.
  induction fuel as [|fuel IH]; intros a len parent a' H Hp Hlen; [discriminate|].
  cbn [PartialSort.make_heap_loop] in H.
  destruct (PartialSort.adjust_heap comp dflt (S (List.length a)) a parent len
              (PartialSort.get dflt a parent)) as [a1|] eqn:Ha; [|discriminate].
  apply adjust_heap_moves in Ha; [|exact Hp|exact Hlen].
  rewrite set_same in Ha by exact Hp.
  destruct (parent =? 0)%Z eqn:Hz.
  - injection H as <-. exact Ha.
  - apply Z.eqb_neq in Hz.
    apply IH in H; rewrite ?(Permutation_length Ha); try lia.
    apply (Permutation_trans H Ha).
Qed.

Lemma make_heap_moves a len a' :
  PartialSort.make_heap comp dflt a len = Some a' ->
  (len <= Z.of_nat (List.length a))%Z ->
  Permutation a' a.
Proof.
  intros H Hlen. unfold PartialSort.make_heap in H.
  destruct (len <? 2)%Z eqn:Hc; [injection H as <-; reflexivity|].
  apply Z.ltb_ge in Hc.
  apply make_heap_loop_moves in H; [exact H| |exact Hlen].
  split; [apply Z.quot_pos; lia|].
  assert (Z.quot (len - 2) 2 <= len - 2)%Z
    by (apply Z.quot_le_upper_bound; lia).
  lia.
Qed.

Lemma heap_select_loop_moves : forall n a middle i a',
  PartialSort.heap_select_loop comp dflt n a middle i = Some a' ->
  (0 <= middle <= i)%Z ->
  (i + Z.of_nat n <= Z.of_nat (List.length a))%Z ->
  Permutation a' a.
Proof.
  induction n as [|n IH]; intros a middle i a' H Hm Hi.
  - injection H as <-. reflexivity.
  - cbn [PartialSort.heap_select_loop] in H.
    destruct (comp (PartialSort.get dflt a i) (PartialSort.get dflt a 0%Z)).
    + destruct (PartialSort.pop_heap comp dflt (S (List.length a)) a middle i)
        as [a1|] eqn:Hp; [|discriminate].
      apply pop_heap_moves in Hp; [|lia|lia].
      apply IH in H; rewrite ?(Permutation_length Hp); try lia.
      apply (Permutation_trans H Hp).
    + apply IH in H; [exact H|lia|lia].
Qed.

Lemma sort_heap_moves : forall fuel a last a',
  PartialSort.sort_heap comp dflt fuel a last = Some a' ->
  (last <= Z.of_nat (List.length a))%Z ->
  Permutation a' a.
Proof.
  induction fuel as [|fuel IH]; intros a last a' H Hlast; [discriminate|].
  cbn [PartialSort.sort_heap] in H.
  destruct (last >? 1)%Z eqn:Hc.
  - apply Z.gtb_lt in Hc.
    destruct (PartialSort.pop_heap comp dflt (S (List.length a)) a (last - 1) (last - 1))
      as [a1|] eqn:Hp; [|discriminate].
    apply pop_heap_moves in Hp; [|lia|lia].
    apply IH in H; rewrite ?(Permutation_length Hp); try lia.
    apply (Permutation_trans H Hp).
  - injection H as <-. reflexivity.
Qed.

(** Whatever comp answers, a strict weak ordering or not, the partial_sort
    of libstdc++ called with its middle within the range leaves the range a
    rearrangement of what it held. *)
Lemma partial_sort_rearranges a middle a' :
  PartialSort.partial_sort comp dflt a middle = Some a' ->
  (0 <= middle <= Z.of_nat (List.length a))%Z ->
  Permutation a a'.
Proof.
  intros H Hm. unfold PartialSort.partial_sort, PartialSort.heap_select in H.
  destruct (PartialSort.make_heap comp dflt a middle) as [a1|] eqn:H1; [|discriminate].
  apply make_heap_moves in H1; [|lia].
  destruct (PartialSort.heap_select_loop comp dflt
              (List.length a - Z.to_nat middle) a1 middle middle) as [a2|] eqn:H2;
    [|discriminate].
  apply heap_select_loop_moves in H2;
    [|lia|rewrite (Permutation_length H1); lia].
  apply sort_heap_moves in H;
    [|rewrite (Permutation_length H2), (Permutation_length H1); lia].
  apply Permutation_sym.
  apply (Permutation_trans H). apply (Permutation_trans H2). exact H1.
Qed.

(** The fuel given to the loops is enough: the selection returns. *)
Lemma push_heap_returns : forall fuel a holeIndex topIndex value,
  (0 <= topIndex)%Z ->
  (0 <= holeIndex < Z.of_nat fuel)%Z ->
  exists a', PartialSort.push_heap comp dflt fuel a holeIndex topIndex value = Some a'.
Proof.
  induction fuel as [|fuel IH]; intros a hole top value Htop Hfuel; [lia|].
  cbn [PartialSort.push_heap].
  destruct ((hole >? top)%Z && comp (PartialSort.get dflt a (Z.quot (hole - 1) 2)) value)
    eqn:Hc; [|eexists; reflexivity].
  apply andb_true_iff in Hc. destruct Hc as [Hgt _]. apply Z.gtb_lt in Hgt.
  apply IH; [exact Htop|].
  split; [apply Z.quot_pos; lia|].
  assert (Z.quot (hole - 1) 2 <= hole - 1)%Z by (apply Z.quot_le_upper_bound; lia).
  lia.
Qed.

Lemma adjust_heap_down_returns : forall fuel a holeIndex secondChild len,
  (0 <= secondChild)%Z ->
  (Z.quot (len - 1) 2 - secondChild < Z.of_nat fuel)%Z ->
  (0 < fuel) ->
  exists r, PartialSort.adjust_heap_down comp dflt fuel a holeIndex secondChild len
            = Some r.
Proof.
  induction fuel as [|fuel IH]; intros a hole sc len Hsc Hfuel Hpos; [lia|].
  cbn [PartialSort.adjust_heap_down].
  destruct (sc <? Z.quot (len - 1) 2)%Z eqn:Hc; [|eexists; reflexivity].
  apply Z.ltb_lt in Hc.
  set (c0 := (2 * (sc + 1))%Z).
  set (c := if comp (PartialSort.get dflt a c0) (PartialSort.get dflt a (c0 - 1))
            then (c0 - 1)%Z else c0).
  assert (Hcr : (sc < c)%Z) by (unfold c, c0; destruct (comp _ _); lia).
  apply IH; lia.
Qed.

Lemma adjust_heap_returns fuel a holeIndex len value :
  (0 <= holeIndex < Z.of_nat (List.length a))%Z ->
  (len <= Z.of_nat (List.length a))%Z ->
  List.length a < fuel ->
  exists a', PartialSort.adjust_heap comp dflt fuel a holeIndex len value = Some a'.
Proof.
  intros Hhole Hlen Hfuel. unfold PartialSort.adjust_heap.
  assert (Hq : (Z.quot (len - 1) 2 <= Z.of_nat (List.length a))%Z).
  { destruct (Z_le_gt_dec 0 (len - 1)) as [Hp | Hn].
    - assert (Z.quot (len - 1) 2 <= len - 1)%Z by (apply Z.quot_le_upper_bound; lia).
      lia.
    - assert (Z.quot (len - 1) 2 <= 0)%Z by (apply Z.quot_le_upper_bound; lia).
      lia. }
  destruct (adjust_heap_down_returns fuel a holeIndex holeIndex len)
    as [[[a1 h1] sc1] Hd]; [lia|lia|lia|].
  rewrite Hd.
  destruct (adjust_heap_down_moves _ _ _ _ _ _ _ Hd Hhole Hlen)
    as (-> & Hh1 & Hl1 & _).
  destruct ((Z.land len 1 =? 0)%Z && (h1 =? Z.quot (len - 2) 2)%Z) eqn:Hc.
  - apply andb_true_iff in Hc. destruct Hc as [Heven Hlast].
    apply Z.eqb_eq in Heven. apply Z.eqb_eq in Hlast.
    pose proof (last_child_in_range len h1 Heven Hlast ltac:(lia)).
    apply push_heap_returns; lia.
  - apply push_heap_returns; lia.
Qed.

Lemma pop_heap_returns a len result :
  (0 <= result < Z.of_nat (List.length a))%Z ->
  (len <= Z.of_nat (List.length a))%Z ->
  exists a', PartialSort.pop_heap comp dflt (S (List.length a)) a len result = Some a'.
Proof.
  intros Hres Hlen. unfold PartialSort.pop_heap.
  apply adjust_heap_returns; rewrite set_length; lia.
Qed.

Lemma make_heap_loop_returns : forall fuel a len parent,
  (0 <= parent < Z.of_nat (List.length a))%Z ->
  (len <= Z.of_nat (List.length a))%Z ->
  (parent < Z.of_nat fuel)%Z ->
  exists a', PartialSort.make_heap_loop comp dflt fuel a len parent = Some a'.
Proof.
  induction fuel as [|fuel IH]; intros a len parent Hp Hlen Hfuel; [lia|].
  cbn [PartialSort.make_heap_loop].
  destruct (adjust_heap_returns (S (List.length a)) a parent len
              (PartialSort.get dflt a parent)) as [a1 Ha]; [exact Hp|exact Hlen|lia|].
  rewrite Ha.
  apply adjust_heap_moves in Ha; [|exact Hp|exact Hlen].
  destruct (parent =? 0)%Z eqn:Hz; [eexists; reflexivity|].
  apply Z.eqb_neq in Hz.
  apply IH; rewrite ?(Permutation_length Ha), ?set_length; lia.
Qed.

Lemma heap_select_loop_returns : forall n a middle i,
  (0 <= middle <= i)%Z ->
  (i + Z.of_nat n <= Z.of_nat (List.length a))%Z ->
  exists a', PartialSort.heap_select_loop comp dflt n a middle i = Some a'.
Proof.
  induction n as [|n IH]; intros a middle i Hm Hi; [eexists; reflexivity|].
  cbn [PartialSort.heap_select_loop].
  destruct (comp (PartialSort.get dflt a i) (PartialSort.get dflt a 0%Z)).
  - destruct (pop_heap_returns a middle i) as [a1 Hp]; [lia|lia|].
    rewrite Hp. apply pop_heap_moves in Hp; [|lia|lia].
    apply IH; rewrite ?(Permutation_length Hp); lia.
  - apply IH; lia.
Qed.

Lemma sort_heap_returns : forall fuel a last,
  (last <= Z.of_nat (List.length a))%Z ->
  (last < Z.of_nat fuel)%Z ->
  0 < fuel ->
  exists a', PartialSort.sort_heap comp dflt fuel a last = Some a'.
Proof.
  induction fuel as [|fuel IH]; intros a last Hlast Hfuel Hpos; [lia|].
  cbn [PartialSort.sort_heap].
  destruct (last >? 1)%Z eqn:Hc; [|eexists; reflexivity].
  apply Z.gtb_lt in Hc.
  destruct (pop_heap_returns a (last - 1) (last - 1)) as [a1 Hp]; [lia|lia|].
  rewrite Hp. apply pop_heap_moves in Hp; [|lia|lia].
  apply IH; rewrite ?(Permutation_length Hp); lia.
Qed.

(** With its middle within the range, the partial_sort of libstdc++
    returns, whatever comp answers. *)
Lemma partial_sort_returns a middle :
  (0 <= middle <= Z.of_nat (List.length a))%Z ->
  exists a', PartialSort.partial_sort comp dflt a middle = Some a'.
Proof.
  intros Hm. unfold PartialSort.partial_sort, PartialSort.heap_select.
  assert (H1 : exists a1, PartialSort.make_heap comp dflt a middle = Some a1).
  { unfold PartialSort.make_heap.
    destruct (middle <? 2)%Z eqn:Hc; [eexists; reflexivity|].
    apply Z.ltb_ge in Hc.
    assert (Z.quot (middle - 2) 2 <= middle - 2)%Z
      by (apply Z.quot_le_upper_bound; lia).
    assert (0 <= Z.quot (middle - 2) 2)%Z by (apply Z.quot_pos; lia).
    apply make_heap_loop_returns; lia. }
  destruct H1 as [a1 H1]. rewrite H1.
  apply make_heap_moves in H1; [|lia].
  destruct (heap_select_loop_returns (List.length a - Z.to_nat middle) a1 middle middle)
    as [a2 H2]; [lia|rewrite (Permutation_length H1); lia|].
  rewrite H2.
  apply heap_select_loop_moves in H2; [|lia|rewrite (Permutation_length H1); lia].
  apply sort_heap_returns;
    rewrite ?(Permutation_length H2), ?(Permutation_length H1); lia.
Qed.

End GnuFacts.

(** ** search *)

Lemma to_int_small n : (Z.of_nat n <= int_max)%Z -> to_int n = Z.of_nat n.
Proof.
  intros Hn. unfold to_int, int_max in *.
  rewrite Z.mod_small by lia. lia.
Qed.

Lemma clamp_min topK n :
  (Z.of_nat n <= int_max)%Z ->
  Search.clamp topK n = Z.min topK (Z.of_nat n).
Proof.
  intros Hn. unfold Search.clamp. rewrite to_int_small by exact Hn.
  destruct (Z.gtb_spec topK (Z.of_nat n)); lia.
Qed.

Lemma clamp_to_nat topK n :
  (Z.of_nat n <= int_max)%Z -> (0 <= topK)%Z ->
  (0 <= Search.clamp topK n)%Z /\
  Z.to_nat (Search.clamp topK n) = Nat.min (Z.to_nat topK) n.
Proof.
  intros Hn Hk. rewrite clamp_min by exact Hn. lia.
Qed.

Lemma scored_from_snd q : forall entries i,
  map snd (Search.scored_from i q entries) = seq i (List.length entries).
Proof.
  induction entries as [|e entries IH]; intros i; simpl; [reflexivity|].
  rewrite IH. reflexivity.
Qed.

Lemma scored_from_In q : forall entries i s idx,
  In (s, idx) (Search.scored_from i q entries) ->
  exists j, idx = i + j /\ j < List.length entries /\
            s = VectorIndex.cosineSim q (embedding (nth j entries Search.no_entry)).
Proof.
  induction entries as [|e entries IH]; intros i s idx Hin; simpl in Hin; [contradiction|].
  destruct Hin as [Heq | Hin].
  - injection Heq as <- <-. exists 0. simpl. repeat split; lia.
  - destruct (IH _ _ _ Hin) as (j & -> & Hj & ->).
    exists (S j). simpl. repeat split; lia.
Qed.

Lemma scored_of_In q entries s idx :
  In (s, idx) (Search.scored_of q entries) ->
  idx < List.length entries /\
  s = VectorIndex.cosineSim q (embedding (nth idx entries Search.no_entry)).
Proof.
  intros Hin. destruct (scored_from_In _ _ _ _ _ Hin) as (j & -> & Hj & ->).
  split; [lia | reflexivity].
Qed.

Lemma scored_of_length q entries :
  List.length (Search.scored_of q entries) = List.length entries.
Proof.
  unfold Search.scored_of.
  transitivity (List.length (map snd (Search.scored_from 0 q entries))).
  - symmetry. apply length_map.
  - rewrite scored_from_snd. apply length_seq.
Qed.

Lemma NoDup_firstn {A : Type} n : forall (l : list A), NoDup l -> NoDup (firstn n l).
Proof.
  induction n as [|n IH]; intros l Hl; [constructor|].
  destruct l as [|x l]; [constructor|]. simpl.
  inversion Hl as [|x' l' Hx Hl']; subst.
  constructor; [|apply IH; exact Hl'].
  intros Hin. apply Hx.
  rewrite <- (firstn_skipn n l). apply in_or_app. left. exact Hin.
Qed.

Lemma clamp_range topK n :
  (Z.of_nat n <= int_max)%Z -> (0 <= topK)%Z ->
  (0 <= Search.clamp topK n <= Z.of_nat n)%Z.
Proof.
  intros Hn Hk. rewrite clamp_min by exact Hn. lia.
Qed.

(** What every outcome of search looks like on a non-empty index: the count
    and the distinct entries whatever the scores, the order when the
    comparison is a strict weak ordering on them. *)
Lemma search_outcome_inv entries q topK r :
  entries <> [] ->
  (Z.of_nat (List.length entries) <= int_max)%Z ->
  (0 <= topK)%Z ->
  Search.search entries q topK r ->
  exists ranked,
    r = Ok (Search.docs_of entries ranked) /\
    List.length ranked = Nat.min (Z.to_nat topK) (List.length entries) /\
    incl ranked (Search.scored_of q entries) /\
    NoDup (map snd ranked) /\
    (PartialSort.strict_weak_on Search.comp (Search.scored_of q entries) ->
     SearchSpec.descending ranked /\
     (forall p r0, In p (Search.scored_of q entries) -> ~ In p ranked ->
                   In r0 ranked -> Float32.gt (fst p) (fst r0) = false)).
Proof.
  intros Hne HN Hk Hs.
  destruct (clamp_to_nat topK (List.length entries) HN Hk) as [_ Hclamp].
  inversion Hs as [Hnil | sorted _ _ Hret Hr]; [contradiction|]. clear Hs.
  rewrite Hclamp in *.
  set (k := Nat.min (Z.to_nat topK) (List.length entries)) in *.
  destruct Hret as (Hperm & Hpost).
  exists (firstn k sorted). split; [reflexivity|].
  assert (Hlen : List.length sorted = List.length entries).
  { rewrite <- (Permutation_length Hperm). apply scored_of_length. }
  split; [rewrite length_firstn, Hlen; unfold k; lia|].
  split.
  { intros p Hp. apply (Permutation_in p (Permutation_sym Hperm)).
    rewrite <- (firstn_skipn k sorted). apply in_or_app. left. exact Hp. }
  split.
  { rewrite <- firstn_map. apply NoDup_firstn.
    apply (Permutation_NoDup (Permutation_map snd Hperm)).
    unfold Search.scored_of. rewrite scored_from_snd. apply seq_NoDup. }
  intros Hswo. destruct (Hpost Hswo) as (_ & Hsorted & Hcross).
  split; [exact Hsorted|].
  intros p r0 Hp Hnot Hr0.
  apply (Hcross r0 p Hr0).
  apply (Permutation_in p Hperm) in Hp.
  rewrite <- (firstn_skipn k sorted) in Hp.
  apply in_app_or in Hp. destruct Hp as [Hp | Hp]; [contradiction | exact Hp].
Qed.

(** The documents that search copies out are those of the entries that the
    ranked pairs point at, each pair carrying the score of its entry. *)
Lemma docs_of_entries q entries : forall ranked,
  incl ranked (Search.scored_of q entries) ->
  Forall2 (fun p d => exists e, nth_error entries (snd p) = Some e /\
                                doc e = d /\
                                fst p = VectorIndex.cosineSim q (embedding e))
          ranked (Search.docs_of entries ranked).
Proof.
  induction ranked as [|[s idx] ranked IH]; intros Hincl; [constructor|].
  cbn [Search.docs_of map]. constructor.
  - destruct (scored_of_In q entries s idx) as [Hidx Hs].
    { apply Hincl. left. reflexivity. }
    exists (nth idx entries Search.no_entry). cbn [fst snd].
    split; [apply nth_error_nth'; exact Hidx|].
    split; [reflexivity | exact Hs].
  - apply IH. intros p Hp. apply Hincl. right. exact Hp.
Qed.

(** a.first > b.first is a strict weak ordering as long as no NaN is
    compared. *)
Ltac pos_compare :=
  repeat match goal with
         | |- context [PosDef.Pos.compare_cont Eq ?a ?b] =>
             change (PosDef.Pos.compare_cont Eq a b) with (Pos.compare a b)
         | H : context [PosDef.Pos.compare_cont Eq ?a ?b] |- _ =>
             change (PosDef.Pos.compare_cont Eq a b) with (Pos.compare a b) in H
         end.

Ltac order_cases :=
  pos_compare;
  repeat match goal with
         | |- context [Z.compare ?a ?b] => destruct (Z.compare_spec a b)
         | H : context [Z.compare ?a ?b] |- _ => destruct (Z.compare_spec a b)
         | |- context [Pos.compare ?a ?b] => destruct (Pos.compare_spec a b)
         | H : context [Pos.compare ?a ?b] |- _ => destruct (Pos.compare_spec a b)
         end.

Lemma gt_asym a b : Float32.gt a b = true -> Float32.gt b a = false.
Proof.
  unfold Float32.gt, SFltb, SFcompare.
  destruct a as [sa|sa| |sa ma ea], b as [sb|sb| |sb mb eb];
    try destruct sa; try destruct sb; try (intros; reflexivity); try discriminate;
    order_cases; simpl;
    intros; try reflexivity; try discriminate; try lia.
Qed.

Lemma gt_neg_trans a b c :
  c <> S754_nan ->
  Float32.gt a b = true -> Float32.gt a c = true \/ Float32.gt c b = true.
Proof.
  unfold Float32.gt, SFltb, SFcompare.
  destruct a as [sa|sa| |sa ma ea], b as [sb|sb| |sb mb eb], c as [sc|sc| |sc mc ec];
    try destruct sa; try destruct sb; try destruct sc;
    intros Hc; try congruence; try discriminate;
    try (intros _; left; reflexivity); try (intros _; right; reflexivity);
    order_cases; simpl;
    intros; try discriminate; try lia; try (left; reflexivity); try (right; reflexivity).
Qed.

Lemma comp_strict_weak_without_nan (l : list Search.scored_t) :
  (forall p, In p l -> fst p <> S754_nan) ->
  PartialSort.strict_weak_on Search.comp l.
Proof.
  intros Hnan. split.
  - intros x y _ _. apply gt_asym.
  - intros x y z _ _ Hz. apply gt_neg_trans. apply Hnan. exact Hz.
Qed.

(** search returns whenever the comparison is a strict weak ordering on the
    scores. *)
Lemma search_returns entries q topK :
  entries <> [] ->
  (Z.of_nat (List.length entries) <= int_max)%Z ->
  (0 <= topK)%Z ->
  PartialSort.strict_weak_on Search.comp (Search.scored_of q entries) ->
  Search.search entries q topK (Ok (SearchSpec.stable_top_k entries q topK)).
Proof.
  intros Hne HN Hk Hswo.
  apply Search.search_ranked; [exact Hne | |].
  - apply clamp_range; assumption.
  - split; [apply insertion_sort_perm|].
    intros _. apply insertion_sort_post. exact Hswo.
Qed.

Lemma docs_of_length entries ranked :
  List.length (Search.docs_of entries ranked) = List.length ranked.
Proof. apply length_map. Qed.

(** C1 (as the code has it). On a non-empty index of N <= INT_MAX entries and
    for k >= 0, every result of search(query, k) consists of exactly
    min(k, N) chunks (k > N is clamped to N), the chunks of distinct
    entries.  When no score is a NaN they are listed with non-increasing
    cosine score: no chunk scores strictly higher than one listed before it,
    and no entry left out scores strictly higher than a returned one; with a
    NaN among the scores the comparison is no strict weak ordering, and
    nothing is fixed about the order or the choice.  Nothing is fixed about
    the order of entries with equal scores either.  A result exists as soon
    as the comparison of the scores is a strict weak ordering, which
    std::partial_sort requires, and so whenever no score is a NaN. *)
Theorem C1_search_returns_top_k_descending :
  forall entries q topK,
    entries <> [] ->
    (Z.of_nat (List.length entries) <= int_max)%Z ->
    (0 <= topK)%Z ->
    (forall r, Search.search entries q topK r ->
       exists ranked docs,
         r = Ok docs /\
         List.length docs = Nat.min (Z.to_nat topK) (List.length entries) /\
         Forall2 (fun p d => exists e, nth_error entries (snd p) = Some e /\
                                       doc e = d /\
                                       fst p = VectorIndex.cosineSim q (embedding e))
                 ranked docs /\
         NoDup (map snd ranked) /\
         ((forall p, In p (Search.scored_of q entries) -> fst p <> S754_nan) ->
          SearchSpec.descending ranked /\
          (forall p r0, In p (Search.scored_of q entries) -> ~ In p ranked ->
                        In r0 ranked -> Float32.gt (fst p) (fst r0) = false))) /\
    (PartialSort.strict_weak_on Search.comp (Search.scored_of q entries) ->
     exists res, Search.search entries q topK (Ok res)) /\
    ((forall p, In p (Search.scored_of q entries) -> fst p <> S754_nan) ->
     exists res, Search.search entries q topK (Ok res)).
Proof.
  intros entries q topK Hne HN Hk. split; [|split].
  - intros r Hs.
    destruct (search_outcome_inv entries q topK r Hne HN Hk Hs)
      as (ranked & Hr & Hlen & Hincl & Hnd & Hord).
    exists ranked, (Search.docs_of entries ranked).
    split; [exact Hr|].
    split; [rewrite docs_of_length; exact Hlen|].
    split; [apply docs_of_entries; exact Hincl|].
    split; [exact Hnd|].
    intros Hnan. apply Hord. apply comp_strict_weak_without_nan. exact Hnan.
  - intros Hswo. eexists. apply search_returns; assumption.
  - intros Hnan. eexists. apply search_returns; try assumption.
    apply comp_strict_weak_without_nan. exact Hnan.
Qed.

(** ** search with libstdc++ *)

(** search run with libstdc++ returns for every non-empty store and every
    topK >= 0, with or without a NaN among the scores, and what it returns
    are the documents at the front of a rearrangement of [scored]. *)
Lemma search_gnu_returns entries q topK :
  entries <> [] ->
  (Z.of_nat (List.length entries) <= int_max)%Z ->
  (0 <= topK)%Z ->
  exists sorted,
    Permutation (Search.scored_of q entries) sorted /\
    Search.search_gnu entries q topK
    = Some (Ok (Search.docs_of entries
                  (firstn (Nat.min (Z.to_nat topK) (List.length entries)) sorted))).
Proof.
  intros Hne HN Hk.
  destruct (clamp_range topK (List.length entries) HN Hk) as [H0 HN'].
  destruct (clamp_to_nat topK (List.length entries) HN Hk) as [_ Hmin].
  destruct (partial_sort_returns Search.comp (Float32.zero, 0)
              (Search.scored_of q entries) (Search.clamp topK (List.length entries)))
    as [sorted Hs]; [rewrite scored_of_length; lia|].
  exists sorted. split.
  - apply (partial_sort_rearranges _ _ _ _ _ Hs). rewrite scored_of_length. lia.
  - unfold Search.search_gnu. destruct entries as [|e entries]; [contradiction|].
    rewrite Hs.
    destruct (Z.ltb_spec (Search.clamp topK (List.length (e :: entries))) 0); [lia|].
    rewrite Hmin. reflexivity.
Qed.

(** Outside the contract of partial_sort (a NaN among the scores), what
    libstdc++ returns is an outcome of search. *)
Lemma search_gnu_outside_contract entries q topK :
  entries <> [] ->
  (Z.of_nat (List.length entries) <= int_max)%Z ->
  (0 <= topK)%Z ->
  ~ PartialSort.strict_weak_on Search.comp (Search.scored_of q entries) ->
  exists docs,
    Search.search_gnu entries q topK = Some (Ok docs) /\
    Search.search entries q topK (Ok docs).
Proof.
  intros Hne HN Hk Hnot.
  destruct (search_gnu_returns entries q topK Hne HN Hk) as (sorted & Hperm & Hgnu).
  eexists. split; [exact Hgnu|].
  destruct (clamp_to_nat topK (List.length entries) HN Hk) as [_ Hmin].
  rewrite <- Hmin.
  apply Search.search_ranked; [exact Hne | apply clamp_range; assumption |].
  split; [exact Hperm|]. intros Hswo. contradiction.
Qed.

(** ** cosineSim: the guards *)

Lemma cosineSim_length_mismatch a b :
  List.length a <> List.length b -> VectorIndex.cosineSim a b = Float32.zero.
Proof.
  intros Hne. unfold VectorIndex.cosineSim.
  apply Nat.eqb_neq in Hne. rewrite Hne. reflexivity.
Qed.

Lemma cosineSim_empty_left b : VectorIndex.cosineSim [] b = Float32.zero.
Proof.
  unfold VectorIndex.cosineSim. simpl.
  rewrite orb_true_r. reflexivity.
Qed.

Lemma cosineSim_empty_right a : VectorIndex.cosineSim a [] = Float32.zero.
Proof.
  destruct a as [|x a]; [apply cosineSim_empty_left|].
  apply cosineSim_length_mismatch. discriminate.
Qed.

Lemma cosineSim_loop_zero_left : forall a b dot nb,
  Forall SearchSpec.is_zero a ->
  snd (fst (VectorIndex.cosineSim_loop a b dot Float64.zero nb)) = Float64.zero.
Proof.
  induction a as [|x a IH]; intros b dot nb Hz; [reflexivity|].
  destruct b as [|y b]; [reflexivity|].
  inversion Hz as [|x' a' [s Hx] Ha]; subst.
  cbn [VectorIndex.cosineSim_loop]. rewrite Hx.
  replace (Float64.add Float64.zero
             (Float64.mul (Float64.of_float (S754_zero s))
                          (Float64.of_float (S754_zero s))))
    with Float64.zero by (destruct s; reflexivity).
  apply IH. exact Ha.
Qed.

Lemma cosineSim_loop_zero_right : forall a b dot na,
  Forall SearchSpec.is_zero b ->
  snd (VectorIndex.cosineSim_loop a b dot na Float64.zero) = Float64.zero.
Proof.
  induction a as [|x a IH]; intros b dot na Hz; [reflexivity|].
  destruct b as [|y b]; [reflexivity|].
  inversion Hz as [|y' b' [s Hy] Hb]; subst.
  cbn [VectorIndex.cosineSim_loop]. rewrite Hy.
  replace (Float64.add Float64.zero
             (Float64.mul (Float64.of_float (S754_zero s))
                          (Float64.of_float (S754_zero s))))
    with Float64.zero by (destruct s; reflexivity).
  apply IH. exact Hb.
Qed.

(** A vector of zeros has norm 0.0 and scores 0.0f against anything. *)
Lemma cosineSim_zero_vector_left a b :
  Forall SearchSpec.is_zero a -> VectorIndex.cosineSim a b = Float32.zero.
Proof.
  intros Hz. unfold VectorIndex.cosineSim.
  destruct (negb (List.length a =? List.length b) || (List.length a =? 0));
    [reflexivity|].
  pose proof (cosineSim_loop_zero_left a b Float64.zero Float64.zero Hz) as Hna.
  destruct (VectorIndex.cosineSim_loop a b Float64.zero Float64.zero Float64.zero)
    as [[dot na] nb].
  cbn [fst snd] in Hna. rewrite Hna. reflexivity.
Qed.

Lemma cosineSim_zero_vector_right a b :
  Forall SearchSpec.is_zero b -> VectorIndex.cosineSim a b = Float32.zero.
Proof.
  intros Hz. unfold VectorIndex.cosineSim.
  destruct (negb (List.length a =? List.length b) || (List.length a =? 0));
    [reflexivity|].
  pose proof (cosineSim_loop_zero_right a b Float64.zero Float64.zero Hz) as Hnb.
  destruct (VectorIndex.cosineSim_loop a b Float64.zero Float64.zero Float64.zero)
    as [[dot na] nb].
  cbn [snd] in Hnb. rewrite Hnb.
  rewrite orb_true_r. reflexivity.
Qed.

Lemma docs_of_In entries ranked d :
  (forall p, In p ranked -> snd p < List.length entries) ->
  In d (Search.docs_of entries ranked) ->
  exists e, In e entries /\ doc e = d.
Proof.
  intros Hidx Hd. unfold Search.docs_of in Hd.
  apply in_map_iff in Hd. destruct Hd as (p & <- & Hp).
  exists (nth (snd p) entries Search.no_entry).
  split; [apply nth_In, Hidx, Hp | reflexivity].
Qed.

(** The documents copied out, by the positions of their entries alone. *)
Lemma docs_of_positions q entries : forall ranked,
  incl ranked (Search.scored_of q entries) ->
  Forall2 (fun i d => exists e, nth_error entries i = Some e /\ doc e = d)
          (map snd ranked) (Search.docs_of entries ranked).
Proof.
  induction ranked as [|[s idx] ranked IH]; intros Hincl; [constructor|].
  cbn [Search.docs_of map snd]. constructor.
  - destruct (scored_of_In q entries s idx) as [Hidx _].
    { apply Hincl. left. reflexivity. }
    exists (nth idx entries Search.no_entry).
    split; [apply nth_error_nth'; exact Hidx | reflexivity].
  - apply IH. intros p Hp. apply Hincl. right. exact Hp.
Qed.

(** A topK below zero leaves the middle of partial_sort in front of the
    range: the call is outside its contract, and search has no outcome. *)
Lemma search_negative_topK entries q topK r :
  entries <> [] ->
  (topK < 0)%Z ->
  ~ Search.search entries q topK r.
Proof.
  intros Hne Hk Hs.
  inversion Hs as [Hnil | sorted _ Hrange _ Hr]; [contradiction|].
  revert Hrange. unfold Search.clamp.
  destruct (Z.gtb_spec topK (to_int (List.length entries))); lia.
Qed.

(** One entry more than INT_MAX, and static_cast<int>(scored.size()) is
    INT_MIN: the clamp makes every topK >= 0 negative, and search has no
    outcome either. *)
Lemma search_beyond_int_max entries q topK r :
  Z.of_nat (List.length entries) = (int_max + 1)%Z ->
  (0 <= topK)%Z ->
  ~ Search.search entries q topK r.
Proof.
  intros HN Hk Hs.
  inversion Hs as [Hnil | sorted _ Hrange _ Hr].
  - subst entries. discriminate HN.
  - revert Hrange. unfold Search.clamp, to_int. rewrite HN.
    change ((int_max + 1 + 2 ^ 31) mod 2 ^ 32 - 2 ^ 31)%Z with (- 2 ^ 31)%Z.
    destruct (Z.gtb_spec topK (- 2 ^ 31)); lia.
Qed.

(** n copies of one chunk with one non-empty embedding build into a store of
    n entries. *)
Lemma build_repeat d v n :
  0 < n -> v <> [] ->
  VectorIndex.build (repeat d n) (repeat v n) = Ok (repeat (mkIndexEntry d v) n).
Proof.
  intros Hn Hv.
  assert (Hlen : (List.length v =? 0) = false).
  { apply Nat.eqb_neq. destruct v; [contradiction | discriminate]. }
  assert (Hdim : VectorIndex.refDim_of (repeat v n) = List.length v).
  { destruct n as [|n]; [lia|]. cbn [repeat VectorIndex.refDim_of].
    rewrite Hlen. reflexivity. }
  assert (Hloop : forall m, VectorIndex.build_loop (List.length v) (repeat d m) (repeat v m)
                            = repeat (mkIndexEntry d v) m).
  { induction m as [|m IH]; [reflexivity|].
    cbn [repeat VectorIndex.build_loop].
    rewrite Hlen, Nat.eqb_refl, IH. reflexivity. }
  unfold VectorIndex.build.
  rewrite !repeat_length, Nat.eqb_refl, Hdim, Hlen, Hloop, repeat_length.
  assert (Hn0 : (n =? 0) = false) by (apply Nat.eqb_neq; lia).
  rewrite Hn0. reflexivity.
Qed.

(** C10 (as the code has it). On a store produced by build, with
    N <= INT_MAX entries, and for k >= 0, a query whose length differs from
    the dimension of the store (the empty query included) gives every entry
    the score 0.0f exactly, and search does not fail: it has a result, and
    each of its results consists of exactly min(k, N) chunks, the chunks of
    min(k, N) distinct stored entries. *)
Theorem C10_search_with_mismatched_query :
  forall docs embeddings entries q topK,
    VectorIndex.build docs embeddings = Ok entries ->
    List.length q <> VectorIndex.refDim_of embeddings ->
    (Z.of_nat (List.length entries) <= int_max)%Z ->
    (0 <= topK)%Z ->
    (forall e, In e entries ->
               VectorIndex.cosineSim q (embedding e) = Float32.zero) /\
    (exists res, Search.search entries q topK (Ok res)) /\
    (forall r, Search.search entries q topK r ->
       exists positions res,
         r = Ok res /\
         List.length res = Nat.min (Z.to_nat topK) (List.length entries) /\
         NoDup positions /\
         Forall2 (fun i d => exists e, nth_error entries i = Some e /\ doc e = d)
                 positions res).
Proof.
  intros docs embeddings entries q topK Hbuild Hq HN Hk.
  destruct (build_ok_inv _ _ _ Hbuild) as (_ & Hne & _ & Hdim).
  assert (Hzero : forall e, In e entries ->
                            VectorIndex.cosineSim q (embedding e) = Float32.zero).
  { intros e He. apply cosineSim_length_mismatch.
    rewrite Forall_forall in Hdim. rewrite (Hdim e He). exact Hq. }
  assert (Hscore : forall p, In p (Search.scored_of q entries) ->
                             fst p = Float32.zero).
  { intros [s idx] Hp. destruct (scored_of_In _ _ _ _ Hp) as [Hidx ->].
    apply Hzero. apply nth_In. exact Hidx. }
  split; [exact Hzero|]. split.
  - eexists. apply search_returns; try assumption.
    split.
    + intros x y Hx Hy _. unfold Search.comp.
      rewrite (Hscore x Hx), (Hscore y Hy). reflexivity.
    + intros x y z Hx Hy _ Hxy. unfold Search.comp in Hxy.
      rewrite (Hscore x Hx), (Hscore y Hy) in Hxy. discriminate.
  - intros r Hs.
    destruct (search_outcome_inv entries q topK r Hne HN Hk Hs)
      as (ranked & -> & Hlen & Hincl & Hnd & _).
    exists (map snd ranked), (Search.docs_of entries ranked).
    split; [reflexivity|]. split; [rewrite docs_of_length; exact Hlen|].
    split; [exact Hnd|].
    apply (docs_of_positions q). exact Hincl.
Qed.

(** ** loadDocuments: chunking *)

Lemma append_nil_r (s : string) : (s ++ "")%string = s.
Proof. induction s as [|c s IH]; simpl; [reflexivity | rewrite IH; reflexivity]. Qed.

Lemma append_assoc (a b c : string) : ((a ++ b) ++ c = a ++ (b ++ c))%string.
Proof. induction a as [|x a IH]; simpl; [reflexivity | rewrite IH; reflexivity]. Qed.

Lemma substring_drop pos : forall len s,
  String.substring pos len s = String.substring 0 len (ChunkSpec.drop pos s).
Proof.
  induction pos as [|pos IH]; intros len s; [reflexivity|].
  destruct s as [|c s]; simpl.
  - destruct len; reflexivity.
  - apply IH.
Qed.

Lemma substring_whole : forall s, String.substring 0 (String.length s) s = s.
Proof. induction s as [|c s IH]; simpl; [reflexivity | rewrite IH; reflexivity]. Qed.

Lemma drop_length pos : forall s,
  String.length (ChunkSpec.drop pos s) = String.length s - pos.
Proof.
  induction pos as [|pos IH]; intros s; simpl; [lia|].
  destruct s as [|c s]; simpl; [reflexivity | apply IH].
Qed.

Lemma drop_add a : forall b s,
  ChunkSpec.drop (a + b) s = ChunkSpec.drop b (ChunkSpec.drop a s).
Proof.
  induction a as [|a IH]; intros b s; [reflexivity|].
  destruct s as [|c s]; simpl; [destruct b; reflexivity | apply IH].
Qed.

Lemma index_drop pos : forall s,
  pos <= String.length s ->
  String.index pos Chunker.separator s
  = option_map (Nat.add pos) (String.index 0 Chunker.separator (ChunkSpec.drop pos s)).
Proof.
  induction pos as [|pos IH]; intros s Hle.
  - simpl. destruct (String.index 0 Chunker.separator s); reflexivity.
  - destruct s as [|c s]; [simpl in Hle; lia|].
    simpl in Hle. cbn [String.index ChunkSpec.drop].
    rewrite IH by lia.
    destruct (String.index 0 Chunker.separator (ChunkSpec.drop pos s)); reflexivity.
Qed.

Lemma prefix_separator_inv c s :
  String.prefix Chunker.separator (String c s) = true ->
  c = Chunker.newline /\ exists s', s = String Chunker.newline s'.
Proof.
  intros H. apply String.prefix_correct in H.
  change (String.length Chunker.separator) with 2 in H.
  unfold Chunker.separator in H.
  destruct s as [|c' s']; cbn [String.substring] in H; [discriminate|].
  destruct s'; cbn [String.substring] in H; injection H as -> ->;
    (split; [reflexivity | eexists; reflexivity]).
Qed.

(** One step of the splitting, told by where the separator first occurs. *)
Lemma split_acc_index : forall s cur,
  match String.index 0 Chunker.separator s with
  | None => Chunker.split_acc cur s = [(cur ++ s)%string]
  | Some n =>
      n + 2 <= String.length s /\
      Chunker.split_acc cur s
      = (cur ++ String.substring 0 n s)%string
          :: Chunker.split_acc EmptyString (ChunkSpec.drop (n + 2) s)
  end.
Proof.
  induction s as [|c s IH]; intros cur.
  - cbn [String.index Chunker.separator Chunker.split_acc].
    rewrite append_nil_r. reflexivity.
  - cbn [String.index Chunker.split_acc].
    destruct (String.prefix Chunker.separator (String c s)) eqn:Ep.
    + destruct (prefix_separator_inv c s Ep) as [-> [s' ->]].
      cbn [String.substring String.length ChunkSpec.drop Nat.add].
      rewrite append_nil_r. split; [lia | reflexivity].
    + specialize (IH (cur ++ String c EmptyString)%string).
      destruct (String.index 0 Chunker.separator s) as [n|].
      * destruct IH as [Hlen IH]. split; [cbn [String.length]; lia|].
        rewrite IH, append_assoc. reflexivity.
      * rewrite IH, append_assoc. reflexivity.
Qed.

Lemma split_acc_empty cur : Chunker.split_acc cur EmptyString = [cur].
Proof. reflexivity. Qed.

(** The while loop yields the non-empty pieces of what lies from pos on, and
    fuel beyond the number of characters left is never used up. *)
Lemma chunk_loop_split path_string content : forall fuel pos st,
  pos <= String.length content ->
  String.length content - pos < fuel ->
  Chunker.chunk_loop fuel path_string content pos st
  = Some (if pos <? String.length content
          then ChunkSpec.push_all path_string
                 (Chunker.split (ChunkSpec.drop pos content)) st
          else st).
Proof.
  induction fuel as [|fuel IH]; intros pos st Hpos Hfuel; [lia|].
  cbn [Chunker.chunk_loop].
  destruct (pos <? String.length content) eqn:Elt; [|reflexivity].
  apply Nat.ltb_lt in Elt.
  rewrite index_drop by exact Hpos.
  rewrite !(substring_drop pos). unfold Chunker.split.
  pose proof (split_acc_index (ChunkSpec.drop pos content) EmptyString) as Hs.
  pose proof (drop_length pos content) as Hdl.
  destruct (String.index 0 Chunker.separator (ChunkSpec.drop pos content)) as [n|];
    cbn [option_map].
  - destruct Hs as [Hn Hs]. rewrite Hs. cbn [append].
    replace (pos + n - pos) with n by lia.
    rewrite ?(substring_drop pos n content).
    rewrite IH by lia.
    replace (pos + n + 2) with (pos + (n + 2)) by lia.
    rewrite drop_add.
    unfold ChunkSpec.push_all. cbn [filter]. unfold Chunker.nonempty at 2.
    destruct (pos + (n + 2) <? String.length content) eqn:Elt2.
    + destruct (negb (String.length (String.substring 0 n (ChunkSpec.drop pos content)) =? 0));
        reflexivity.
    + apply Nat.ltb_ge in Elt2.
      assert (Hend : ChunkSpec.drop (n + 2) (ChunkSpec.drop pos content) = EmptyString).
      { pose proof (drop_length (n + 2) (ChunkSpec.drop pos content)) as Hl.
        destruct (ChunkSpec.drop (n + 2) (ChunkSpec.drop pos content));
          [reflexivity | simpl in Hl; lia]. }
      rewrite Hend. cbn [Chunker.split_acc filter Chunker.nonempty String.length
                           Nat.eqb negb fold_left].
      destruct (negb (String.length (String.substring 0 n (ChunkSpec.drop pos content)) =? 0));
        reflexivity.
  - rewrite Hs. cbn [append].
    rewrite ?(substring_drop pos _ content).
    rewrite <- Hdl, substring_whole.
    unfold ChunkSpec.push_all. cbn [filter]. unfold Chunker.nonempty.
    destruct (negb (String.length (ChunkSpec.drop pos content) =? 0)); reflexivity.
Qed.

Lemma number_from_app : forall a b c,
  ChunkSpec.number_from c (a ++ b)
  = ChunkSpec.number_from c a
      ++ ChunkSpec.number_from (c + Z.of_nat (List.length a)) b.
Proof.
  induction a as [|[p t] a IH]; intros b c.
  - simpl. rewrite Z.add_0_r. reflexivity.
  - cbn [app ChunkSpec.number_from List.length]. rewrite IH.
    replace (c + 1 + Z.of_nat (List.length a))%Z
      with (c + Z.of_nat (S (List.length a)))%Z by lia.
    reflexivity.
Qed.

Lemma push_all_number path_string : forall pieces docs c,
  ChunkSpec.push_all path_string pieces (docs, c)
  = (docs ++ ChunkSpec.number_from c
               (map (pair path_string) (filter Chunker.nonempty pieces)),
     (c + Z.of_nat (List.length (filter Chunker.nonempty pieces)))%Z).
Proof.
  unfold ChunkSpec.push_all. intros pieces.
  induction (filter Chunker.nonempty pieces) as [|t l IH]; intros docs c.
  - simpl. rewrite app_nil_r, Z.add_0_r. reflexivity.
  - cbn [fold_left map ChunkSpec.number_from List.length Chunker.push].
    rewrite IH, <- app_assoc. cbn [app].
    replace (c + 1 + Z.of_nat (List.length l))%Z
      with (c + Z.of_nat (S (List.length l)))%Z by lia.
    reflexivity.
Qed.

Lemma files_loop_corpus : forall entries docs c,
  Forall ChunkSpec.readable entries ->
  Chunker.files_loop entries (docs, c)
  = Some (Ok (docs ++ ChunkSpec.number_from c (ChunkSpec.corpus_chunks entries),
              (c + Z.of_nat (List.length (ChunkSpec.corpus_chunks entries)))%Z)).
Proof.
  induction entries as [|e entries IH]; intros docs c Hread.
  - simpl. rewrite app_nil_r, Z.add_0_r. reflexivity.
  - inversion Hread as [|e' l He Hrest]; subst.
    cbn [Chunker.files_loop ChunkSpec.corpus_chunks flat_map].
    fold (ChunkSpec.corpus_chunks entries).
    unfold ChunkSpec.file_chunks, ChunkSpec.readable, ChunkSpec.eligible in *.
    destruct (Chunker.is_regular_file e); cbn [negb andb] in *;
      [|rewrite IH by exact Hrest; reflexivity].
    destruct (String.eqb (Chunker.extension e) ".txt"); cbn [negb] in *;
      [|rewrite IH by exact Hrest; reflexivity].
    destruct (Chunker.file e) as [content|]; [|exfalso; apply He; reflexivity].
    destruct (String.length content =? 0) eqn:E0.
    + apply Nat.eqb_eq in E0. destruct content; [|discriminate].
      rewrite IH by exact Hrest. reflexivity.
    + apply Nat.eqb_neq in E0.
      rewrite chunk_loop_split by lia.
      assert (Hlt : (0 <? String.length content) = true) by (apply Nat.ltb_lt; lia).
      rewrite Hlt. cbn [ChunkSpec.drop].
      rewrite push_all_number, IH by exact Hrest.
      unfold Chunker.chunks_of.
      rewrite number_from_app, length_app, !length_map, <- app_assoc.
      do 3 f_equal. lia.
Qed.

Lemma split_acc_not_nil : forall s cur, Chunker.split_acc cur s <> [].
Proof.
  induction s as [|c s IH]; intros cur; cbn [Chunker.split_acc]; [discriminate|].
  destruct (String.prefix Chunker.separator (String c s)); [discriminate | apply IH].
Qed.

Lemma join_split_acc_bounded : forall n s cur,
  String.length s <= n ->
  ChunkSpec.join (Chunker.split_acc cur s) = (cur ++ s)%string.
Proof.
  induction n as [|n IH]; intros s cur Hlen.
  - destruct s; [|simpl in Hlen; lia].
    cbn [Chunker.split_acc ChunkSpec.join]. rewrite append_nil_r. reflexivity.
  - destruct s as [|c s].
    + cbn [Chunker.split_acc ChunkSpec.join]. rewrite append_nil_r. reflexivity.
    + cbn [Chunker.split_acc].
      destruct (String.prefix Chunker.separator (String c s)) eqn:Ep.
      * destruct (prefix_separator_inv c s Ep) as [-> [s' ->]].
        pose proof (split_acc_not_nil s' EmptyString) as Hne.
        assert (Hs' : ChunkSpec.join (Chunker.split_acc EmptyString s') = s').
        { apply (IH s' EmptyString). cbn [String.length] in Hlen. lia. }
        destruct (Chunker.split_acc EmptyString s') as [|x l]; [contradiction|].
        cbn [ChunkSpec.join]. cbn [ChunkSpec.join] in Hs'. rewrite Hs'.
        reflexivity.
      * rewrite IH by (cbn [String.length] in Hlen; lia).
        rewrite append_assoc. reflexivity.
Qed.

Lemma join_split s : ChunkSpec.join (Chunker.split s) = s.
Proof. apply (join_split_acc_bounded (String.length s) s EmptyString). lia. Qed.

Lemma number_from_nth : forall items c i p t,
  nth_error items i = Some (p, t) ->
  nth_error (ChunkSpec.number_from c items) i
  = Some (mkDocument ("doc-" ++ Chunker.to_string (c + Z.of_nat i)) p t).
Proof.
  induction items as [|[p0 t0] items IH]; intros c i p t Hnth.
  - destruct i; discriminate.
  - destruct i as [|i]; cbn [nth_error ChunkSpec.number_from] in *.
    + injection Hnth as -> ->. rewrite Z.add_0_r. reflexivity.
    + rewrite (IH (c + 1)%Z i p t Hnth).
      replace (c + 1 + Z.of_nat i)%Z with (c + Z.of_nat (S i))%Z by lia.
      reflexivity.
Qed.

Lemma chunks_of_In content t :
  In t (Chunker.chunks_of content) <->
  In t (Chunker.split content) /\ t <> EmptyString.
Proof.
  unfold Chunker.chunks_of. rewrite filter_In. unfold Chunker.nonempty.
  split; intros [Hin Hne]; (split; [exact Hin|]).
  - intros ->. discriminate.
  - destruct t; [contradiction | reflexivity].
Qed.

(** C7. loadDocuments, on a directory whose .txt files can all be read and
    that yields no more chunks than an int counts, returns the chunks of the
    files in discovery order, numbered doc-0, doc-1, ... across the whole
    corpus.  The chunks of a text are its non-empty pieces, where the pieces
    are the texts between occurrences of the two-character separator (put
    together with the separator they give the text back, so the piece after
    the last separator is one of them).  In particular "A\n\nB\n\nC" gives
    "A", "B", "C". *)
Theorem C7_load_documents_chunks_and_ids :
  forall dataDir entries,
    Forall ChunkSpec.readable entries ->
    (Z.of_nat (List.length (ChunkSpec.corpus_chunks entries)) <= int_max)%Z ->
    Chunker.loadDocuments dataDir (Some entries)
      = Some (Ok (ChunkSpec.number_from 0 (ChunkSpec.corpus_chunks entries))) /\
    (forall i p t,
        nth_error (ChunkSpec.corpus_chunks entries) i = Some (p, t) ->
        nth_error (ChunkSpec.number_from 0 (ChunkSpec.corpus_chunks entries)) i
        = Some (mkDocument ("doc-" ++ Chunker.to_string (Z.of_nat i)) p t)) /\
    (forall content,
        ChunkSpec.join (Chunker.split content) = content /\
        (forall t, In t (Chunker.chunks_of content) <->
                   In t (Chunker.split content) /\ t <> EmptyString)) /\
    Chunker.chunks_of
      ("A" ++ Chunker.separator ++ "B" ++ Chunker.separator ++ "C")
      = ["A"; "B"; "C"].
Proof.
  intros dataDir entries Hread _.
  split; [|split; [|split]].
  - unfold Chunker.loadDocuments.
    rewrite (files_loop_corpus entries [] 0%Z Hread). reflexivity.
  - intros i p t Hnth. exact (number_from_nth _ 0%Z i p t Hnth).
  - intros content. split; [apply join_split | apply chunks_of_In].
  - reflexivity.
Qed.

(** ** answer: the bounded context *)

Lemma string_length_append (a b : string) :
  String.length (a ++ b) = String.length a + String.length b.
Proof. induction a as [|c a IH]; simpl; [reflexivity | rewrite IH; reflexivity]. Qed.

Lemma string_length_substring n : forall s,
  n <= String.length s -> String.length (String.substring 0 n s) = n.
Proof.
  induction n as [|n IH]; intros s Hle.
  - destruct s; reflexivity.
  - destruct s as [|c s]; simpl in *; [lia|]. rewrite IH by lia. reflexivity.
Qed.

Lemma decorate_length d chunk :
  String.length (SentraEngine.decorate d chunk)
  = String.length (sourcePath d) + 3 + String.length chunk.
Proof.
  unfold SentraEngine.decorate.
  rewrite !string_length_append. simpl. lia.
Qed.

Lemma context_loop_budget_spent docs total context :
  SentraEngine.MAX_TOTAL_CHARS <= total ->
  SentraEngine.context_loop docs total context = (context, total).
Proof.
  intros Hle. destruct docs as [|d docs]; [reflexivity|].
  cbn [SentraEngine.context_loop].
  apply Nat.leb_le in Hle. rewrite Hle. reflexivity.
Qed.

Lemma global_cap_fits total chunk :
  total + String.length chunk <= SentraEngine.MAX_TOTAL_CHARS ->
  SentraEngine.global_cap total chunk = Some chunk.
Proof.
  intros Hle. unfold SentraEngine.global_cap.
  apply Nat.ltb_ge in Hle. rewrite Hle. reflexivity.
Qed.

Lemma global_cap_truncates total chunk :
  total < SentraEngine.MAX_TOTAL_CHARS ->
  SentraEngine.MAX_TOTAL_CHARS - total < String.length chunk ->
  SentraEngine.global_cap total chunk
  = Some (String.substring 0 (SentraEngine.MAX_TOTAL_CHARS - total) chunk
            ++ SentraEngine.ellipsis)%string.
Proof.
  intros Hlt Hrem. unfold SentraEngine.global_cap.
  assert (H1 : (SentraEngine.MAX_TOTAL_CHARS <? total + String.length chunk) = true)
    by (apply Nat.ltb_lt; lia).
  assert (H2 : (0 <? SentraEngine.MAX_TOTAL_CHARS - total) = true)
    by (apply Nat.ltb_lt; lia).
  assert (H3 : (SentraEngine.MAX_TOTAL_CHARS - total <? String.length chunk) = true)
    by (apply Nat.ltb_lt; lia).
  rewrite H1, H2, H3. reflexivity.
Qed.

(** The two cases of the loop of answer at the limit, with [chunk] the text
    of the current document after the per-chunk cap, without its tag, and
    remaining = MAX_TOTAL_CHARS - total_chars: when 0 < remaining < |chunk|,
    the text is cut to its first [remaining] characters, the marker and the
    tag are added to it, and no later document contributes anything; when
    total_chars has reached MAX_TOTAL_CHARS, neither this document nor a
    later one contributes anything. *)
Lemma context_loop_at_the_limit :
  forall d rest total context,
    let chunk := SentraEngine.per_chunk_cap (content d) in
    let remaining := SentraEngine.MAX_TOTAL_CHARS - total in
    (0 < remaining -> remaining < String.length chunk ->
     let cut := String.substring 0 remaining chunk in
     let piece := SentraEngine.decorate d (cut ++ SentraEngine.ellipsis) in
     String.length cut = remaining /\
     SentraEngine.context_loop (d :: rest) total context
     = (context ++ [piece], total + String.length piece)) /\
    (SentraEngine.MAX_TOTAL_CHARS <= total ->
     SentraEngine.context_loop (d :: rest) total context = (context, total)).
Proof.
  intros d rest total context chunk remaining. split.
  - intros Hpos Hlt cut piece.
    assert (Hcut : String.length cut = remaining).
    { apply string_length_substring. lia. }
    split; [exact Hcut|].
    cbn [SentraEngine.context_loop].
    assert (Hgo : (SentraEngine.MAX_TOTAL_CHARS <=? total) = false)
      by (apply Nat.leb_gt; unfold remaining in Hpos; lia).
    rewrite Hgo. fold chunk.
    rewrite global_cap_truncates by (unfold remaining in *; lia).
    fold remaining. fold cut. fold piece.
    apply context_loop_budget_spent.
    unfold piece. rewrite decorate_length, string_length_append, Hcut.
    unfold remaining in *. lia.
  - intros Hspent. apply context_loop_budget_spent. exact Hspent.
Qed.

(** C9. A document whose content is longer than MAX_CHARS_PER_CHUNK = 800
    has its text cut to exactly its first 800 characters with the marker
    "..." appended; whenever the 803 characters fit in the total budget the
    emitted piece is "[sourcePath]\n" followed by them, and a single such
    document (one of 1000 characters, say) yields exactly that piece. *)
Theorem C9_per_chunk_limit :
  forall d,
    SentraEngine.MAX_CHARS_PER_CHUNK < String.length (content d) ->
    let cut := String.substring 0 SentraEngine.MAX_CHARS_PER_CHUNK (content d) in
    let piece := SentraEngine.decorate d (cut ++ SentraEngine.ellipsis) in
    String.length cut = 800 /\
    SentraEngine.per_chunk_cap (content d) = (cut ++ SentraEngine.ellipsis)%string /\
    (forall rest total context,
        total + 803 <= SentraEngine.MAX_TOTAL_CHARS ->
        SentraEngine.context_loop (d :: rest) total context
        = SentraEngine.context_loop rest (total + String.length piece)
                                    (context ++ [piece])) /\
    SentraEngine.build_context [d] = [piece].
Proof.
  intros d Hlong cut piece.
  assert (Hcut : String.length cut = 800).
  { apply string_length_substring. unfold SentraEngine.MAX_CHARS_PER_CHUNK in *. lia. }
  assert (Hcap : SentraEngine.per_chunk_cap (content d)
                 = (cut ++ SentraEngine.ellipsis)%string).
  { unfold SentraEngine.per_chunk_cap.
    apply Nat.ltb_lt in Hlong. rewrite Hlong. reflexivity. }
  assert (Hstep : forall rest total context,
             total + 803 <= SentraEngine.MAX_TOTAL_CHARS ->
             SentraEngine.context_loop (d :: rest) total context
             = SentraEngine.context_loop rest (total + String.length piece)
                                         (context ++ [piece])).
  { intros rest total context Hfit.
    cbn [SentraEngine.context_loop].
    assert (Hgo : (SentraEngine.MAX_TOTAL_CHARS <=? total) = false)
      by (apply Nat.leb_gt; lia).
    rewrite Hgo, Hcap, global_cap_fits; [reflexivity|].
    rewrite string_length_append, Hcut. simpl. lia. }
  repeat split; try assumption.
  unfold SentraEngine.build_context.
  rewrite Hstep by (unfold SentraEngine.MAX_TOTAL_CHARS; lia).
  reflexivity.
Qed.
(** ** Rounding to binary64 *)

Section RoundingFacts.

Local Open Scope Z_scope.

Lemma digits2_pos_bounds p :
  2 ^ (Zpos (digits2_pos p) - 1) <= Zpos p < 2 ^ Zpos (digits2_pos p).
Proof.
  induction p as [p IH|p IH|]; cbn [digits2_pos].
  - rewrite Pos2Z.inj_succ.
    replace (Z.succ (Zpos (digits2_pos p)) - 1) with (Z.succ (Zpos (digits2_pos p) - 1)) by lia.
    rewrite !Z.pow_succ_r by lia. lia.
  - rewrite Pos2Z.inj_succ.
    replace (Z.succ (Zpos (digits2_pos p)) - 1) with (Z.succ (Zpos (digits2_pos p) - 1)) by lia.
    rewrite !Z.pow_succ_r by lia. lia.
  - simpl. lia.
Qed.

Lemma digits2_pos_unique p d :
  2 ^ (d - 1) <= Zpos p < 2 ^ d -> Zpos (digits2_pos p) = d.
Proof.
  intros [Hlo Hhi].
  pose proof (digits2_pos_bounds p) as [Hlo' Hhi'].
  assert (Hd : 0 < d).
  { destruct (Z_lt_le_dec 0 d) as [H|H]; [exact H|].
    destruct (Z.eq_dec d 0) as [->|Hne].
    - simpl in Hhi. lia.
    - rewrite Z.pow_neg_r in Hhi by lia. lia. }
  destruct (Z_lt_le_dec (Zpos (digits2_pos p)) d) as [H1|H1].
  - assert (2 ^ Zpos (digits2_pos p) <= 2 ^ (d - 1)) by (apply Z.pow_le_mono_r; lia). lia.
  - destruct (Z_lt_le_dec d (Zpos (digits2_pos p))) as [H2|H2]; [|lia].
    assert (2 ^ d <= 2 ^ (Zpos (digits2_pos p) - 1)) by (apply Z.pow_le_mono_r; lia). lia.
Qed.

Lemma shr_1_m mrs :
  0 <= shr_m mrs -> shr_m (shr_1 mrs) = shr_m mrs / 2.
Proof.
  destruct mrs as [m r s]. cbn [shr_m]. intros Hm.
  destruct m as [|[p|p|]|p]; cbn [shr_1 shr_m].
  - reflexivity.
  - rewrite Pos2Z.inj_xI. apply (Z.div_unique _ _ _ 1); lia.
  - rewrite Pos2Z.inj_xO. apply (Z.div_unique _ _ _ 0); lia.
  - reflexivity.
  - lia.
Qed.

Lemma pow2_xI p : 2 ^ Zpos p~1 = 2 * 2 ^ Zpos p * 2 ^ Zpos p.
Proof.
  assert (E : Zpos p~1 = Zpos p + Zpos p + 1) by lia.
  rewrite E, !Z.pow_add_r by lia. change (2 ^ 1) with 2. ring.
Qed.

Lemma pow2_xO p : 2 ^ Zpos p~0 = 2 ^ Zpos p * 2 ^ Zpos p.
Proof.
  assert (E : Zpos p~0 = Zpos p + Zpos p) by lia.
  rewrite E, Z.pow_add_r by lia. reflexivity.
Qed.

Lemma pow2_pos n : 0 <= n -> 0 < 2 ^ n.
Proof. intros Hn. apply Z.pow_pos_nonneg; lia. Qed.

Lemma iter_pos_shr_m p : forall mrs,
  0 <= shr_m mrs ->
  shr_m (SpecFloat.iter_pos shr_1 p mrs) = shr_m mrs / 2 ^ Zpos p.
Proof.
  induction p as [p IH|p IH|]; intros mrs Hm; cbn [SpecFloat.iter_pos].
  - assert (H1 : 0 <= shr_m (shr_1 mrs)).
    { rewrite shr_1_m by exact Hm. apply Z.div_pos; lia. }
    assert (H2 : 0 <= shr_m (SpecFloat.iter_pos shr_1 p (shr_1 mrs))).
    { rewrite IH by exact H1. apply Z.div_pos; [exact H1 | apply pow2_pos; lia]. }
    rewrite IH, IH, shr_1_m by assumption.
    pose proof (pow2_pos (Zpos p) ltac:(lia)) as Hp.
    rewrite !Z.div_div by lia.
    rewrite pow2_xI. f_equal. ring.
  - assert (H2 : 0 <= shr_m (SpecFloat.iter_pos shr_1 p mrs)).
    { rewrite IH by exact Hm. apply Z.div_pos; [exact Hm | apply pow2_pos; lia]. }
    rewrite IH, IH by assumption.
    pose proof (pow2_pos (Zpos p) ltac:(lia)) as Hp.
    rewrite !Z.div_div by lia.
    rewrite pow2_xO. f_equal.
  - rewrite shr_1_m by exact Hm. reflexivity.
Qed.

Lemma round_nearest_even_range m l :
  m <= round_nearest_even m l <= m + 1.
Proof.
  destruct l as [|[| |]]; cbn [round_nearest_even]; try lia.
  destruct (Z.even m); lia.
Qed.

Lemma shr_record_of_loc_m m l : shr_m (shr_record_of_loc m l) = m.
Proof. destruct l as [|[| |]]; reflexivity. Qed.

Lemma fexp53_normal e : -1021 <= e -> fexp 53 1024 e = e - 53.
Proof. intros He. unfold fexp, emin. lia. Qed.

Lemma div_pow2_bounds m D n :
  0 <= n -> n < D ->
  2 ^ (D - 1) <= m < 2 ^ D ->
  2 ^ (D - n - 1) <= m / 2 ^ n < 2 ^ (D - n).
Proof.
  intros Hn HD [Hlo Hhi].
  pose proof (pow2_pos n Hn) as Hp.
  split.
  - apply Z.div_le_lower_bound; [exact Hp|].
    rewrite <- Z.pow_add_r by lia.
    replace (n + (D - n - 1)) with (D - 1) by lia. exact Hlo.
  - apply Z.div_lt_upper_bound; [exact Hp|].
    rewrite <- Z.pow_add_r by lia.
    replace (n + (D - n)) with D by lia. exact Hhi.
Qed.

Lemma shr_m_shift mrs e n :
  0 <= shr_m mrs -> 0 <= n ->
  shr_m (fst (shr mrs e n)) = shr_m mrs / 2 ^ n /\ snd (shr mrs e n) = e + n.
Proof.
  intros Hm Hn. unfold shr. destruct n as [|p|p]; cbn [fst snd].
  - rewrite Z.div_1_r. split; [reflexivity | lia].
  - split; [apply iter_pos_shr_m; exact Hm | reflexivity].
  - lia.
Qed.

Lemma shr_carry e1 :
  shr (shr_record_of_loc (Zpos (Z.to_pos (2 ^ 53))) loc_Exact) e1 1
  = (Build_shr_record (Zpos (Z.to_pos (2 ^ 52))) false false, e1 + 1).
Proof. reflexivity. Qed.

(** binary_round_aux in binary64 on a mantissa of at least 53 digits, away
    from underflow and overflow: the result is finite with a full mantissa,
    and it is the truncated mantissa or the one above it. *)
Lemma binary_round_aux_53 s px ex l :
  let D := Zpos (digits2_pos px) in
  53 <= D -> -1021 <= D + ex <= 1022 ->
  exists m' k,
    binary_round_aux 53 1024 s (Zpos px) ex l
    = S754_finite s m' (ex + (D - 53) + k) /\
    Zpos (digits2_pos m') = 53 /\ (k = 0 \/ k = 1) /\
    Zpos px / 2 ^ (D - 53) <= Zpos m' * 2 ^ k <= Zpos px / 2 ^ (D - 53) + 1.
Proof.
  intros D HD Hrange.
  pose proof (digits2_pos_bounds px) as Hpx. fold D in Hpx.
  set (n := D - 53).
  assert (Hn : 0 <= n) by (unfold n; lia).
  unfold binary_round_aux.
  unfold shr_fexp at 1. cbn [Zdigits2]. fold D.
  rewrite fexp53_normal by lia.
  replace (D + ex - 53 - ex) with n by (unfold n; lia).
  destruct (shr_m_shift (shr_record_of_loc (Zpos px) l) ex n) as [Hm1 He1];
    [rewrite shr_record_of_loc_m; lia | exact Hn |].
  destruct (shr (shr_record_of_loc (Zpos px) l) ex n) as [mrs1 e1].
  cbn [fst snd] in Hm1, He1. rewrite shr_record_of_loc_m in Hm1.
  set (m1 := Zpos px / 2 ^ n) in *.
  assert (Hm1r : 2 ^ 52 <= m1 < 2 ^ 53).
  { pose proof (div_pow2_bounds (Zpos px) D n Hn ltac:(unfold n; lia) Hpx) as H.
    replace (D - n - 1) with 52 in H by (unfold n; lia).
    replace (D - n) with 53 in H by (unfold n; lia). exact H. }
  pose proof (round_nearest_even_range (shr_m mrs1) (loc_of_shr_record mrs1)) as Hr.
  remember (round_nearest_even (shr_m mrs1) (loc_of_shr_record mrs1)) as m2 eqn:Em2.
  rewrite Hm1 in Hr.
  assert (Hm2 : 2 ^ 52 <= m2 <= 2 ^ 53) by lia.
  clear Em2.
  destruct m2 as [|p2|p2]; [simpl in Hm2; lia | | simpl in Hm2; lia].
  destruct (Z_lt_le_dec (Zpos p2) (2 ^ 53)) as [Hlt|Hge].
  - (* the rounded mantissa still has 53 digits *)
    assert (Hd2 : Zpos (digits2_pos p2) = 53) by (apply digits2_pos_unique; lia).
    unfold shr_fexp. cbn [Zdigits2]. rewrite Hd2.
    rewrite fexp53_normal by lia.
    replace (53 + e1 - 53 - e1) with 0 by lia.
    cbn [shr shr_record_of_loc shr_m].
    assert (Hle : (e1 <=? 1024 - 53) = true) by (apply Z.leb_le; lia).
    rewrite Hle.
    exists p2, 0. rewrite He1, Z.add_0_r.
    split; [reflexivity|]. split; [exact Hd2|]. split; [left; reflexivity|].
    change (2 ^ 0) with 1. lia.
  - (* rounding up reached 2^53 *)
    assert (Hp2 : Zpos p2 = 2 ^ 53) by lia.
    assert (Ep2 : p2 = Z.to_pos (2 ^ 53)) by (rewrite <- Hp2; reflexivity).
    assert (Hfin : Zpos px / 2 ^ (D - 53) <= Zpos (Z.to_pos (2 ^ 52)) * 2 ^ 1
                   <= Zpos px / 2 ^ (D - 53) + 1).
    { change (Zpos (Z.to_pos (2 ^ 52)) * 2 ^ 1) with (2 ^ 53). fold n. fold m1. lia. }
    rewrite Ep2.
    unfold shr_fexp. cbn [Zdigits2].
    change (Zpos (digits2_pos (Z.to_pos (2 ^ 53)))) with 54.
    rewrite fexp53_normal by lia.
    replace (54 + e1 - 53 - e1) with 1 by lia.
    rewrite shr_carry. cbn [shr_m].
    assert (Hle : (e1 + 1 <=? 1024 - 53) = true) by (apply Z.leb_le; lia).
    rewrite Hle.
    exists (Z.to_pos (2 ^ 52)), 1. rewrite He1.
    split; [reflexivity|]. split; [reflexivity|]. split; [right; reflexivity|].
    exact Hfin.
Qed.

Lemma shr_1_r mrs : 0 <= shr_m mrs -> shr_r (shr_1 mrs) = Z.odd (shr_m mrs).
Proof.
  destruct mrs as [m r s]. cbn [shr_m]. intros Hm.
  destruct m as [|[p|p|]|p]; try reflexivity. lia.
Qed.

Lemma iter_pos_shr_r p : forall mrs,
  0 <= shr_m mrs ->
  shr_r (SpecFloat.iter_pos shr_1 p mrs) = Z.testbit (shr_m mrs) (Zpos p - 1).
Proof.
  induction p as [p IH|p IH|]; intros mrs Hm; cbn [SpecFloat.iter_pos].
  - assert (H1 : 0 <= shr_m (shr_1 mrs)).
    { rewrite shr_1_m by exact Hm. apply Z.div_pos; lia. }
    assert (H2 : 0 <= shr_m (SpecFloat.iter_pos shr_1 p (shr_1 mrs))).
    { rewrite iter_pos_shr_m by exact H1.
      apply Z.div_pos; [exact H1 | apply pow2_pos; lia]. }
    rewrite IH by exact H2.
    rewrite iter_pos_shr_m, shr_1_m by assumption.
    change 2 with (2 ^ 1) at 1.
    rewrite !Z.div_pow2_bits by lia.
    f_equal. lia.
  - assert (H2 : 0 <= shr_m (SpecFloat.iter_pos shr_1 p mrs)).
    { rewrite iter_pos_shr_m by exact Hm.
      apply Z.div_pos; [exact Hm | apply pow2_pos; lia]. }
    rewrite IH by exact H2.
    rewrite iter_pos_shr_m by assumption.
    rewrite !Z.div_pow2_bits by lia.
    f_equal. lia.
  - rewrite shr_1_r by exact Hm. symmetry. apply Z.bit0_odd.
Qed.

Lemma shr_r_shift mrs e n :
  0 <= shr_m mrs -> 0 < n ->
  shr_r (fst (shr mrs e n)) = Z.testbit (shr_m mrs) (n - 1).
Proof.
  intros Hm Hn. unfold shr. destruct n as [|p|p]; cbn [fst]; try lia.
  apply iter_pos_shr_r. exact Hm.
Qed.

Lemma round_nearest_even_down mrs :
  shr_r mrs = false ->
  round_nearest_even (shr_m mrs) (loc_of_shr_record mrs) = shr_m mrs.
Proof.
  destruct mrs as [m r s]. cbn [shr_r shr_m]. intros ->.
  destruct s; reflexivity.
Qed.

(** binary_round_aux in binary64 when the first bit cut off is 0: the
    mantissa is truncated. *)
Lemma binary_round_aux_53_down s px ex :
  let D := Zpos (digits2_pos px) in
  53 < D -> -1021 <= D + ex <= 1022 ->
  Z.testbit (Zpos px) (D - 54) = false ->
  binary_round_aux 53 1024 s (Zpos px) ex loc_Exact
  = S754_finite s (Z.to_pos (Zpos px / 2 ^ (D - 53))) (ex + (D - 53)).
Proof.
  intros D HD Hrange Hbit.
  pose proof (digits2_pos_bounds px) as Hpx. fold D in Hpx.
  set (n := D - 53).
  assert (Hn : 0 < n) by (unfold n; lia).
  unfold binary_round_aux.
  unfold shr_fexp at 1. cbn [Zdigits2]. fold D.
  rewrite fexp53_normal by lia.
  replace (D + ex - 53 - ex) with n by (unfold n; lia).
  destruct (shr_m_shift (shr_record_of_loc (Zpos px) loc_Exact) ex n) as [Hm1 He1];
    [rewrite shr_record_of_loc_m; lia | lia |].
  pose proof (shr_r_shift (shr_record_of_loc (Zpos px) loc_Exact) ex n
                ltac:(rewrite shr_record_of_loc_m; lia) Hn) as Hr1.
  destruct (shr (shr_record_of_loc (Zpos px) loc_Exact) ex n) as [mrs1 e1].
  cbn [fst snd] in Hm1, He1, Hr1. rewrite shr_record_of_loc_m in Hm1, Hr1.
  replace (n - 1) with (D - 54) in Hr1 by (unfold n; lia).
  rewrite Hbit in Hr1.
  rewrite (round_nearest_even_down mrs1 Hr1), Hm1.
  set (m1 := Zpos px / 2 ^ n) in *.
  assert (Hm1r : 2 ^ 52 <= m1 < 2 ^ 53).
  { pose proof (div_pow2_bounds (Zpos px) D n ltac:(lia) ltac:(unfold n; lia) Hpx) as H.
    replace (D - n - 1) with 52 in H by (unfold n; lia).
    replace (D - n) with 53 in H by (unfold n; lia). exact H. }
  destruct m1 as [|p2|p2] eqn:Em1; [simpl in Hm1r; lia | | simpl in Hm1r; lia].
  assert (Hd2 : Zpos (digits2_pos p2) = 53) by (apply digits2_pos_unique; lia).
  unfold shr_fexp. cbn [Zdigits2]. rewrite Hd2.
  rewrite fexp53_normal by lia.
  replace (53 + e1 - 53 - e1) with 0 by lia.
  cbn [shr shr_record_of_loc shr_m].
  assert (Hle : (e1 <=? 1024 - 53) = true) by (apply Z.leb_le; lia).
  rewrite Hle. rewrite He1. reflexivity.
Qed.

(** *** Values as real numbers *)

Local Open Scope R_scope.

Lemma pow2R_pos e : 0 < powerRZ 2 e.
Proof. apply powerRZ_lt. lra. Qed.

Lemma pow2R_add a b : powerRZ 2 (a + b) = powerRZ 2 a * powerRZ 2 b.
Proof. apply powerRZ_add. lra. Qed.

Lemma pow2R_IZR n : (0 <= n)%Z -> IZR (2 ^ n) = powerRZ 2 n.
Proof.
  intros Hn. rewrite <- (Z2Nat.id n Hn) at 1 2.
  rewrite <- pow_IZR, <- pow_powerRZ. reflexivity.
Qed.

Lemma pow2R_ge_1 n : (0 <= n)%Z -> 1 <= powerRZ 2 n.
Proof.
  intros Hn. rewrite <- pow2R_IZR by exact Hn.
  apply IZR_le. pose proof (pow2_pos n Hn). lia.
Qed.

Lemma pow2R_le a b : (a <= b)%Z -> powerRZ 2 a <= powerRZ 2 b.
Proof.
  intros Hab. replace b with (a + (b - a))%Z by lia.
  rewrite pow2R_add.
  pose proof (pow2R_pos a). pose proof (pow2R_ge_1 (b - a) ltac:(lia)). nra.
Qed.

Lemma pow2R_lt a b : (a < b)%Z -> powerRZ 2 a < powerRZ 2 b.
Proof.
  intros Hab. replace b with (a + 1 + (b - a - 1))%Z by lia.
  rewrite !pow2R_add. change (powerRZ 2 1) with (2 * 1).
  pose proof (pow2R_pos a). pose proof (pow2R_ge_1 (b - a - 1) ltac:(lia)). nra.
Qed.

Lemma pow2R_lt_inv a b : powerRZ 2 a < powerRZ 2 b -> (a < b)%Z.
Proof.
  intros H. destruct (Z_lt_le_dec a b) as [Hlt|Hge]; [exact Hlt|].
  pose proof (pow2R_le b a Hge). lra.
Qed.

Lemma F2R_shift m e d :
  (0 <= d)%Z -> FloatSpec.F2R (m * 2 ^ d) (e - d) = FloatSpec.F2R m e.
Proof.
  intros Hd. unfold FloatSpec.F2R.
  rewrite mult_IZR, pow2R_IZR by exact Hd.
  replace e with ((e - d) + d)%Z at 2 by lia.
  rewrite pow2R_add. ring.
Qed.

(** A positive mantissa of D digits at exponent e lies in [2^(D+e-1), 2^(D+e)). *)
Lemma F2R_digits p e :
  let D := Zpos (digits2_pos p) in
  powerRZ 2 (D + e - 1) <= FloatSpec.F2R (Zpos p) e < powerRZ 2 (D + e).
Proof.
  intros D. pose proof (digits2_pos_bounds p) as [Hlo Hhi]. fold D in Hlo, Hhi.
  assert (HD : (1 <= D)%Z) by (unfold D; lia).
  unfold FloatSpec.F2R.
  replace (D + e - 1)%Z with ((D - 1) + e)%Z by lia.
  rewrite !pow2R_add, <- (pow2R_IZR (D - 1)), <- (pow2R_IZR D) by lia.
  pose proof (pow2R_pos e).
  apply IZR_le in Hlo. apply IZR_lt in Hhi. split; nra.
Qed.

Lemma F2R_pos p e : 0 < FloatSpec.F2R (Zpos p) e.
Proof.
  unfold FloatSpec.F2R. pose proof (pow2R_pos e).
  assert (0 < IZR (Zpos p)) by (apply IZR_lt; lia). nra.
Qed.

(** The exponent range of a positive mantissa, from bounds on its value. *)
Lemma F2R_range p e a b :
  powerRZ 2 a <= FloatSpec.F2R (Zpos p) e <= powerRZ 2 b ->
  (a + 1 <= Zpos (digits2_pos p) + e <= b + 1)%Z.
Proof.
  intros [Hlo Hhi]. pose proof (F2R_digits p e) as [Hd1 Hd2]. cbv zeta in *.
  split.
  - assert (H : (a < Zpos (digits2_pos p) + e)%Z) by (apply pow2R_lt_inv; lra). lia.
  - assert (H : (Zpos (digits2_pos p) + e - 1 < b + 1)%Z).
    { apply pow2R_lt_inv. pose proof (pow2R_lt b (b + 1) ltac:(lia)). lra. }
    lia.
Qed.

Lemma Rabs_le_between x a : Rabs x <= a -> - a <= x <= a.
Proof. unfold Rabs. destruct (Rcase_abs x); lra. Qed.

Lemma u_pos : 0 < FloatSpec.u.
Proof. apply pow2R_pos. Qed.

Lemma u_small : FloatSpec.u <= / 1024.
Proof.
  unfold FloatSpec.u.
  apply Rle_trans with (powerRZ 2 (-10)); [apply pow2R_le; lia|].
  simpl. lra.
Qed.

(** binary_round_aux in binary64, in terms of values: the result is within
    one unit roundoff of the number rounded. *)
Lemma binary_round_aux_53_R s px ex l :
  (53 <= Zpos (digits2_pos px))%Z ->
  powerRZ 2 (-1022) <= FloatSpec.F2R (Zpos px) ex <= powerRZ 2 1021 ->
  exists m' e',
    binary_round_aux 53 1024 s (Zpos px) ex l = S754_finite s m' e' /\
    Zpos (digits2_pos m') = 53%Z /\
    Rabs (FloatSpec.F2R (Zpos m') e' - FloatSpec.F2R (Zpos px) ex)
    <= FloatSpec.u * FloatSpec.F2R (Zpos px) ex.
Proof.
  intros HD Hrange.
  pose proof (F2R_range px ex _ _ Hrange) as Hmu.
  destruct (binary_round_aux_53 s px ex l HD ltac:(lia))
    as (m' & k & Heq & Hd' & Hk & Hq).
  exists m', (ex + (Zpos (digits2_pos px) - 53) + k)%Z.
  split; [exact Heq|]. split; [exact Hd'|].
  set (n := (Zpos (digits2_pos px) - 53)%Z) in *.
  assert (Hn : (0 <= n)%Z) by (unfold n; lia).
  pose proof (pow2_pos n Hn) as Hpn.
  pose proof (digits2_pos_bounds px) as [Hlo _].
  set (q := (Zpos px / 2 ^ n)%Z) in *.
  assert (Hdiv : (q * 2 ^ n <= Zpos px < q * 2 ^ n + 2 ^ n)%Z).
  { unfold q. pose proof (Z.div_mod (Zpos px) (2 ^ n) ltac:(lia)).
    pose proof (Z.mod_pos_bound (Zpos px) (2 ^ n) Hpn). lia. }
  assert (Hq52 : (2 ^ 52 <= q)%Z).
  { pose proof (div_pow2_bounds (Zpos px) (Zpos (digits2_pos px)) n Hn
                  ltac:(unfold n; lia) (digits2_pos_bounds px)) as H.
    replace (Zpos (digits2_pos px) - n - 1)%Z with 52%Z in H by (unfold n; lia).
    exact (proj1 H). }
  assert (Hk0 : (0 <= k)%Z) by lia.
  (* everything in units of 2^ex *)
  unfold FloatSpec.F2R.
  replace (ex + n + k)%Z with (k + n + ex)%Z by lia.
  rewrite !pow2R_add, <- (pow2R_IZR k), <- (pow2R_IZR n) by assumption.
  pose proof (pow2R_pos ex) as Hpex.
  set (A := IZR (Zpos m') * IZR (2 ^ k)).
  assert (HA : IZR q <= A <= IZR q + 1).
  { unfold A. rewrite <- mult_IZR. rewrite <- plus_IZR.
    split; apply IZR_le; lia. }
  assert (HP : IZR q * IZR (2 ^ n) <= IZR (Zpos px) < IZR q * IZR (2 ^ n) + IZR (2 ^ n)).
  { rewrite <- mult_IZR, <- plus_IZR. split; [apply IZR_le | apply IZR_lt]; lia. }
  assert (HT : 0 < IZR (2 ^ n)) by (apply IZR_lt; lia).
  assert (HQ : powerRZ 2 52 <= IZR q).
  { rewrite <- pow2R_IZR by lia. apply IZR_le. exact Hq52. }
  assert (Hu : FloatSpec.u * powerRZ 2 52 = 1).
  { unfold FloatSpec.u. rewrite <- pow2R_add. reflexivity. }
  assert (Hup := u_pos).
  replace (IZR (Zpos m') * (IZR (2 ^ k) * IZR (2 ^ n) * powerRZ 2 ex)
           - IZR (Zpos px) * powerRZ 2 ex)
    with ((A * IZR (2 ^ n) - IZR (Zpos px)) * powerRZ 2 ex) by (unfold A; ring).
  rewrite Rabs_mult, (Rabs_pos_eq (powerRZ 2 ex)) by lra.
  rewrite <- Rmult_assoc.
  apply Rmult_le_compat_r; [lra|].
  assert (Hbig : IZR (2 ^ n) <= FloatSpec.u * IZR (Zpos px)).
  { assert (FloatSpec.u * (powerRZ 2 52 * IZR (2 ^ n)) <= FloatSpec.u * IZR (Zpos px)).
    { apply Rmult_le_compat_l; [lra|]. nra. }
    nra. }
  apply Rabs_le. split; nra.
Qed.

Lemma pos_iter_xO mx d : Zpos (Pos.iter xO mx d) = (Zpos mx * 2 ^ Zpos d)%Z.
Proof.
  induction d as [|d IH] using Pos.peano_ind.
  - cbn [Pos.iter]. change (2 ^ 1)%Z with 2%Z. lia.
  - rewrite Pos.iter_succ, Pos2Z.inj_xO, IH, Pos2Z.inj_succ, Z.pow_succ_r by lia.
    ring.
Qed.

Lemma digits2_pos_shift p q d :
  (0 <= d)%Z -> Zpos q = (Zpos p * 2 ^ d)%Z ->
  Zpos (digits2_pos q) = (Zpos (digits2_pos p) + d)%Z.
Proof.
  intros Hd Hq. apply digits2_pos_unique.
  pose proof (digits2_pos_bounds p) as [Hlo Hhi].
  pose proof (pow2_pos d Hd) as Hp.
  rewrite Hq.
  replace (Zpos (digits2_pos p) + d - 1)%Z with ((Zpos (digits2_pos p) - 1) + d)%Z by lia.
  rewrite !Z.pow_add_r by lia. split; nia.
Qed.

(** shl_align towards a smaller exponent pads the mantissa with zeros. *)
Lemma shl_align_spec mx ex ex' :
  exists mz ez,
    shl_align mx ex ex' = (mz, ez) /\
    FloatSpec.F2R (Zpos mz) ez = FloatSpec.F2R (Zpos mx) ex /\
    ((ex' < ex)%Z /\ ez = ex' /\
       Zpos (digits2_pos mz) = (Zpos (digits2_pos mx) + (ex - ex'))%Z \/
     (ex <= ex')%Z /\ mz = mx /\ ez = ex).
Proof.
  unfold shl_align. destruct (ex' - ex)%Z as [|d|d] eqn:E.
  - exists mx, ex. split; [reflexivity|]. split; [reflexivity|]. right. lia.
  - exists mx, ex. split; [reflexivity|]. split; [reflexivity|]. right. lia.
  - exists (Pos.iter xO mx d), ex'. split; [reflexivity|].
    assert (Hd : (ex - ex' = Zpos d)%Z) by lia.
    pose proof (pos_iter_xO mx d) as Hi.
    split.
    + rewrite Hi. replace ex' with (ex - Zpos d)%Z by lia.
      apply F2R_shift. lia.
    + left. split; [lia|]. split; [reflexivity|].
      rewrite Hd. apply digits2_pos_shift; [lia | exact Hi].
Qed.

(** binary_round in binary64: any positive mantissa, away from underflow and
    overflow, is rounded to a full mantissa within one unit roundoff. *)
Lemma binary_round_53_R s px ex :
  powerRZ 2 (-1022) <= FloatSpec.F2R (Zpos px) ex <= powerRZ 2 1021 ->
  exists m' e',
    binary_round 53 1024 s px ex = S754_finite s m' e' /\
    Zpos (digits2_pos m') = 53%Z /\
    Rabs (FloatSpec.F2R (Zpos m') e' - FloatSpec.F2R (Zpos px) ex)
    <= FloatSpec.u * FloatSpec.F2R (Zpos px) ex.
Proof.
  intros Hrange.
  pose proof (F2R_range px ex _ _ Hrange) as Hmu.
  unfold binary_round.
  rewrite fexp53_normal by lia.
  destruct (shl_align_spec px ex (Zpos (digits2_pos px) + ex - 53))
    as (mz & ez & -> & Hval & Hcase).
  rewrite <- Hval in Hrange |- *.
  apply binary_round_aux_53_R; [|exact Hrange].
  destruct Hcase as [(Hlt & _ & Hd) | (Hle & -> & _)]; lia.
Qed.

(** The finite values a C++ float can have. *)
Lemma land_ones_bounds w n : (0 <= n)%Z -> (0 <= Z.land w (Z.ones n) < 2 ^ n)%Z.
Proof.
  intros Hn. rewrite Z.land_ones by exact Hn. apply Z.mod_pos_bound.
  apply pow2_pos. exact Hn.
Qed.

Lemma float32_value_finite f s m e :
  Float32.value f = S754_finite s m e ->
  (Zpos m < 2 ^ 24)%Z /\ (-149 <= e <= 104)%Z.
Proof.
  unfold Float32.value.
  pose proof (land_ones_bounds (Float32.bits f) 23 ltac:(lia)) as HM.
  pose proof (land_ones_bounds (Z.shiftr (Float32.bits f) 23) 8 ltac:(lia)) as HE.
  change (Z.ones 23) with (2 ^ 23 - 1)%Z in HM.
  change (Z.ones 8) with 255%Z in HE.
  generalize dependent (Z.land (Float32.bits f) (2 ^ 23 - 1)).
  generalize dependent (Z.land (Z.shiftr (Float32.bits f) 23) 255).
  generalize (Z.testbit (Float32.bits f) 31).
  intros sgn E HE M HM.
  change (2 ^ 8)%Z with 256%Z in HE. change (2 ^ 23)%Z with 8388608%Z in HM.
  change (2 ^ 24)%Z with 16777216%Z.
  destruct (E =? 0)%Z eqn:E0.
  - destruct M as [|p|p]; try discriminate.
    intros H. injection H as _ <- <-. lia.
  - apply Z.eqb_neq in E0.
    destruct (E =? 255)%Z eqn:E255.
    + destruct (M =? 0)%Z; discriminate.
    + apply Z.eqb_neq in E255. intros H. injection H as _ <- <-.
      rewrite Z2Pos.id by lia. change (2 ^ 23)%Z with 8388608%Z. lia.
Qed.

Lemma F2R_bounds_of_int p e lo hi :
  (lo <= e)%Z -> (Zpos p < 2 ^ hi)%Z -> (0 <= hi)%Z ->
  powerRZ 2 lo <= FloatSpec.F2R (Zpos p) e <= powerRZ 2 (hi + e).
Proof.
  intros Hlo Hp Hhi. unfold FloatSpec.F2R.
  pose proof (pow2R_pos e). pose proof (pow2R_le lo e Hlo).
  assert (1 <= IZR (Zpos p)) by (apply IZR_le; lia).
  assert (IZR (Zpos p) <= powerRZ 2 hi).
  { rewrite <- pow2R_IZR by lia. apply IZR_le. lia. }
  rewrite pow2R_add. split; nra.
Qed.

(** static_cast<double> of a finite non-zero float: a positive or negative
    binary64 datum with a full mantissa, of magnitude between 2^-150 and
    2^129. *)
Lemma of_float_finite f s m e :
  Float32.value f = S754_finite s m e ->
  exists m' e',
    Float64.of_float (Float32.value f) = S754_finite s m' e' /\
    Zpos (digits2_pos m') = 53%Z /\
    powerRZ 2 (-150) <= FloatSpec.F2R (Zpos m') e' <= powerRZ 2 129.
Proof.
  intros Hv. destruct (float32_value_finite f s m e Hv) as [Hm He].
  rewrite Hv. unfold Float64.of_float, Float64.prec, Float64.emax.
  pose proof (F2R_bounds_of_int m e (-149) 24 ltac:(lia) Hm ltac:(lia)) as [Hlo Hhi].
  assert (Hhi' : FloatSpec.F2R (Zpos m) e <= powerRZ 2 128).
  { eapply Rle_trans; [exact Hhi | apply pow2R_le; lia]. }
  destruct (binary_round_53_R s m e) as (m' & e' & Heq & Hd & Herr).
  { split.
    - eapply Rle_trans; [apply (pow2R_le (-1022) (-149)); lia | exact Hlo].
    - eapply Rle_trans; [exact Hhi' | apply pow2R_le; lia]. }
  exists m', e'. split; [exact Heq|]. split; [exact Hd|].
  apply Rabs_le_between in Herr.
  pose proof u_pos. pose proof u_small.
  pose proof (F2R_pos m e).
  assert (H150 : powerRZ 2 (-149) = 2 * powerRZ 2 (-150)).
  { replace (-149)%Z with (1 + -150)%Z by lia. rewrite pow2R_add. simpl. ring. }
  assert (H129 : powerRZ 2 129 = 2 * powerRZ 2 128).
  { replace 129%Z with (1 + 128)%Z by lia. rewrite pow2R_add. simpl. ring. }
  pose proof (pow2R_pos (-150)). pose proof (pow2R_pos 128).
  split; nra.
Qed.

Lemma sq_digits m :
  Zpos (digits2_pos m) = 53%Z -> (53 <= Zpos (digits2_pos (m * m)))%Z.
Proof.
  intros Hd. pose proof (digits2_pos_bounds m) as [Hlo _]. rewrite Hd in Hlo.
  pose proof (digits2_pos_bounds (m * m)) as [_ Hhi].
  destruct (Z_lt_le_dec (Zpos (digits2_pos (m * m))) 53) as [Hlt|Hge]; [|exact Hge].
  exfalso.
  assert (H : (2 ^ Zpos (digits2_pos (m * m)) <= 2 ^ 52)%Z)
    by (apply Z.pow_le_mono_r; lia).
  rewrite Pos2Z.inj_mul in Hhi.
  change (2 ^ (53 - 1))%Z with 4503599627370496%Z in Hlo.
  change (2 ^ 52)%Z with 4503599627370496%Z in H. nia.
Qed.

(** The square of a binary64 datum with a full mantissa, away from underflow
    and overflow. *)
Lemma mul_square s m e :
  Zpos (digits2_pos m) = 53%Z ->
  powerRZ 2 (-1022) <= FloatSpec.F2R (Zpos m) e * FloatSpec.F2R (Zpos m) e
    <= powerRZ 2 1021 ->
  exists m' e',
    Float64.mul (S754_finite s m e) (S754_finite s m e) = S754_finite false m' e' /\
    Zpos (digits2_pos m') = 53%Z /\
    Rabs (FloatSpec.F2R (Zpos m') e' - FloatSpec.F2R (Zpos m) e * FloatSpec.F2R (Zpos m) e)
    <= FloatSpec.u * (FloatSpec.F2R (Zpos m) e * FloatSpec.F2R (Zpos m) e).
Proof.
  intros Hd Hrange.
  unfold Float64.mul, Float64.prec, Float64.emax. cbn [SFmul].
  replace (xorb s s) with false by (destruct s; reflexivity).
  assert (Hsq : FloatSpec.F2R (Zpos (m * m)) (e + e)
                = FloatSpec.F2R (Zpos m) e * FloatSpec.F2R (Zpos m) e).
  { unfold FloatSpec.F2R. rewrite Pos2Z.inj_mul, mult_IZR, pow2R_add. ring. }
  rewrite <- Hsq in Hrange |- *.
  apply binary_round_aux_53_R; [apply sq_digits; exact Hd | exact Hrange].
Qed.

(** The integer square root at the heart of SFsqrt, for a full mantissa. *)
Lemma sqrt_core m e :
  Zpos (digits2_pos m) = 53%Z -> (-2000 <= e)%Z ->
  exists q l,
    SFsqrt_core_binary 53 1024 (Zpos m) e = (Zpos q, (e / 2 - 26)%Z, l) /\
    Zpos (digits2_pos q) = 53%Z /\
    (Zpos q * Zpos q <= Zpos m * 2 ^ (e - 2 * (e / 2) + 52)
     < (Zpos q + 1) * (Zpos q + 1))%Z.
Proof.
  intros Hd He.
  unfold SFsqrt_core_binary. cbn [Zdigits2]. rewrite Hd.
  rewrite !Z.div2_div.
  replace (53 + e + 1)%Z with (e + 27 * 2)%Z by lia.
  rewrite Z.div_add by lia.
  pose proof (Z.div_mod e 2 ltac:(lia)) as Hdm.
  pose proof (Z.mod_pos_bound e 2 ltac:(lia)) as Hmod.
  rewrite fexp53_normal by lia.
  rewrite Z.min_l by lia.
  replace (e - 2 * (e / 2 + 27 - 53))%Z with (e - 2 * (e / 2) + 52)%Z by lia.
  set (sft := (e - 2 * (e / 2) + 52)%Z).
  assert (Hs : (52 <= sft <= 53)%Z) by (unfold sft; lia).
  destruct sft as [|p|p] eqn:Es; try lia.
  rewrite Z.shiftl_mul_pow2 by lia. rewrite <- Es.
  pose proof (digits2_pos_bounds m) as Hm. rewrite Hd in Hm.
  change (2 ^ (53 - 1))%Z with 4503599627370496%Z in Hm.
  change (2 ^ 53)%Z with 9007199254740992%Z in Hm.
  assert (Hp : (2 ^ 52 <= 2 ^ sft <= 2 ^ 53)%Z).
  { split; apply Z.pow_le_mono_r; lia. }
  change (2 ^ 52)%Z with 4503599627370496%Z in Hp.
  change (2 ^ 53)%Z with 9007199254740992%Z in Hp.
  rewrite Es in Hp |- *.
  set (P := (2 ^ Zpos p)%Z) in *.
  pose proof (Z.sqrtrem_spec (Zpos m * P) ltac:(nia)) as Hsq.
  destruct (Z.sqrtrem (Zpos m * P)) as [q r].
  destruct Hsq as [Hqr Hr].
  assert (Hq : (4503599627370496 <= q < 9007199254740992)%Z) by nia.
  destruct q as [|q|q]; try lia.
  eexists q, _. replace (e / 2 + 27 - 53)%Z with (e / 2 - 26)%Z by lia.
  split; [reflexivity|]. split.
  - apply digits2_pos_unique.
    change (2 ^ (53 - 1))%Z with 4503599627370496%Z.
    change (2 ^ 53)%Z with 9007199254740992%Z. lia.
  - nia.
Qed.

(** sqrt in binary64 of a positive datum with a full mantissa: the square
    of the result is within a few unit roundoffs of the argument. *)
Lemma sqrt_positive m e :
  Zpos (digits2_pos m) = 53%Z -> (-1900 <= e <= 1900)%Z ->
  exists m' e',
    Float64.sqrt (S754_finite false m e) = S754_finite false m' e' /\
    Zpos (digits2_pos m') = 53%Z /\
    let S := FloatSpec.F2R (Zpos m) e in
    let v := FloatSpec.F2R (Zpos m') e' in
    v * v <= S * ((1 + FloatSpec.u) * (1 + FloatSpec.u)) /\
    S * ((1 - FloatSpec.u) * (1 - FloatSpec.u))
      <= v * v * ((1 + FloatSpec.u) * (1 + FloatSpec.u)).
Proof.
  intros Hd He.
  unfold Float64.sqrt, Float64.prec, Float64.emax. cbn [SFsqrt].
  destruct (sqrt_core m e Hd ltac:(lia)) as (q & l & -> & Hdq & Hq).
  set (e' := (e / 2 - 26)%Z) in *.
  set (sft := (e - 2 * (e / 2) + 52)%Z) in *.
  pose proof (Z.div_mod e 2 ltac:(lia)) as Hdm.
  pose proof (Z.mod_pos_bound e 2 ltac:(lia)) as Hmod.
  assert (Hsft : (0 <= sft)%Z) by (unfold sft; lia).
  pose proof (F2R_digits q e') as Hw. cbv zeta in Hw. rewrite Hdq in Hw.
  destruct (binary_round_aux_53_R false q e' l) as (m' & e2 & Heq & Hd' & Herr).
  { lia. }
  { destruct Hw as [Hw1 Hw2]. split.
    - eapply Rle_trans; [apply pow2R_le | exact Hw1]. unfold e'. lia.
    - eapply Rle_trans; [apply Rlt_le; exact Hw2 | apply pow2R_le]. unfold e'. lia. }
  exists m', e2. split; [exact Heq|]. split; [exact Hd'|].
  cbv zeta.
  set (S := FloatSpec.F2R (Zpos m) e).
  set (v := FloatSpec.F2R (Zpos m') e2) in *.
  set (w := FloatSpec.F2R (Zpos q) e') in *.
  apply Rabs_le_between in Herr.
  (* S in units of 4^e' *)
  assert (HS : S = IZR (Zpos m * 2 ^ sft) * (powerRZ 2 e' * powerRZ 2 e')).
  { unfold S. rewrite <- (F2R_shift (Zpos m) e sft Hsft). unfold FloatSpec.F2R.
    rewrite <- pow2R_add. do 2 f_equal. unfold sft, e'. lia. }
  assert (Hw2 : w * w = IZR (Zpos q * Zpos q) * (powerRZ 2 e' * powerRZ 2 e')).
  { unfold w, FloatSpec.F2R. rewrite mult_IZR. ring. }
  assert (Hw3 : (w + powerRZ 2 e') * (w + powerRZ 2 e')
                = IZR ((Zpos q + 1) * (Zpos q + 1)) * (powerRZ 2 e' * powerRZ 2 e')).
  { unfold w, FloatSpec.F2R. rewrite mult_IZR, plus_IZR. ring. }
  destruct Hq as [Hq1 Hq2]. apply IZR_le in Hq1. apply IZR_lt in Hq2.
  pose proof (pow2R_pos e') as Hpe.
  assert (Hlow : w * w <= S) by (rewrite HS, Hw2; nra).
  assert (Hupp : S <= (w + powerRZ 2 e') * (w + powerRZ 2 e')) by (rewrite HS, Hw3; nra).
  (* one unit in the last place of w is at most u * w *)
  assert (Hulp : powerRZ 2 e' <= FloatSpec.u * w).
  { unfold w, FloatSpec.F2R, FloatSpec.u.
    pose proof (digits2_pos_bounds q) as [Hq52 _]. rewrite Hdq in Hq52.
    apply IZR_le in Hq52. rewrite pow2R_IZR in Hq52 by lia.
    change (53 - 1)%Z with 52%Z in Hq52.
    assert (Hone : powerRZ 2 (-52) * powerRZ 2 52 = 1)
      by (rewrite <- pow2R_add; reflexivity).
    pose proof (pow2R_pos (-52)).
    assert (Huq : 1 <= powerRZ 2 (-52) * IZR (Zpos q)) by nra.
    replace (powerRZ 2 (-52) * (IZR (Zpos q) * powerRZ 2 e'))
      with (powerRZ 2 (-52) * IZR (Zpos q) * powerRZ 2 e') by ring.
    nra. }
  pose proof u_pos as Hu. pose proof u_small as Hus.
  assert (Hwpos : 0 < w) by apply F2R_pos.
  assert (Hvpos : 0 < v) by apply F2R_pos.
  split.
  - apply Rle_trans with (w * w * ((1 + FloatSpec.u) * (1 + FloatSpec.u))); nra.
  - apply Rle_trans with (w * w * ((1 + FloatSpec.u) * (1 + FloatSpec.u))
                          * ((1 - FloatSpec.u) * (1 - FloatSpec.u))).
    + assert (S <= w * w * ((1 + FloatSpec.u) * (1 + FloatSpec.u))) by nra.
      assert (0 <= (1 - FloatSpec.u) * (1 - FloatSpec.u)) by nra.
      nra.
    + assert (Hv1 : w * (1 - FloatSpec.u) <= v) by nra.
      assert (Hv2 : w * (1 - FloatSpec.u) * (w * (1 - FloatSpec.u)) <= v * v).
      { apply Rmult_le_compat; nra. }
      assert (0 <= (1 + FloatSpec.u) * (1 + FloatSpec.u)) by nra.
      nra.
Qed.

(** The integer quotient at the heart of SFdiv, for two full mantissas. *)
Lemma div_core m1 e1 m2 e2 :
  Zpos (digits2_pos m1) = 53%Z -> Zpos (digits2_pos m2) = 53%Z ->
  (-1000 <= e1 - e2)%Z ->
  exists q l,
    SFdiv_core_binary 53 1024 (Zpos m1) e1 (Zpos m2) e2
    = (Zpos q, (e1 - e2 - 53)%Z, l) /\
    (53 <= Zpos (digits2_pos q))%Z /\ (Zpos q < 2 ^ 54)%Z /\
    (Zpos q * Zpos m2 <= Zpos m1 * 2 ^ 53 < (Zpos q + 1) * Zpos m2)%Z.
Proof.
  intros Hd1 Hd2 He.
  unfold SFdiv_core_binary. cbn [Zdigits2]. rewrite Hd1, Hd2.
  rewrite fexp53_normal by lia.
  rewrite Z.min_l by lia.
  replace (e1 - e2 - (53 + e1 - (53 + e2) - 53))%Z with 53%Z by lia.
  rewrite Z.shiftl_mul_pow2 by lia.
  pose proof (digits2_pos_bounds m1) as Hm1. rewrite Hd1 in Hm1.
  pose proof (digits2_pos_bounds m2) as Hm2. rewrite Hd2 in Hm2.
  change (2 ^ (53 - 1))%Z with 4503599627370496%Z in Hm1, Hm2.
  change (2 ^ 53)%Z with 9007199254740992%Z in Hm1, Hm2 |- *.
  change (2 ^ 54)%Z with 18014398509481984%Z.
  pose proof (Z.div_mod (Zpos m1 * 9007199254740992) (Zpos m2) ltac:(lia)) as Hdm.
  pose proof (Z.mod_pos_bound (Zpos m1 * 9007199254740992) (Zpos m2) ltac:(lia)) as Hmod.
  unfold Z.div, Z.modulo in Hdm, Hmod.
  destruct (Z.div_eucl (Zpos m1 * 9007199254740992) (Zpos m2)) as [q r].
  assert (Hq : (4503599627370496 <= q < 18014398509481984)%Z) by nia.
  destruct q as [|q|q]; try lia.
  eexists q, _.
  replace (53 + e1 - (53 + e2) - 53)%Z with (e1 - e2 - 53)%Z by lia.
  split; [reflexivity|]. split; [|split; [lia | nia]].
  pose proof (digits2_pos_bounds q) as [_ Hhi].
  destruct (Z_lt_le_dec (Zpos (digits2_pos q)) 53) as [Hlt|Hge]; [|exact Hge].
  exfalso.
  assert (H : (2 ^ Zpos (digits2_pos q) <= 2 ^ 52)%Z)
    by (apply Z.pow_le_mono_r; lia).
  change (2 ^ 52)%Z with 4503599627370496%Z in H. lia.
Qed.

(** The quotient in binary64 of two positive data with full mantissas. *)
Lemma div_positive m1 e1 m2 e2 :
  Zpos (digits2_pos m1) = 53%Z -> Zpos (digits2_pos m2) = 53%Z ->
  (-900 <= e1 - e2 <= 900)%Z ->
  exists m' e',
    Float64.div (S754_finite false m1 e1) (S754_finite false m2 e2)
    = S754_finite false m' e' /\
    Zpos (digits2_pos m') = 53%Z /\
    let X := FloatSpec.F2R (Zpos m1) e1 in
    let Y := FloatSpec.F2R (Zpos m2) e2 in
    let z := FloatSpec.F2R (Zpos m') e' in
    z * Y <= X * (1 + FloatSpec.u) /\
    X * (1 - FloatSpec.u) <= z * Y * (1 + FloatSpec.u).
Proof.
  intros Hd1 Hd2 He.
  unfold Float64.div, Float64.prec, Float64.emax. cbn [SFdiv xorb].
  destruct (div_core m1 e1 m2 e2 Hd1 Hd2 ltac:(lia)) as (q & l & -> & Hdq & Hq54 & Hq).
  set (e' := (e1 - e2 - 53)%Z) in *.
  destruct (binary_round_aux_53_R false q e' l) as (m' & e3 & Heq & Hd' & Herr).
  { exact Hdq. }
  { pose proof (F2R_bounds_of_int q e' (-953) 54 ltac:(unfold e'; lia) Hq54 ltac:(lia))
      as [Hlo Hhi].
    split.
    - eapply Rle_trans; [apply (pow2R_le (-1022) (-953)); lia | exact Hlo].
    - eapply Rle_trans; [exact Hhi | apply pow2R_le; unfold e'; lia]. }
  exists m', e3. split; [exact Heq|]. split; [exact Hd'|].
  cbv zeta.
  set (X := FloatSpec.F2R (Zpos m1) e1).
  set (Y := FloatSpec.F2R (Zpos m2) e2).
  set (z := FloatSpec.F2R (Zpos m') e3) in *.
  set (w := FloatSpec.F2R (Zpos q) e') in *.
  apply Rabs_le_between in Herr.
  pose proof (pow2R_pos (e1 - 53)) as Hp.
  assert (HX : X = IZR (Zpos m1 * 2 ^ 53) * powerRZ 2 (e1 - 53)).
  { unfold X. rewrite <- (F2R_shift (Zpos m1) e1 53 ltac:(lia)). reflexivity. }
  assert (HwY : w * Y = IZR (Zpos q * Zpos m2) * powerRZ 2 (e1 - 53)).
  { unfold w, Y, FloatSpec.F2R. rewrite mult_IZR.
    replace (e1 - 53)%Z with (e' + e2)%Z by (unfold e'; lia).
    rewrite pow2R_add. ring. }
  assert (HwY' : (w + powerRZ 2 e') * Y
                 = IZR ((Zpos q + 1) * Zpos m2) * powerRZ 2 (e1 - 53)).
  { unfold w, Y, FloatSpec.F2R. rewrite mult_IZR, plus_IZR.
    replace (e1 - 53)%Z with (e' + e2)%Z by (unfold e'; lia).
    rewrite pow2R_add. ring. }
  destruct Hq as [Hq1 Hq2]. apply IZR_le in Hq1. apply IZR_lt in Hq2.
  assert (Hlow : w * Y <= X) by (rewrite HX, HwY; nra).
  assert (Hupp : X <= (w + powerRZ 2 e') * Y) by (rewrite HX, HwY'; nra).
  assert (Hulp : powerRZ 2 e' <= FloatSpec.u * w).
  { unfold w, FloatSpec.F2R, FloatSpec.u.
    pose proof (digits2_pos_bounds q) as [Hq52 _].
    assert (H52 : (2 ^ 52 <= 2 ^ (Zpos (digits2_pos q) - 1))%Z)
      by (apply Z.pow_le_mono_r; lia).
    assert (Hq52' : (2 ^ 52 <= Zpos q)%Z) by lia.
    apply IZR_le in Hq52'. rewrite pow2R_IZR in Hq52' by lia.
    assert (Hone : powerRZ 2 (-52) * powerRZ 2 52 = 1)
      by (rewrite <- pow2R_add; reflexivity).
    pose proof (pow2R_pos (-52)). pose proof (pow2R_pos e').
    assert (Huq : 1 <= powerRZ 2 (-52) * IZR (Zpos q)) by nra.
    replace (powerRZ 2 (-52) * (IZR (Zpos q) * powerRZ 2 e'))
      with (powerRZ 2 (-52) * IZR (Zpos q) * powerRZ 2 e') by ring.
    nra. }
  pose proof u_pos as Hu. pose proof u_small as Hus.
  assert (Hwpos : 0 < w) by apply F2R_pos.
  assert (HYpos : 0 < Y) by apply F2R_pos.
  assert (Hupp' : X <= w * (1 + FloatSpec.u) * Y).
  { apply Rle_trans with ((w + powerRZ 2 e') * Y); [exact Hupp|].
    apply Rmult_le_compat_r; nra. }
  split.
  - apply Rle_trans with (w * (1 + FloatSpec.u) * Y).
    + apply Rmult_le_compat_r; nra.
    + nra.
  - apply Rle_trans with (w * (1 + FloatSpec.u) * Y * (1 - FloatSpec.u)).
    + apply Rmult_le_compat_r; nra.
    + assert (Hz : w * (1 - FloatSpec.u) * Y <= z * Y)
        by (apply Rmult_le_compat_r; nra).
      nra.
Qed.

Lemma pow2R_succ a : powerRZ 2 (a + 1) = 2 * powerRZ 2 a.
Proof. rewrite pow2R_add. simpl. ring. Qed.

(** Doubles next to 1.0 all become 1.0f. *)
Lemma to_float_above_one k :
  (0 <= k <= 8)%Z ->
  Float64.to_float (S754_finite false (Z.to_pos (2 ^ 52 + k)) (-52))
  = FloatSpec.one32.
Proof.
  intros Hk.
  assert (H : (k = 0 \/ k = 1 \/ k = 2 \/ k = 3 \/ k = 4 \/ k = 5 \/ k = 6
              \/ k = 7 \/ k = 8)%Z) by lia.
  repeat (destruct H as [-> | H]; [vm_compute; reflexivity|]).
  subst k. vm_compute. reflexivity.
Qed.

Lemma to_float_below_one k :
  (1 <= k <= 16)%Z ->
  Float64.to_float (S754_finite false (Z.to_pos (2 ^ 53 - k)) (-53))
  = FloatSpec.one32.
Proof.
  intros Hk.
  assert (H : (k = 1 \/ k = 2 \/ k = 3 \/ k = 4 \/ k = 5 \/ k = 6 \/ k = 7
              \/ k = 8 \/ k = 9 \/ k = 10 \/ k = 11 \/ k = 12 \/ k = 13
              \/ k = 14 \/ k = 15 \/ k = 16)%Z) by lia.
  repeat (destruct H as [-> | H]; [vm_compute; reflexivity|]).
  subst k. vm_compute. reflexivity.
Qed.

(** A binary64 datum with a full mantissa and within 8 unit roundoffs of 1
    is converted to 1.0f. *)
Lemma to_float_near_one m e :
  Zpos (digits2_pos m) = 53%Z ->
  1 - 8 * FloatSpec.u <= FloatSpec.F2R (Zpos m) e <= 1 + 8 * FloatSpec.u ->
  Float64.to_float (S754_finite false m e) = FloatSpec.one32.
Proof.
  intros Hd [Hlo Hhi].
  pose proof (F2R_digits m e) as [Hd1 Hd2]. cbv zeta in Hd1, Hd2. rewrite Hd in Hd1, Hd2.
  pose proof u_pos as Hu. pose proof u_small as Hus.
  assert (He1 : (e <= -52)%Z).
  { assert (H : (53 + e - 1 < 1)%Z).
    { apply pow2R_lt_inv. change (powerRZ 2 1) with (2 * 1). lra. }
    lia. }
  assert (He2 : (-53 <= e)%Z).
  { assert (H : (-1 < 53 + e)%Z).
    { apply pow2R_lt_inv. change (powerRZ 2 (-1)) with (/ (2 * 1)). lra. }
    lia. }
  pose proof (digits2_pos_bounds m) as Hm. rewrite Hd in Hm.
  change (2 ^ (53 - 1))%Z with (2 ^ 52)%Z in Hm.
  assert (Hu52 : FloatSpec.u * powerRZ 2 52 = 1)
    by (unfold FloatSpec.u; rewrite <- pow2R_add; reflexivity).
  assert (Hu53 : FloatSpec.u * powerRZ 2 53 = 2).
  { change 53%Z with (52 + 1)%Z. rewrite pow2R_succ. lra. }
  assert (He : e = (-52)%Z \/ e = (-53)%Z) by lia.
  destruct He as [-> | ->].
  - (* just above 1 *)
    assert (Hk : (Zpos m <= 2 ^ 52 + 8)%Z).
    { apply le_IZR. rewrite plus_IZR, pow2R_IZR by lia.
      unfold FloatSpec.F2R in Hhi. fold FloatSpec.u in Hhi.
      pose proof (pow2R_pos 52). nra. }
    replace m with (Z.to_pos (2 ^ 52 + (Zpos m - 2 ^ 52))).
    + apply to_float_above_one. lia.
    + replace (2 ^ 52 + (Zpos m - 2 ^ 52))%Z with (Zpos m) by lia. reflexivity.
  - (* just below 1 *)
    assert (Hk : (2 ^ 53 - 16 <= Zpos m)%Z).
    { apply le_IZR. rewrite minus_IZR, pow2R_IZR by lia.
      unfold FloatSpec.F2R in Hlo.
      assert (Hh : powerRZ 2 (-53) * 2 = FloatSpec.u).
      { unfold FloatSpec.u. change (-52)%Z with (-53 + 1)%Z. rewrite pow2R_succ. ring. }
      pose proof (pow2R_pos 53). pose proof (pow2R_pos (-53)). nra. }
    replace m with (Z.to_pos (2 ^ 53 - (2 ^ 53 - Zpos m))).
    + apply to_float_below_one. lia.
    + replace (2 ^ 53 - (2 ^ 53 - Zpos m))%Z with (Zpos m) by lia. reflexivity.
Qed.

Lemma poly_above x :
  0 < x <= / 1024 ->
  (1 + x) * (1 + x) * (1 + x) <= (1 + 8 * x) * ((1 - x) * (1 - x) * (1 - x)).
Proof. intros [H1 H2]. nra. Qed.

Lemma poly_below x :
  0 < x <= / 1024 ->
  (1 - 8 * x) * ((1 + x) * (1 + x) * ((1 + x) * (1 + x))) <= 1 - x.
Proof. intros [H1 H2]. nra. Qed.

(** Pure arithmetic behind the chain sqrt, square, quotient. *)
Lemma ratio_bounds S V P z x :
  0 < S -> 0 < V -> 0 < P -> 0 < z -> 0 < x <= / 1024 ->
  V <= S * ((1 + x) * (1 + x)) ->
  S * ((1 - x) * (1 - x)) <= V * ((1 + x) * (1 + x)) ->
  V * (1 - x) <= P <= V * (1 + x) ->
  z * P <= S * (1 + x) ->
  S * (1 - x) <= z * P * (1 + x) ->
  1 - 8 * x <= z <= 1 + 8 * x.
Proof.
  intros HS HV HP Hz Hx Ha Hb [Hc1 Hc2] Hd He.
  pose proof (poly_above x Hx) as Hpa. pose proof (poly_below x Hx) as Hpb.
  destruct Hx as [Hx0 Hx1].
  assert (Hm : 0 < 1 - x) by lra.
  assert (Hp : 0 < 1 + x) by lra.
  split.
  - (* (1 - x) <= z (1 + x)^4 *)
    assert (H1 : S * (1 - x) <= z * V * ((1 + x) * (1 + x))).
    { apply Rle_trans with (z * P * (1 + x)); [exact He|].
      assert (z * P <= z * (V * (1 + x))) by (apply Rmult_le_compat_l; lra).
      nra. }
    assert (H2 : z * V * ((1 + x) * (1 + x))
                 <= z * (S * ((1 + x) * (1 + x))) * ((1 + x) * (1 + x))).
    { assert (z * V <= z * (S * ((1 + x) * (1 + x)))) by (apply Rmult_le_compat_l; lra).
      apply Rmult_le_compat_r; nra. }
    assert (H3 : 1 - x <= z * ((1 + x) * (1 + x) * ((1 + x) * (1 + x)))).
    { apply Rmult_le_reg_l with S; [exact HS|]. nra. }
    assert (H4 : 0 < (1 + x) * (1 + x) * ((1 + x) * (1 + x))) by nra.
    apply Rmult_le_reg_r with ((1 + x) * (1 + x) * ((1 + x) * (1 + x))); [exact H4|].
    lra.
  - (* z (1 - x)^3 <= (1 + x)^3 *)
    assert (H1 : z * (V * (1 - x)) <= S * (1 + x)).
    { apply Rle_trans with (z * P); [apply Rmult_le_compat_l; lra | exact Hd]. }
    assert (H2 : z * (V * (1 - x)) * ((1 - x) * (1 - x))
                 <= V * ((1 + x) * (1 + x)) * (1 + x)).
    { apply Rle_trans with (S * (1 + x) * ((1 - x) * (1 - x))).
      - apply Rmult_le_compat_r; nra.
      - nra. }
    assert (H3 : z * ((1 - x) * (1 - x) * (1 - x)) <= (1 + x) * (1 + x) * (1 + x)).
    { apply Rmult_le_reg_l with V; [exact HV|]. nra. }
    assert (H4 : 0 < (1 - x) * (1 - x) * (1 - x)).
    { apply Rmult_lt_0_compat; [apply Rmult_lt_0_compat|]; lra. }
    apply Rmult_le_reg_r with ((1 - x) * (1 - x) * (1 - x)); [exact H4|].
    lra.
Qed.

(** dot / (sqrt(na) * sqrt(nb)) when the three accumulators are one and the
    same positive double: the quotient is converted to 1.0f. *)
Lemma self_ratio_is_one m e :
  Zpos (digits2_pos m) = 53%Z -> (-600 <= e <= 600)%Z ->
  Float64.to_float
    (Float64.div (S754_finite false m e)
       (Float64.mul (Float64.sqrt (S754_finite false m e))
                    (Float64.sqrt (S754_finite false m e))))
  = FloatSpec.one32.
Proof.
  intros Hd He.
  destruct (sqrt_positive m e Hd ltac:(lia)) as (my & ey & -> & Hdy & Hv1 & Hv2).
  cbv zeta in Hv1, Hv2.
  set (S := FloatSpec.F2R (Zpos m) e) in *.
  set (v := FloatSpec.F2R (Zpos my) ey) in *.
  pose proof u_pos as Hu. pose proof u_small as Hus.
  pose proof (F2R_pos m e) as HS. fold S in HS.
  pose proof (F2R_pos my ey) as Hv. fold v in Hv.
  pose proof (F2R_digits m e) as [HS1 HS2]. cbv zeta in HS1, HS2.
  rewrite Hd in HS1, HS2. fold S in HS1, HS2.
  replace (53 + e - 1)%Z with (52 + e)%Z in HS1 by lia.
  replace (53 + e)%Z with (52 + e + 1)%Z in HS2 by lia.
  rewrite pow2R_succ in HS2.
  set (B := powerRZ 2 (52 + e)) in *.
  assert (HB : 0 < B) by apply pow2R_pos.
  assert (HVV : 0 < v * v) by nra.
  assert (HV1 : v * v <= 4 * B).
  { apply Rle_trans with (S * ((1 + FloatSpec.u) * (1 + FloatSpec.u))); [exact Hv1|].
    assert ((1 + FloatSpec.u) * (1 + FloatSpec.u) <= 2) by nra. nra. }
  assert (HV2 : B / 2 <= v * v).
  { assert (H1 : B * ((1 - FloatSpec.u) * (1 - FloatSpec.u))
                 <= v * v * ((1 + FloatSpec.u) * (1 + FloatSpec.u))).
    { apply Rle_trans with (S * ((1 - FloatSpec.u) * (1 - FloatSpec.u))); [|exact Hv2].
      apply Rmult_le_compat_r; nra. }
    assert (H2 : 99 / 100 <= (1 - FloatSpec.u) * (1 - FloatSpec.u)) by nra.
    assert (H3 : (1 + FloatSpec.u) * (1 + FloatSpec.u) <= 101 / 100) by nra.
    nra. }
  assert (HB4 : powerRZ 2 (50 + e) * 4 = B).
  { unfold B. replace (52 + e)%Z with (50 + e + 1 + 1)%Z by lia.
    rewrite !pow2R_succ. ring. }
  assert (HB8 : powerRZ 2 (55 + e) = 8 * B).
  { unfold B. replace (55 + e)%Z with (52 + e + 1 + 1 + 1)%Z by lia.
    rewrite !pow2R_succ. ring. }
  pose proof (pow2R_le (-1022) (50 + e) ltac:(lia)) as Hlo.
  pose proof (pow2R_le (55 + e) 1021 ltac:(lia)) as Hhi.
  pose proof (pow2R_pos (50 + e)) as Hp50.
  destruct (mul_square false my ey Hdy) as (mp & ep & -> & Hdp & HP).
  { fold v. rewrite HB8 in Hhi. split; lra. }
  apply Rabs_le_between in HP. fold v in HP.
  set (P := FloatSpec.F2R (Zpos mp) ep) in *.
  assert (HPpos : 0 < P) by apply F2R_pos.
  assert (HPr : powerRZ 2 (50 + e) <= P <= powerRZ 2 (55 + e)).
  { rewrite HB8. split; nra. }
  pose proof (F2R_range mp ep _ _ HPr) as Hep. rewrite Hdp in Hep.
  destruct (div_positive m e mp ep Hd Hdp ltac:(lia)) as (mz & ez & -> & Hdz & Hz1 & Hz2).
  cbv zeta in Hz1, Hz2. fold S in Hz1, Hz2. fold P in Hz1, Hz2.
  apply to_float_near_one; [exact Hdz|].
  apply (ratio_bounds S (v * v) P (FloatSpec.F2R (Zpos mz) ez) FloatSpec.u);
    try assumption.
  - apply F2R_pos.
  - split; assumption.
  - split; lra.
Qed.

(** *** The accumulators of cosineSim on (v, v) *)

Lemma cosineSim_loop_self : forall v acc,
  VectorIndex.cosineSim_loop v v acc acc acc
  = (FloatSpec.sum_squares acc v, FloatSpec.sum_squares acc v,
     FloatSpec.sum_squares acc v).
Proof.
  induction v as [|x v IH]; intros acc; [reflexivity|].
  cbn [VectorIndex.cosineSim_loop FloatSpec.sum_squares]. apply IH.
Qed.

Lemma square_of_zero x :
  SearchSpec.is_zero x ->
  Float64.mul (Float64.of_float (Float32.value x)) (Float64.of_float (Float32.value x))
  = S754_zero false.
Proof. intros [s ->]. destruct s; reflexivity. Qed.

(** The square of a finite non-zero float, in double. *)
Lemma square_of_finite x s m e :
  Float32.value x = S754_finite s m e ->
  exists mt et,
    Float64.mul (Float64.of_float (Float32.value x))
                (Float64.of_float (Float32.value x)) = S754_finite false mt et /\
    Zpos (digits2_pos mt) = 53%Z /\
    powerRZ 2 (-301) <= FloatSpec.F2R (Zpos mt) et <= powerRZ 2 259.
Proof.
  intros Hv.
  destruct (of_float_finite x s m e Hv) as (m' & e' & -> & Hd & Hlo & Hhi).
  set (X := FloatSpec.F2R (Zpos m') e') in *.
  assert (H300 : powerRZ 2 (-300) = powerRZ 2 (-150) * powerRZ 2 (-150))
    by (rewrite <- pow2R_add; reflexivity).
  assert (H258 : powerRZ 2 258 = powerRZ 2 129 * powerRZ 2 129)
    by (rewrite <- pow2R_add; reflexivity).
  pose proof (pow2R_pos (-150)). pose proof (pow2R_pos 129).
  assert (HX2 : powerRZ 2 (-300) <= X * X <= powerRZ 2 258).
  { rewrite H300, H258. split; apply Rmult_le_compat; lra. }
  destruct (mul_square s m' e' Hd) as (mt & et & -> & Hdt & Herr).
  { fold X. split.
    - eapply Rle_trans; [apply (pow2R_le (-1022) (-300)); lia | apply HX2].
    - eapply Rle_trans; [apply HX2 | apply pow2R_le; lia]. }
  exists mt, et. split; [reflexivity|]. split; [exact Hdt|].
  apply Rabs_le_between in Herr. fold X in Herr.
  pose proof u_pos. pose proof u_small.
  assert (H301 : powerRZ 2 (-300) = 2 * powerRZ 2 (-301)).
  { change (-300)%Z with (-301 + 1)%Z. apply pow2R_succ. }
  assert (H259 : powerRZ 2 259 = 2 * powerRZ 2 258).
  { change 259%Z with (258 + 1)%Z. apply pow2R_succ. }
  pose proof (pow2R_pos (-301)). pose proof (pow2R_pos 258).
  split; nra.
Qed.

Lemma add_zero_right acc : 
  (acc = S754_zero false \/ exists m e, acc = S754_finite false m e) ->
  Float64.add acc (S754_zero false) = acc.
Proof. intros [-> | (m & e & ->)]; reflexivity. Qed.

(** Rounding stays within the binade of what it rounds. *)
Lemma binary_round_aux_53_binade s px ex l :
  (53 <= Zpos (digits2_pos px))%Z ->
  powerRZ 2 (-1022) <= FloatSpec.F2R (Zpos px) ex <= powerRZ 2 1021 ->
  exists m' e',
    binary_round_aux 53 1024 s (Zpos px) ex l = S754_finite s m' e' /\
    Zpos (digits2_pos m') = 53%Z /\
    (forall c, FloatSpec.F2R (Zpos px) ex < powerRZ 2 c ->
               FloatSpec.F2R (Zpos m') e' <= powerRZ 2 c) /\
    (forall c, powerRZ 2 c <= FloatSpec.F2R (Zpos px) ex ->
               powerRZ 2 c <= FloatSpec.F2R (Zpos m') e').
Proof.
  intros HD Hrange.
  pose proof (F2R_range px ex _ _ Hrange) as Hmu.
  destruct (binary_round_aux_53 s px ex l HD ltac:(lia))
    as (m' & k & Heq & Hd' & Hk & Hq).
  exists m', (ex + (Zpos (digits2_pos px) - 53) + k)%Z.
  split; [exact Heq|]. split; [exact Hd'|].
  pose proof (F2R_digits px ex) as [Hx1 Hx2]. cbv zeta in Hx1, Hx2.
  set (D := Zpos (digits2_pos px)) in *.
  set (n := (D - 53)%Z) in *.
  assert (Hn : (0 <= n)%Z) by (unfold n; lia).
  pose proof (div_pow2_bounds (Zpos px) D n Hn ltac:(unfold n; lia)
                (digits2_pos_bounds px)) as Hq52.
  replace (D - n - 1)%Z with 52%Z in Hq52 by (unfold n; lia).
  replace (D - n)%Z with 53%Z in Hq52 by (unfold n; lia).
  assert (Hk0 : (0 <= k)%Z) by lia.
  assert (HV : powerRZ 2 (D + ex - 1) <= FloatSpec.F2R (Zpos m') (ex + n + k)
               <= powerRZ 2 (D + ex)).
  { unfold FloatSpec.F2R.
    replace (ex + n + k)%Z with (k + (n + ex))%Z by lia.
    rewrite pow2R_add, <- (pow2R_IZR k) by assumption.
    rewrite <- Rmult_assoc, <- mult_IZR.
    replace (D + ex - 1)%Z with (52 + (n + ex))%Z by (unfold n; lia).
    replace (D + ex)%Z with (53 + (n + ex))%Z by (unfold n; lia).
    rewrite !pow2R_add, <- (pow2R_IZR 52), <- (pow2R_IZR 53) by lia.
    pose proof (pow2R_pos n). pose proof (pow2R_pos ex).
    assert (0 < powerRZ 2 n * powerRZ 2 ex) by nra.
    split; apply Rmult_le_compat_r; try lra; apply IZR_le; lia. }
  split; intros c Hc.
  - assert (Hlt : (D + ex - 1 < c)%Z) by (apply pow2R_lt_inv; lra).
    pose proof (pow2R_le (D + ex) c ltac:(lia)). lra.
  - assert (Hlt : (c < D + ex)%Z) by (apply pow2R_lt_inv; lra).
    pose proof (pow2R_le c (D + ex - 1) ltac:(lia)). lra.
Qed.

Lemma binary_round_53_binade s px ex :
  powerRZ 2 (-1022) <= FloatSpec.F2R (Zpos px) ex <= powerRZ 2 1021 ->
  exists m' e',
    binary_round 53 1024 s px ex = S754_finite s m' e' /\
    Zpos (digits2_pos m') = 53%Z /\
    (forall c, FloatSpec.F2R (Zpos px) ex < powerRZ 2 c ->
               FloatSpec.F2R (Zpos m') e' <= powerRZ 2 c) /\
    (forall c, powerRZ 2 c <= FloatSpec.F2R (Zpos px) ex ->
               powerRZ 2 c <= FloatSpec.F2R (Zpos m') e').
Proof.
  intros Hrange.
  pose proof (F2R_range px ex _ _ Hrange) as Hmu.
  unfold binary_round.
  rewrite fexp53_normal by lia.
  destruct (shl_align_spec px ex (Zpos (digits2_pos px) + ex - 53))
    as (mz & ez & -> & Hval & Hcase).
  rewrite <- Hval in Hrange |- *.
  apply binary_round_aux_53_binade; [|exact Hrange].
  destruct Hcase as [(Hlt & _ & Hd) | (Hle & -> & _)]; lia.
Qed.

(** The sum of two positive doubles stays within the binade of the exact
    sum. *)
Lemma add_positive_binade mx ex my ey :
  powerRZ 2 (-1022)
    <= FloatSpec.F2R (Zpos mx) ex + FloatSpec.F2R (Zpos my) ey <= powerRZ 2 1021 ->
  exists m' e',
    Float64.add (S754_finite false mx ex) (S754_finite false my ey)
    = S754_finite false m' e' /\
    Zpos (digits2_pos m') = 53%Z /\
    (forall c, FloatSpec.F2R (Zpos mx) ex + FloatSpec.F2R (Zpos my) ey < powerRZ 2 c ->
               FloatSpec.F2R (Zpos m') e' <= powerRZ 2 c) /\
    (forall c, powerRZ 2 c <= FloatSpec.F2R (Zpos mx) ex + FloatSpec.F2R (Zpos my) ey ->
               powerRZ 2 c <= FloatSpec.F2R (Zpos m') e').
Proof.
  intros Hrange.
  unfold Float64.add, Float64.prec, Float64.emax. cbn [SFadd cond_Zopp].
  destruct (shl_align_spec mx ex (Z.min ex ey)) as (a & ea & -> & Ha & Hca).
  destruct (shl_align_spec my ey (Z.min ex ey)) as (b & eb & -> & Hb & Hcb).
  cbn [fst].
  assert (Hea : ea = Z.min ex ey) by (destruct Hca as [(_ & -> & _) | (? & _ & ->)]; lia).
  assert (Heb : eb = Z.min ex ey) by (destruct Hcb as [(_ & -> & _) | (? & _ & ->)]; lia).
  subst ea eb.
  change (Zpos a + Zpos b)%Z with (Zpos (a + b)). cbn [binary_normalize].
  assert (Hsum : FloatSpec.F2R (Zpos (a + b)) (Z.min ex ey)
                 = FloatSpec.F2R (Zpos mx) ex + FloatSpec.F2R (Zpos my) ey).
  { rewrite <- Ha, <- Hb. unfold FloatSpec.F2R. rewrite Pos2Z.inj_add, plus_IZR. ring. }
  rewrite <- Hsum in Hrange |- *.
  apply binary_round_53_binade. exact Hrange.
Qed.

Lemma shl_align_same m e : shl_align m e e = (m, e).
Proof. unfold shl_align. rewrite Z.sub_diag. reflexivity. Qed.

Lemma shl_align_down m e e' :
  (e' < e)%Z ->
  exists a, shl_align m e e' = (a, e') /\ Zpos a = (Zpos m * 2 ^ (e - e'))%Z.
Proof.
  intros Hlt. unfold shl_align. destruct (e' - e)%Z as [|d|d] eqn:E; try lia.
  exists (Pos.iter xO m d). split; [reflexivity|].
  replace (e - e')%Z with (Zpos d) by lia. apply pos_iter_xO.
Qed.

(** Adding a double that is less than half a unit in the last place of a
    larger one leaves the larger one unchanged. *)
Lemma add_stagnates ma ea mt et :
  Zpos (digits2_pos ma) = 53%Z -> Zpos (digits2_pos mt) = 53%Z ->
  (et + 54 <= ea)%Z -> (-1074 <= ea <= 969)%Z ->
  Float64.add (S754_finite false ma ea) (S754_finite false mt et)
  = S754_finite false ma ea.
Proof.
  intros Hda Hdt Hgap Hea.
  unfold Float64.add, Float64.prec, Float64.emax. cbn [SFadd cond_Zopp].
  rewrite Z.min_r by lia.
  destruct (shl_align_down ma ea et ltac:(lia)) as (a & -> & Ha).
  rewrite shl_align_same. cbn [fst].
  change (Zpos a + Zpos mt)%Z with (Zpos (a + mt)). cbn [binary_normalize].
  pose proof (digits2_pos_bounds mt) as Ht. rewrite Hdt in Ht.
  pose proof (digits2_pos_bounds ma) as Hma. rewrite Hda in Hma.
  change (2 ^ (53 - 1))%Z with 4503599627370496%Z in Ht, Hma.
  change (2 ^ 53)%Z with 9007199254740992%Z in Ht, Hma.
  set (d := (ea - et)%Z) in *.
  assert (Hd : (54 <= d)%Z) by (unfold d; lia).
  set (P := (2 ^ (d - 1))%Z).
  assert (HP : (9007199254740992 <= P)%Z).
  { change 9007199254740992%Z with (2 ^ 53)%Z. apply Z.pow_le_mono_r; lia. }
  assert (H2P : (2 ^ d = 2 * P)%Z).
  { unfold P. rewrite <- Z.pow_succ_r by lia. f_equal. lia. }
  assert (Hpx : Zpos (a + mt) = (P * (2 * Zpos ma) + Zpos mt)%Z).
  { rewrite Pos2Z.inj_add, Ha, H2P. ring. }
  assert (HD : Zpos (digits2_pos (a + mt)) = (53 + d)%Z).
  { apply digits2_pos_unique.
    replace (53 + d - 1)%Z with (52 + d)%Z by lia.
    rewrite !Z.pow_add_r, H2P by lia.
    change (2 ^ 52)%Z with 4503599627370496%Z.
    change (2 ^ 53)%Z with 9007199254740992%Z. nia. }
  unfold binary_round.
  rewrite fexp53_normal by lia.
  destruct (shl_align_spec (a + mt) et (Zpos (digits2_pos (a + mt)) + et - 53))
    as (mz & ez & -> & _ & [(Hlt & _) | (_ & -> & ->)]); [lia|].
  rewrite binary_round_aux_53_down; try lia.
  - rewrite HD. replace (53 + d - 53)%Z with d by lia.
    assert (Hq : (Zpos (a + mt) / 2 ^ d = Zpos ma)%Z).
    { symmetry. apply (Z.div_unique _ _ _ (Zpos mt)); [left; lia|].
      rewrite Hpx, H2P. ring. }
    rewrite Hq. cbn [Z.to_pos]. f_equal. unfold d. lia.
  - rewrite HD. replace (53 + d - 54)%Z with (d - 1)%Z by lia.
    apply Z.testbit_false; [lia|]. fold P.
    assert (Hq : (Zpos (a + mt) / P = 2 * Zpos ma)%Z).
    { symmetry. apply (Z.div_unique _ _ _ (Zpos mt)); [left; lia|]. exact Hpx. }
    rewrite Hq, Z.mul_comm. apply Z.mod_mul. lia.
Qed.

(** One more square added to the running sum. *)
Lemma sum_step m e mt et :
  FloatSpec.bounded_sum (S754_finite false m e) ->
  Zpos (digits2_pos mt) = 53%Z ->
  powerRZ 2 (-301) <= FloatSpec.F2R (Zpos mt) et <= powerRZ 2 259 ->
  FloatSpec.bounded_sum
    (Float64.add (S754_finite false m e) (S754_finite false mt et)).
Proof.
  intros (m0 & e0 & Heq & Hd & Hlo & Hhi) Hdt [HTlo HThi].
  injection Heq as -> ->.
  set (A := FloatSpec.F2R (Zpos m0) e0) in *.
  set (T := FloatSpec.F2R (Zpos mt) et) in *.
  pose proof (pow2R_pos (-301)) as Hp301.
  assert (H314 : powerRZ 2 314 = 2 * powerRZ 2 313).
  { change 314%Z with (313 + 1)%Z. apply pow2R_succ. }
  assert (H259 : powerRZ 2 259 < powerRZ 2 313) by (apply pow2R_lt; lia).
  destruct (Rlt_le_dec A (powerRZ 2 313)) as [Hsmall | Hlarge].
  - destruct (add_positive_binade m0 e0 mt et) as (m' & e' & Hadd & Hd' & Hup & Hdown).
    { fold A T.
      pose proof (pow2R_le (-1022) (-301) ltac:(lia)).
      pose proof (pow2R_le 314 1021 ltac:(lia)). lra. }
    fold A T in Hup, Hdown.
    exists m', e'. split; [exact Hadd|]. split; [exact Hd'|]. split.
    + apply Hdown. lra.
    + apply Hup. lra.
  - rewrite add_stagnates; try assumption.
    + exists m0, e0. split; [reflexivity|]. split; [exact Hd|]. split; assumption.
    + pose proof (F2R_range m0 e0 313 314 (conj Hlarge Hhi)) as HeA.
      pose proof (F2R_range mt et (-301) 259 (conj HTlo HThi)) as HeT.
      lia.
    + pose proof (F2R_range m0 e0 313 314 (conj Hlarge Hhi)) as HeA. lia.
Qed.

Lemma finite32_cases x :
  FloatSpec.finite32 x ->
  SearchSpec.is_zero x \/ exists s m e, Float32.value x = S754_finite s m e.
Proof.
  unfold FloatSpec.finite32, SearchSpec.is_zero.
  destruct (Float32.value x) as [s|s| |s m e]; intros H; try contradiction.
  - left. exists s. reflexivity.
  - right. exists s, m, e. reflexivity.
Qed.

Lemma sum_squares_bounded : forall v acc,
  Forall FloatSpec.finite32 v ->
  FloatSpec.bounded_sum acc ->
  FloatSpec.bounded_sum (FloatSpec.sum_squares acc v).
Proof.
  induction v as [|x v IH]; intros acc Hfin Hacc; [exact Hacc|].
  inversion Hfin as [|x' v' Hx Hv]; subst.
  cbn [FloatSpec.sum_squares]. apply IH; [exact Hv|].
  destruct (finite32_cases x Hx) as [Hz | (s & m & e & Hval)].
  - rewrite (square_of_zero x Hz), add_zero_right; [exact Hacc|].
    right. destruct Hacc as (m & e & -> & _). do 2 eexists; reflexivity.
  - destruct (square_of_finite x s m e Hval) as (mt & et & Hsq & Hdt & HT).
    rewrite Hsq.
    destruct Hacc as (ma & ea & -> & Hacc).
    apply sum_step; try assumption.
    exists ma, ea. split; [reflexivity | exact Hacc].
Qed.

Lemma sum_squares_from_zero : forall v,
  Forall FloatSpec.finite32 v -> ~ Forall SearchSpec.is_zero v ->
  FloatSpec.bounded_sum (FloatSpec.sum_squares (S754_zero false) v).
Proof.
  induction v as [|x v IH]; intros Hfin Hnz.
  - exfalso. apply Hnz. constructor.
  - inversion Hfin as [|x' v' Hx Hv]; subst.
    cbn [FloatSpec.sum_squares].
    destruct (finite32_cases x Hx) as [Hz | (s & m & e & Hval)].
    + rewrite (square_of_zero x Hz).
      change (Float64.add (S754_zero false) (S754_zero false)) with (S754_zero false).
      apply IH; [exact Hv|].
      intros Hall. apply Hnz. constructor; assumption.
    + destruct (square_of_finite x s m e Hval) as (mt & et & Hsq & Hdt & HTlo & HThi).
      rewrite Hsq.
      change (Float64.add (S754_zero false) (S754_finite false mt et))
        with (S754_finite false mt et).
      apply sum_squares_bounded; [exact Hv|].
      exists mt, et. split; [reflexivity|]. split; [exact Hdt|].
      pose proof (pow2R_le 259 314 ltac:(lia)). split; lra.
Qed.

(** For a vector of finite floats that are not all zero, cosineSim(v, v) is
    exactly 1.0f. *)
Lemma cosineSim_self_is_one v :
  Forall FloatSpec.finite32 v -> ~ Forall SearchSpec.is_zero v ->
  VectorIndex.cosineSim v v = FloatSpec.one32.
Proof.
  intros Hfin Hnz.
  unfold VectorIndex.cosineSim.
  rewrite Nat.eqb_refl. cbn [negb orb].
  destruct v as [|x0 v0] eqn:Ev; [exfalso; apply Hnz; constructor|].
  rewrite <- Ev in *. replace (List.length v =? 0)%nat with false
    by (rewrite Ev; reflexivity).
  rewrite cosineSim_loop_self.
  destruct (sum_squares_from_zero v Hfin Hnz) as (m & e & Hs & Hd & Hr).
  unfold Float64.zero. rewrite Hs.
  change (Float64.eqb (S754_finite false m e) (S754_zero false)) with false.
  cbn [orb].
  apply self_ratio_is_one; [exact Hd|].
  pose proof (F2R_range m e _ _ Hr) as He. rewrite Hd in He. lia.
Qed.

End RoundingFacts.

(** ** cosineSim *)

(** C8. cosineSim returns exactly 0.0f when the two vectors differ in length,
    when either is empty, and when either has only zero components (the
    vectors of zero norm); and for every vector v of finite floats that are
    not all zero, cosineSim(v, v) is exactly 1.0f, each double operation
    being rounded to nearest, ties to even. *)
Theorem C8_cosine_zero_cases_and_self_similarity :
  (forall a b, List.length a <> List.length b ->
               VectorIndex.cosineSim a b = Float32.zero) /\
  (forall a b, a = [] \/ b = [] -> VectorIndex.cosineSim a b = Float32.zero) /\
  (forall a b, Forall SearchSpec.is_zero a \/ Forall SearchSpec.is_zero b ->
               VectorIndex.cosineSim a b = Float32.zero) /\
  (forall v, Forall FloatSpec.finite32 v ->
             ~ Forall SearchSpec.is_zero v ->
             VectorIndex.cosineSim v v = FloatSpec.one32).
Proof.
  split; [exact cosineSim_length_mismatch|].
  split.
  { intros a b [-> | ->]; [apply cosineSim_empty_left | apply cosineSim_empty_right]. }
  split.
  { intros a b [Ha | Hb];
      [apply cosineSim_zero_vector_left | apply cosineSim_zero_vector_right];
      assumption. }
  exact cosineSim_self_is_one.
Qed.


(** ** The statements at sample inputs *)

Lemma sample_build : VectorIndex.build Sample.docs Sample.embeddings = Ok Sample.entries.
Proof. reflexivity. Qed.

Lemma sample_strict_weak :
  PartialSort.strict_weak_on Search.comp
    (Search.scored_of Sample.query Sample.entries).
Proof. apply strict_weak_onb_sound. vm_compute. reflexivity. Qed.

(** With libstdc++ the two entries of equal score come out in the reverse
    of their insertion order, which the contract of partial_sort allows. *)
Lemma sample_search_gnu :
  Search.search_gnu Sample.entries Sample.query 3
  = Some (Ok [Sample.doc2; Sample.doc1; Sample.doc0]).
Proof. vm_compute. reflexivity. Qed.

Lemma sample_scores :
  Search.scored_of Sample.query Sample.entries
  = [(Float32.zero, 0); (Sample.score_one, 1); (Sample.score_one, 2)].
Proof. vm_compute. reflexivity. Qed.

Lemma sample_search_unstable :
  Search.search Sample.entries Sample.query 3
                (Ok [Sample.doc2; Sample.doc1; Sample.doc0]).
Proof.
  assert (H : Search.search Sample.entries Sample.query 3
                (Ok (Search.docs_of Sample.entries
                       (firstn (Z.to_nat (Search.clamp 3 (List.length Sample.entries)))
                               [(Sample.score_one, 2); (Sample.score_one, 1);
                                (Float32.zero, 0)])))).
  { apply Search.search_ranked.
    - discriminate.
    - vm_compute. split; discriminate.
    - assert (Hperm : Permutation
                        (Search.scored_of Sample.query Sample.entries)
                        [(Sample.score_one, 2); (Sample.score_one, 1);
                         (Float32.zero, 0)]).
      { rewrite sample_scores.
        apply (perm_trans (l' := [(Sample.score_one, 1); (Sample.score_one, 2);
                                  (Float32.zero, 0)])).
        * apply (Permutation_cons_append
                   [(Sample.score_one, 1); (Sample.score_one, 2)] (Float32.zero, 0)).
        * apply perm_swap. }
      split; [exact Hperm|]. intros _. split; [exact Hperm|]. split.
      + repeat constructor.
      + intros x y Hx Hy. vm_compute in Hy. contradiction. }
  exact H.
Qed.

(** C1, counterexample: doc-1 and doc-2 both score 1.0f, and a result of
    search (the one libstdc++ computes) lists doc-2 before doc-1, whereas the
    selection with ties in insertion order lists doc-1 first: the results of
    search are not all the stable selection. *)
Lemma C1_counterexample_equal_scores_out_of_order :
  Search.scored_of Sample.query Sample.entries
  = [(Float32.zero, 0); (Sample.score_one, 1); (Sample.score_one, 2)] /\
  SearchSpec.stable_top_k Sample.entries Sample.query 3
  = [Sample.doc1; Sample.doc2; Sample.doc0] /\
  Search.search_gnu Sample.entries Sample.query 3
  = Some (Ok [Sample.doc2; Sample.doc1; Sample.doc0]) /\
  ~ (forall r, Search.search Sample.entries Sample.query 3 r ->
               r = Ok (SearchSpec.stable_top_k Sample.entries Sample.query 3)).
Proof.
  split; [exact sample_scores|]. split; [vm_compute; reflexivity|].
  split; [exact sample_search_gnu|].
  intros Hall. specialize (Hall _ sample_search_unstable).
  vm_compute in Hall. discriminate.
Qed.

(** A NaN among the scores: the store scores 0.0f, NaN and 1.0f, the
    comparison is no strict weak ordering on them, and the result libstdc++
    computes for topK = 2, doc-0 and doc-1, leaves out the entry of the
    highest score; it is an outcome of search all the same. *)
Lemma sample_search_with_nan :
  map fst (Search.scored_of Sample.query Sample.nan_entries)
  = [Float32.zero; S754_nan; Sample.score_one] /\
  ~ PartialSort.strict_weak_on Search.comp
      (Search.scored_of Sample.query Sample.nan_entries) /\
  Search.search_gnu Sample.nan_entries Sample.query 2
  = Some (Ok [Sample.doc0; Sample.doc1]) /\
  Search.search Sample.nan_entries Sample.query 2
                (Ok [Sample.doc0; Sample.doc1]).
Proof.
  assert (Hnot : ~ PartialSort.strict_weak_on Search.comp
                     (Search.scored_of Sample.query Sample.nan_entries)).
  { intros [_ Htrans].
    destruct (Htrans (Sample.score_one, 2) (Float32.zero, 0) (S754_nan, 1)) as [H | H];
      try (vm_compute; tauto); vm_compute in H; discriminate. }
  split; [vm_compute; reflexivity|]. split; [exact Hnot|].
  split; [vm_compute; reflexivity|].
  assert (H : Search.search Sample.nan_entries Sample.query 2
                (Ok (Search.docs_of Sample.nan_entries
                       (firstn (Z.to_nat (Search.clamp 2 (List.length Sample.nan_entries)))
                               (Search.scored_of Sample.query Sample.nan_entries))))).
  { apply Search.search_ranked.
    - discriminate.
    - vm_compute. split; discriminate.
    - split; [apply Permutation_refl|]. intros Hswo. contradiction. }
  exact H.
Qed.

(** C1 at the sample index, with topK = 5 above its three entries. *)
Lemma C1_witness :
  Sample.entries <> [] /\
  (Z.of_nat (List.length Sample.entries) <= int_max)%Z /\
  (0 <= 5)%Z /\
  (forall r, Search.search Sample.entries Sample.query 5 r ->
     exists ranked docs,
       r = Ok docs /\
       List.length docs = 3 /\
       Forall2 (fun p d => exists e, nth_error Sample.entries (snd p) = Some e /\
                                     doc e = d /\
                                     fst p = VectorIndex.cosineSim Sample.query
                                                                   (embedding e))
               ranked docs /\
       NoDup (map snd ranked) /\
       SearchSpec.descending ranked /\
       (forall p r0, In p (Search.scored_of Sample.query Sample.entries) ->
                     ~ In p ranked -> In r0 ranked ->
                     Float32.gt (fst p) (fst r0) = false)) /\
  exists res, Search.search Sample.entries Sample.query 5 (Ok res).
Proof.
  assert (H1 : Sample.entries <> []) by discriminate.
  assert (H2 : (Z.of_nat (List.length Sample.entries) <= int_max)%Z)
    by (vm_compute; discriminate).
  assert (H3 : (0 <= 5)%Z) by lia.
  assert (Hnan : forall p, In p (Search.scored_of Sample.query Sample.entries) ->
                           fst p <> S754_nan).
  { rewrite sample_scores. intros p [<- | [<- | [<- | []]]]; discriminate. }
  split; [exact H1|]. split; [exact H2|]. split; [exact H3|].
  destruct (C1_search_returns_top_k_descending
              Sample.entries Sample.query 5 H1 H2 H3) as (Hall & _ & Hex).
  split; [|exact (Hex Hnan)].
  intros r Hr.
  destruct (Hall r Hr) as (ranked & docs & Hok & Hlen & Hdocs & Hnd & Hord).
  exists ranked, docs.
  split; [exact Hok|]. split; [exact Hlen|]. split; [exact Hdocs|].
  split; [exact Hnd|]. exact (Hord Hnan).
Defined.

(** C10, counterexample: the sample store is one that build produces, the
    query has the wrong dimension, and for topK = -1 search has no outcome
    at all: the clamp lets a negative topK through, and partial_sort is
    called with its middle in front of the range.  So it is with topK = 3 on
    a store of INT_MAX + 1 entries, built from as many copies of a chunk:
    the size read as an int is negative, and the clamp hands it on. *)
Lemma C10_counterexample_outside_int_range :
  (VectorIndex.build Sample.docs Sample.embeddings = Ok Sample.entries /\
   List.length Sample.short_query <> VectorIndex.refDim_of Sample.embeddings /\
   Search.clamp (-1) (List.length Sample.entries) = (-1)%Z /\
   ~ (exists r, Search.search Sample.entries Sample.short_query (-1) r)) /\
  (let n := Z.to_nat (int_max + 1) in
   let e := mkIndexEntry Sample.doc0 [Sample.zero; Sample.one] in
   VectorIndex.build (repeat Sample.doc0 n) (repeat [Sample.zero; Sample.one] n)
   = Ok (repeat e n) /\
   List.length Sample.short_query
   <> VectorIndex.refDim_of (repeat [Sample.zero; Sample.one] n) /\
   Z.of_nat (List.length (repeat e n)) = (int_max + 1)%Z /\
   ~ (exists r, Search.search (repeat e n) Sample.short_query 3 r)).
Proof.
  split.
  - split; [reflexivity|]. split; [vm_compute; discriminate|].
    split; [reflexivity|].
    intros [r Hr]. revert Hr. apply search_negative_topK; [discriminate | lia].
  - intros n e.
    assert (Hn : Z.of_nat n = (int_max + 1)%Z).
    { unfold n, int_max. rewrite Z2Nat.id; lia. }
    assert (Hlen : Z.of_nat (List.length (repeat e n)) = (int_max + 1)%Z).
    { rewrite repeat_length. exact Hn. }
    assert (Hpos : 0 < n) by (unfold int_max in Hn; lia).
    clearbody n.
    split; [apply build_repeat; [exact Hpos | discriminate]|].
    split.
    { destruct n as [|m]; [lia|]. cbn [repeat VectorIndex.refDim_of].
      cbn. discriminate. }
    split; [exact Hlen|].
    intros [r Hr]. revert Hr. apply search_beyond_int_max; [exact Hlen | lia].
Qed.

(** C10 at the sample index, with a one-dimensional query and topK = 5
    above its three entries. *)
Lemma C10_witness :
  List.length Sample.short_query <> VectorIndex.refDim_of Sample.embeddings /\
  (forall e, In e Sample.entries ->
             VectorIndex.cosineSim Sample.short_query (embedding e) = Float32.zero) /\
  (exists res, Search.search Sample.entries Sample.short_query 5 (Ok res)) /\
  (forall r, Search.search Sample.entries Sample.short_query 5 r ->
     exists positions res,
       r = Ok res /\
       List.length res = 3 /\
       NoDup positions /\
       Forall2 (fun i d => exists e, nth_error Sample.entries i = Some e /\ doc e = d)
               positions res).
Proof.
  assert (Hq : List.length Sample.short_query <> VectorIndex.refDim_of Sample.embeddings)
    by (vm_compute; discriminate).
  split; [exact Hq|].
  apply (C10_search_with_mismatched_query
           Sample.docs Sample.embeddings Sample.entries Sample.short_query 5).
  - reflexivity.
  - exact Hq.
  - vm_compute. discriminate.
  - lia.
Defined.

(** C5 at three chunks of which one has a usable embedding. *)
Lemma C5_witness :
  VectorIndex.build Sample.docs [[]; [Sample.one; Sample.zero]; []]
  = Ok [mkIndexEntry Sample.doc1 [Sample.one; Sample.zero]] /\
  VectorIndex.build Sample.docs [[]; []; []] = Throw "All embeddings are empty.".
Proof.
  split.
  - destruct (C5_build_filters_by_reference_dimension
                Sample.docs [[]; [Sample.one; Sample.zero]; []])
      as (_ & Hsome & _ & _).
    + discriminate.
    + reflexivity.
    + destruct Hsome as [_ Hb].
      * intros Hall. inversion Hall as [|? ? _ Hall']. inversion Hall' as [|? ? Hnil _].
        discriminate.
      * exact Hb.
  - apply (C5_build_filters_by_reference_dimension Sample.docs [[]; []; []]).
    + discriminate.
    + reflexivity.
    + repeat constructor.
Defined.


(** C4, counterexample: the file announces two entries of one float and
    holds six bytes of payload, fewer than 8 + 2*1*4 bytes in all; loading
    succeeds, and the second embedding is half read and half zero. *)
Lemma C4_counterexample_short_file_is_loaded :
  match indexFile Sample.truncated_disk with
  | Some bytes => List.length bytes < 8 + 2 * 1 * 4
  | None => False
  end /\
  Persist.loadFromDisk Sample.truncated_disk
  = Ok [mkIndexEntry Sample.doc0 [Float32.of_bits 67305985];
        mkIndexEntry Sample.doc1 [Float32.of_bits 1541]] /\
  ~ (exists what, Persist.loadFromDisk Sample.truncated_disk = Throw what).
Proof.
  split; [vm_compute; lia|].
  assert (H : Persist.loadFromDisk Sample.truncated_disk
              = Ok [mkIndexEntry Sample.doc0 [Float32.of_bits 67305985];
                    mkIndexEntry Sample.doc1 [Float32.of_bits 1541]])
    by (vm_compute; reflexivity).
  split; [exact H|].
  intros [what Hw]. rewrite H in Hw. discriminate.
Qed.

(** C4 at the truncated sample file. *)
Lemma C4_witness :
  exists entries,
    Persist.loadFromDisk Sample.truncated_disk = Ok entries /\
    map doc entries = [Sample.doc0; Sample.doc1] /\
    Forall (fun e => List.length (embedding e) = 1) entries /\
    flat_map LoadSpec.block_bytes entries
    = Sample.truncated_payload ++ repeat zero_byte 2.
Proof.
  apply (C4_truncated_payload_loads_zero_filled
           2 1 Sample.truncated_payload
           [mkIndexEntry Sample.doc0 []; mkIndexEntry Sample.doc1 []]
           Sample.truncated_disk).
  - vm_compute. discriminate.
  - vm_compute. discriminate.
  - reflexivity.
  - vm_compute. lia.
  - reflexivity.
  - reflexivity.
Defined.

(** C2 (the code exceeds the limit). Three retrieved chunks of 1000
    characters from a file whose path has 200 characters are each cut to 800
    characters plus the marker and all three are emitted: 3 * (203 + 803) =
    3018 characters.  Four chunks of 800 characters from data/a.txt give
    three whole pieces and a fourth cut to the 561 characters that remained,
    with the marker and the prefix on top: 3016 characters. *)
Theorem C2_context_exceeds_total_limit :
  String.length (sourcePath Sample.long_path_doc) = 200 /\
  map String.length
      (SentraEngine.build_context
         [Sample.long_path_doc; Sample.long_path_doc; Sample.long_path_doc])
  = [1006; 1006; 1006] /\
  SentraEngine.total_length
    (SentraEngine.build_context
       [Sample.long_path_doc; Sample.long_path_doc; Sample.long_path_doc])
  = 3018 /\
  map String.length
      (SentraEngine.build_context
         [Sample.full_doc; Sample.full_doc; Sample.full_doc; Sample.full_doc])
  = [813; 813; 813; 577] /\
  SentraEngine.total_length
    (SentraEngine.build_context
       [Sample.full_doc; Sample.full_doc; Sample.full_doc; Sample.full_doc])
  = 3016 /\
  SentraEngine.MAX_TOTAL_CHARS < 3016.
Proof.
  repeat split; try (vm_compute; reflexivity).
  unfold SentraEngine.MAX_TOTAL_CHARS. lia.
Qed.

(** C6 (the code does not cut the piece to fit). With three chunks of 1000
    characters from a file whose path has 200 characters, two pieces leave
    988 characters of budget; the third piece has 1006 characters and is
    emitted whole, since the test of the loop counts its 803 characters of
    text only.  With four chunks of 800 characters from data/a.txt, three
    pieces leave 561 characters; the text of the fourth is cut to 561
    characters, and the marker and the tag come on top: the piece emitted has
    577 characters, not the 561 that remained. *)
Theorem C6_boundary_piece_overruns_budget :
  let d := Sample.long_path_doc in
  let whole := SentraEngine.decorate d (SentraEngine.per_chunk_cap (content d)) in
  let f := Sample.full_doc in
  let piece := SentraEngine.decorate f (content f) in
  let last := SentraEngine.decorate f
                (String.substring 0 561 (content f) ++ SentraEngine.ellipsis) in
  SentraEngine.context_loop [d; d] 0 [] = ([whole; whole], 2012) /\
  SentraEngine.MAX_TOTAL_CHARS - 2012 = 988 /\
  String.length whole = 1006 /\
  SentraEngine.context_loop [d; d; d] 0 [] = ([whole; whole; whole], 3018) /\
  SentraEngine.context_loop [f; f; f] 0 [] = ([piece; piece; piece], 2439) /\
  SentraEngine.MAX_TOTAL_CHARS - 2439 = 561 /\
  SentraEngine.context_loop [f; f; f; f] 0 [] = ([piece; piece; piece; last], 3016) /\
  String.length last = 577.
Proof.
  repeat split; vm_compute; reflexivity.
Qed.

(** Three pieces of exactly 1000 characters use the budget up; the fourth
    chunk leaves no trace. *)
Lemma sample_budget_exactly_spent :
  let d := mkDocument "doc-0" (Sample.replicate 197 "p"%char)
                      (Sample.replicate 800 "a"%char) in
  SentraEngine.context_loop [d; d; d; d] 0 []
  = (SentraEngine.build_context [d; d; d], 3000).
Proof. vm_compute. reflexivity. Qed.

(** C9 at a single chunk of 1000 characters. *)
Lemma C9_witness :
  String.length (content Sample.long_doc) = 1000 /\
  String.length
    (String.substring 0 SentraEngine.MAX_CHARS_PER_CHUNK (content Sample.long_doc))
  = 800 /\
  SentraEngine.build_context [Sample.long_doc]
  = [("[data/a.txt]" ++ String Chunker.newline EmptyString
        ++ Sample.replicate 800 "a"%char ++ "...")%string].
Proof.
  split; [vm_compute; reflexivity|].
  destruct (C9_per_chunk_limit Sample.long_doc) as (Hlen & _ & _ & Hone).
  - vm_compute. lia.
  - split; [exact Hlen|]. rewrite Hone. vm_compute. reflexivity.
Defined.

(** C7 at a directory of two text files and a sub-directory. *)
Lemma C7_witness :
  Chunker.loadDocuments "data" (Some Sample.corpus)
  = Some (Ok [mkDocument "doc-0" "data/a.txt" "A";
              mkDocument "doc-1" "data/a.txt" "B";
              mkDocument "doc-2" "data/a.txt" "C";
              mkDocument "doc-3" "data/b.txt" "D"]).
Proof.
  destruct (C7_load_documents_chunks_and_ids "data" Sample.corpus) as [Hload _].
  - unfold Sample.corpus.
    repeat (apply Forall_cons;
            [intros H; first [discriminate H | intros Hf; discriminate Hf]|]).
    apply Forall_nil.
  - vm_compute. discriminate.
  - rewrite Hload. vm_compute. reflexivity.
Defined.

(** cosineSim on a few vectors: (1, 2, 3) against itself gives 1.0f; an
    infinite component gives a NaN. *)
Lemma sample_cosine_values :
  VectorIndex.cosineSim
    [Sample.one; Sample.two; Float32.of_bits 1077936128]
    [Sample.one; Sample.two; Float32.of_bits 1077936128] = Sample.score_one /\
  VectorIndex.cosineSim [Float32.of_bits 2139095040] [Float32.of_bits 2139095040]
  = S754_nan /\
  VectorIndex.cosineSim [Sample.zero; Sample.zero] [Sample.one; Sample.two]
  = Float32.zero.
Proof. repeat split; vm_compute; reflexivity. Qed.

(** The vector with the single component +infinity is not the zero vector,
    and its cosine with itself is a NaN, which compares with no number. *)
Lemma C8_counterexample_infinite_component :
  ~ Forall SearchSpec.is_zero [Sample.infinity] /\
  VectorIndex.cosineSim [Sample.infinity] [Sample.infinity] = S754_nan /\
  SFcompare (VectorIndex.cosineSim [Sample.infinity] [Sample.infinity])
            FloatSpec.one32 = None.
Proof.
  split.
  - intros H. inversion H as [|x l [s Hs] Hl]. vm_compute in Hs. discriminate Hs.
  - split; vm_compute; reflexivity.
Qed.

(** C8 at the vector (0.1, 2, 3), and at one input for each way of
    scoring 0. *)
Lemma C8_witness :
  (List.length [Sample.one] <> List.length [Sample.one; Sample.two] /\
   VectorIndex.cosineSim [Sample.one] [Sample.one; Sample.two] = Float32.zero) /\
  VectorIndex.cosineSim [] [Sample.one] = Float32.zero /\
  (Forall SearchSpec.is_zero [Sample.zero; Sample.zero] /\
   VectorIndex.cosineSim [Sample.zero; Sample.zero] [Sample.one; Sample.two]
   = Float32.zero) /\
  Forall FloatSpec.finite32 [Sample.tenth; Sample.two; Sample.three] /\
  ~ Forall SearchSpec.is_zero [Sample.tenth; Sample.two; Sample.three] /\
  VectorIndex.cosineSim [Sample.tenth; Sample.two; Sample.three]
                        [Sample.tenth; Sample.two; Sample.three] = FloatSpec.one32.
Proof.
  destruct C8_cosine_zero_cases_and_self_similarity
    as (Hlen & Hempty & Hzero & Hself).
  assert (H0 : List.length [Sample.one] <> List.length [Sample.one; Sample.two])
    by (simpl; lia).
  assert (Hz : Forall SearchSpec.is_zero [Sample.zero; Sample.zero])
    by (repeat (apply Forall_cons; [exists false; vm_compute; reflexivity|]);
        apply Forall_nil).
  assert (H1 : Forall FloatSpec.finite32 [Sample.tenth; Sample.two; Sample.three])
    by (repeat (apply Forall_cons; [vm_compute; exact I|]); apply Forall_nil).
  assert (H2 : ~ Forall SearchSpec.is_zero [Sample.tenth; Sample.two; Sample.three]).
  { intros H. inversion H as [|x l [s Hs] Hl]. vm_compute in Hs. discriminate Hs. }
  split; [split; [exact H0 | exact (Hlen _ _ H0)]|].
  split; [exact (Hempty [] [Sample.one] (or_introl eq_refl))|].
  split; [split; [exact Hz | exact (Hzero _ [Sample.one; Sample.two] (or_introl Hz))]|].
  split; [exact H1|]. split; [exact H2|].
  exact (Hself _ H1 H2).
Defined.
(** ** cosineSim is symmetric *)

Lemma SFmul_comm prec emax x y : SFmul prec emax x y = SFmul prec emax y x.
Proof.
  destruct x as [sx|sx| |sx mx ex], y as [sy|sy| |sy my ey]; cbn [SFmul];
    try reflexivity; try (rewrite xorb_comm; reflexivity).
  rewrite xorb_comm, Pos.mul_comm, Z.add_comm. reflexivity.
Qed.

Lemma cosineSim_loop_swap : forall a b dot na nb,
  List.length a = List.length b ->
  VectorIndex.cosineSim_loop b a dot nb na
  = (let '(d, x, y) := VectorIndex.cosineSim_loop a b dot na nb in (d, y, x)).
Proof.
  induction a as [|x a IH]; intros [|y b] dot na nb Hlen; try discriminate Hlen;
    [reflexivity|].
  cbn [VectorIndex.cosineSim_loop]. cbv zeta.
  rewrite IH by (injection Hlen; auto).
  unfold Float64.mul.
  rewrite (SFmul_comm _ _ (Float64.of_float (Float32.value y))
                          (Float64.of_float (Float32.value x))).
  reflexivity.
Qed.

Lemma cosineSim_comm a b : VectorIndex.cosineSim a b = VectorIndex.cosineSim b a.
Proof.
  unfold VectorIndex.cosineSim.
  destruct (Nat.eq_dec (List.length a) (List.length b)) as [Hlen | Hne].
  - rewrite <- Hlen, Nat.eqb_refl. cbn [negb orb].
    destruct (List.length a =? 0); [reflexivity|].
    rewrite (cosineSim_loop_swap a b _ _ _ Hlen).
    destruct (VectorIndex.cosineSim_loop a b Float64.zero Float64.zero Float64.zero)
      as [[dot na] nb].
    rewrite (orb_comm (Float64.eqb nb Float64.zero)).
    destruct (Float64.eqb na Float64.zero || Float64.eqb nb Float64.zero);
      [reflexivity|].
    unfold Float64.mul.
    rewrite (SFmul_comm _ _ (Float64.sqrt nb)). reflexivity.
  - assert (H1 : (List.length a =? List.length b) = false) by (apply Nat.eqb_neq; exact Hne).
    assert (H2 : (List.length b =? List.length a) = false)
      by (apply Nat.eqb_neq; intros E; apply Hne; symmetry; exact E).
    rewrite H1, H2. reflexivity.
Qed.

(** ** search without ties *)

Section FrontUnique.
Context {T : Type} (comp : T -> T -> bool).

(** The front of a partial sort, read on the output alone. *)
Lemma post_front_tail k x l :
  StronglySorted (PartialSort.not_after comp) (firstn (S k) (x :: l)) ->
  (forall a b, In a (firstn (S k) (x :: l)) -> In b (skipn (S k) (x :: l)) ->
               PartialSort.not_after comp a b) ->
  (forall y, In y l -> PartialSort.not_after comp x y) /\
  StronglySorted (PartialSort.not_after comp) (firstn k l) /\
  (forall a b, In a (firstn k l) -> In b (skipn k l) ->
               PartialSort.not_after comp a b).
Proof.
  cbn [firstn skipn]. intros Hs Hrest.
  inversion Hs as [|x' l' Hs' Hx]; subst.
  split; [|split].
  - intros y Hy. rewrite <- (firstn_skipn k l) in Hy.
    apply in_app_or in Hy. destruct Hy as [Hy | Hy].
    + rewrite Forall_forall in Hx. apply Hx. exact Hy.
    + apply Hrest; [left; reflexivity | exact Hy].
  - exact Hs'.
  - intros a b Ha Hb. apply Hrest; [right; exact Ha | exact Hb].
Qed.

(** Two rearrangements of the same distinct elements whose fronts are sorted
    and ahead of the rest have the same front, when comp separates any two
    distinct elements. *)
Lemma front_unique : forall k l1 l2,
  NoDup l1 -> Permutation l1 l2 ->
  (forall x y, In x l1 -> In y l1 -> x <> y -> comp x y = true \/ comp y x = true) ->
  StronglySorted (PartialSort.not_after comp) (firstn k l1) ->
  (forall a b, In a (firstn k l1) -> In b (skipn k l1) ->
               PartialSort.not_after comp a b) ->
  StronglySorted (PartialSort.not_after comp) (firstn k l2) ->
  (forall a b, In a (firstn k l2) -> In b (skipn k l2) ->
               PartialSort.not_after comp a b) ->
  firstn k l1 = firstn k l2.
Proof.
  induction k as [|k IH]; intros l1 l2 Hnd Hperm Htot Hs1 Hr1 Hs2 Hr2;
    [reflexivity|].
  destruct l1 as [|x l1], l2 as [|y l2].
  - reflexivity.
  - apply Permutation_nil in Hperm. discriminate Hperm.
  - symmetry in Hperm. apply Permutation_nil in Hperm. discriminate Hperm.
  - destruct (post_front_tail k x l1 Hs1 Hr1) as (Hx & Hs1' & Hr1').
    destruct (post_front_tail k y l2 Hs2 Hr2) as (Hy & Hs2' & Hr2').
    assert (Hxy : x = y).
    { assert (Hin : In y (x :: l1))
        by (apply (Permutation_in _ (Permutation_sym Hperm)); left; reflexivity).
      destruct Hin as [E | Hin]; [exact E|].
      assert (Hin' : In x (y :: l2))
        by (apply (Permutation_in _ Hperm); left; reflexivity).
      destruct Hin' as [E | Hin']; [symmetry; exact E|].
      assert (Hne : x <> y).
      { intros E. subst y. inversion Hnd; contradiction. }
      pose proof (Hx y Hin) as H1. pose proof (Hy x Hin') as H2.
      unfold PartialSort.not_after in H1, H2.
      destruct (Htot x y (or_introl eq_refl) (or_intror Hin) Hne) as [H | H];
        congruence. }
    subst y. cbn [firstn]. f_equal.
    inversion Hnd as [|x' l' Hnin Hnd']; subst.
    apply IH; try assumption.
    + apply Permutation_cons_inv with x. exact Hperm.
    + intros a b Ha Hb. apply Htot; right; assumption.
Qed.

End FrontUnique.

Lemma scored_of_NoDup q entries : NoDup (Search.scored_of q entries).
Proof.
  apply (NoDup_map_inv snd). unfold Search.scored_of.
  rewrite scored_from_snd. apply seq_NoDup.
Qed.

Lemma gt_not_nan a b : Float32.gt a b = true -> a <> S754_nan /\ b <> S754_nan.
Proof.
  unfold Float32.gt, SFltb. intros H.
  destruct a as [| | |], b as [| | |]; cbn [SFcompare] in H;
    try discriminate H; split; discriminate.
Qed.

Lemma spec_float_eq_dec (a b : spec_float) : {a = b} + {a <> b}.
Proof.
  decide equality; try apply Bool.bool_dec; try apply Z.eq_dec; apply Pos.eq_dec.
Qed.

Lemma scored_eq_dec (p p' : Search.scored_t) : {p = p'} + {p <> p'}.
Proof.
  decide equality; [apply Nat.eq_dec | apply spec_float_eq_dec].
Qed.

Lemma comp_strict_weak_when_total (l : list Search.scored_t) :
  (forall p p', In p l -> In p' l -> p <> p' ->
                Search.comp p p' = true \/ Search.comp p' p = true) ->
  PartialSort.strict_weak_on Search.comp l.
Proof.
  intros Htot. split.
  - intros x y _ _. apply gt_asym.
  - intros x y z Hx Hy Hz Hxy.
    unfold Search.comp in *.
    destruct (scored_eq_dec z y) as [E | Hne].
    + subst z. left. exact Hxy.
    + apply gt_neg_trans; [|exact Hxy].
      destruct (Htot z y Hz Hy Hne) as [H | H]; apply gt_not_nan in H; tauto.
Qed.

(** When the scores are pairwise different under the comparison of search
    (no tie and no NaN), search has one possible result. *)
Lemma search_without_ties entries q topK r :
  entries <> [] ->
  (forall p p', In p (Search.scored_of q entries) ->
                In p' (Search.scored_of q entries) -> p <> p' ->
                Search.comp p p' = true \/ Search.comp p' p = true) ->
  Search.search entries q topK r ->
  r = Ok (SearchSpec.stable_top_k entries q topK).
Proof.
  intros Hne0 Htot Hsearch.
  inversion Hsearch as [Hnil | sorted Hne Hk (Hperm & Hpost)]; subst;
    [contradiction|].
  unfold SearchSpec.stable_top_k. do 2 f_equal.
  set (k := Z.to_nat (Search.clamp topK (List.length entries))) in *.
  set (scored := Search.scored_of q entries) in *.
  assert (Hsw : PartialSort.strict_weak_on Search.comp scored)
    by (apply comp_strict_weak_when_total; exact Htot).
  destruct (Hpost Hsw) as (_ & Hs & Hr).
  destruct (insertion_sort_post Search.comp k scored Hsw) as (Hperm' & Hs' & Hr').
  apply (front_unique Search.comp k sorted
           (PartialSort.insertion_sort Search.comp scored)).
  - apply (Permutation_NoDup Hperm). apply scored_of_NoDup.
  - apply Permutation_trans with scored; [apply Permutation_sym; exact Hperm | exact Hperm'].
  - intros x y Hx Hy. apply Htot;
      apply (Permutation_in _ (Permutation_sym Hperm)); assumption.
  - exact Hs.
  - exact Hr.
  - exact Hs'.
  - exact Hr'.
Qed.

(** ** loadFromDisk on any file *)

Lemma le_split_zero : le_split 4 0 = repeat zero_byte 4.
Proof. reflexivity. Qed.

Lemma floats_of_bytes_length D : forall bs,
  List.length bs = 4 * D -> List.length (floats_of_bytes bs) = D.
Proof. intros bs H. apply (bytes_of_floats_of_bytes D bs H). Qed.

Lemma load_loop_shape j dim : forall n i s entries,
  Persist.load_loop j dim n i s = Ok entries ->
  List.length entries = n /\
  Forall (fun e => List.length (embedding e) = Z.to_nat dim) entries.
Proof.
  induction n as [|n IH]; intros i s entries H; cbn [Persist.load_loop] in H.
  - injection H as <-. split; [reflexivity | constructor].
  - unfold bind in H.
    destruct (Json.at_index j i) as [ji|]; [|discriminate H].
    destruct (Json.at_key ji "id") as [v1|]; [|discriminate H].
    destruct (Json.get_string v1) as [d_id|]; [|discriminate H].
    destruct (Json.at_key ji "source") as [v2|]; [|discriminate H].
    destruct (Json.get_string v2) as [d_source|]; [|discriminate H].
    destruct (Json.at_key ji "content") as [v3|]; [|discriminate H].
    destruct (Json.get_string v3) as [d_content|]; [|discriminate H].
    pose proof (read_zero_buffer s (Z.to_nat (dim * 4))) as Hread.
    destruct (IStream.read s (repeat zero_byte (Z.to_nat (dim * 4)))
                           (Z.to_nat (dim * 4))) as [emb s'].
    destruct Hread as [Hemb _].
    destruct (Persist.load_loop j dim n (S i) s') as [tl|] eqn:Htl; [|discriminate H].
    injection H as <-.
    destruct (IH _ _ _ Htl) as [Hlen Hall].
    split; [cbn [List.length]; f_equal; exact Hlen|].
    constructor; [|exact Hall].
    cbn [embedding]. apply floats_of_bytes_length.
    rewrite Hemb, take_padded_length. lia.
Qed.

Lemma read_header_any bytes :
  let '(numb, s1) := IStream.read (IStream.open bytes) (le_split 4 0) 4 in
  let '(dimb, s2) := IStream.read s1 (le_split 4 0) 4 in
  le_combine numb = IndexFile.num bytes /\
  le_combine dimb = IndexFile.dim bytes /\
  LoadSpec.avail s2 = skipn 8 bytes.
Proof.
  rewrite le_split_zero.
  pose proof (read_zero_buffer (IStream.open bytes) 4) as H1.
  destruct (IStream.read (IStream.open bytes) (repeat zero_byte 4) 4) as [numb s1].
  destruct H1 as [Hn Ha1].
  pose proof (read_zero_buffer s1 4) as H2.
  destruct (IStream.read s1 (repeat zero_byte 4) 4) as [dimb s2].
  destruct H2 as [Hd Ha2].
  change (LoadSpec.avail (IStream.open bytes)) with bytes in Hn, Ha1.
  unfold IndexFile.num, IndexFile.dim.
  rewrite Hn, Hd, Ha1, Ha2, Ha1.
  split; [reflexivity|]. split; [reflexivity|].
  rewrite skipn_skipn. reflexivity.
Qed.

Lemma loadFromDisk_shape d entries :
  Persist.loadFromDisk d = Ok entries ->
  exists bytes j,
    indexFile d = Some bytes /\ metaFile d = Some (Some j) /\
    Z.of_nat (Json.size j) = IndexFile.num bytes /\
    List.length entries = Json.size j /\
    Forall (fun e => List.length (embedding e) = Z.to_nat (IndexFile.dim bytes))
           entries.
Proof.
  unfold Persist.loadFromDisk.
  destruct (indexFile d) as [bytes|]; [|discriminate].
  pose proof (read_header_any bytes) as Hh.
  destruct (IStream.read (IStream.open bytes) (le_split 4 0) 4) as [numb s1].
  destruct (IStream.read s1 (le_split 4 0) 4) as [dimb s2].
  destruct Hh as (Hn & Hd & _).
  destruct (metaFile d) as [[j|]|]; try discriminate.
  destruct (Z.of_nat (Json.size j) =? le_combine numb)%Z eqn:Hsize;
    cbn [negb]; [|discriminate].
  apply Z.eqb_eq in Hsize.
  intros Hload. apply load_loop_shape in Hload. destruct Hload as [Hlen Hall].
  exists bytes, j. rewrite <- Hn, <- Hd.
  split; [reflexivity|]. split; [reflexivity|]. split; [exact Hsize|].
  split; [rewrite Hlen, <- Hsize; apply Nat2Z.id | exact Hall].
Qed.

(** ** Bytes after the payload, and writing back what was loaded *)

Lemma read_blocks_length k : forall recs payload,
  List.length (LoadSpec.read_blocks k recs payload) = List.length recs.
Proof.
  intros recs payload. rewrite <- (length_map doc), read_blocks_docs.
  apply length_map.
Qed.

Lemma read_blocks_ignores_rest k : forall recs payload rest,
  List.length recs * k <= List.length payload ->
  LoadSpec.read_blocks k recs (payload ++ rest)
  = LoadSpec.read_blocks k recs payload.
Proof.
  induction recs as [|r recs IH]; intros payload rest Hlen; [reflexivity|].
  cbn [LoadSpec.read_blocks List.length Nat.mul] in *.
  assert (Hk : k <= List.length payload) by lia.
  rewrite !take_padded_long by (try rewrite length_app; lia).
  rewrite firstn_app.
  replace (k - List.length payload) with 0 by lia.
  cbn [firstn]. rewrite app_nil_r.
  rewrite skipn_app.
  replace (k - List.length payload) with 0 by lia.
  cbn [skipn]. rewrite IH; [reflexivity|].
  rewrite length_skipn. lia.
Qed.

Lemma metadata_of_docs a b :
  map doc a = map doc b -> map Persist.metadata_of a = map Persist.metadata_of b.
Proof.
  intros H.
  assert (E : forall l, map Persist.metadata_of l
                        = map (fun d => Json.Obj [("id", Json.Str (id d));
                                                  ("source", Json.Str (sourcePath d));
                                                  ("content", Json.Str (content d))])
                              (map doc l)).
  { intros l. rewrite map_map. reflexivity. }
  rewrite (E a), (E b), H. reflexivity.
Qed.

Lemma saveToDisk_layout entries D d :
  entries <> [] ->
  Forall (fun e => List.length (embedding e) = D) entries ->
  writable d = true ->
  (Z.of_nat (List.length entries) <= uint32_max)%Z ->
  (Z.of_nat D <= uint32_max)%Z ->
  Persist.saveToDisk entries d
  = Ok (mkDisk true
          (Some (IndexFile.head (List.length entries) D
                 ++ flat_map LoadSpec.block_bytes entries))
          (Some (Some (Json.Arr (map Persist.metadata_of entries))))).
Proof.
  intros Hne Hdim Hw HN HD.
  unfold Persist.saveToDisk.
  destruct entries as [|e0 rest] eqn:E; [contradiction|].
  rewrite <- E in *. rewrite Hw. cbn [negb].
  assert (He0 : List.length (embedding e0) = D).
  { rewrite E in Hdim. inversion Hdim; assumption. }
  rewrite He0, !to_uint32_small by assumption.
  assert (Hblocks : flat_map (Persist.write_block (Z.of_nat D)) entries
                    = flat_map LoadSpec.block_bytes entries).
  { clear E Hne HN. induction Hdim as [|e l He Hl IH]; [reflexivity|].
    cbn [flat_map]. rewrite IH, (write_block_whole D e He). reflexivity. }
  rewrite Hblocks. unfold IndexFile.head. rewrite <- app_assoc. reflexivity.
Qed.

Lemma load_complete_file d N D payload rest recs :
  (Z.of_nat N <= uint32_max)%Z ->
  (Z.of_nat D <= uint32_max)%Z ->
  List.length recs = N ->
  List.length payload = N * (4 * D) ->
  indexFile d = Some (IndexFile.head N D ++ payload ++ rest) ->
  metaFile d = Some (Some (Json.Arr (map Persist.metadata_of recs))) ->
  let entries := LoadSpec.read_blocks (4 * D) recs payload in
  Persist.loadFromDisk d = Ok entries /\
  map doc entries = map doc recs /\
  Forall (fun e => List.length (embedding e) = D) entries /\
  flat_map LoadSpec.block_bytes entries = payload.
Proof.
  intros HN HD Hrecs Hpay Hidx Hmeta entries.
  unfold IndexFile.head in Hidx. rewrite <- app_assoc in Hidx.
  rewrite (loadFromDisk_read_blocks d N D (payload ++ rest) recs HN HD Hrecs Hidx Hmeta).
  rewrite read_blocks_ignores_rest by lia.
  split; [reflexivity|]. split; [apply read_blocks_docs|].
  split; [apply read_blocks_dim|].
  unfold entries. rewrite read_blocks_bytes, Hrecs, <- Hpay.
  rewrite take_padded_long by lia. apply firstn_all.
Qed.

(** ** loadDocuments: failures, ids and chunk texts *)

Lemma files_loop_app : forall before rest docs c,
  Forall ChunkSpec.readable before ->
  Chunker.files_loop (before ++ rest) (docs, c)
  = Chunker.files_loop rest
      (docs ++ ChunkSpec.number_from c (ChunkSpec.corpus_chunks before),
       (c + Z.of_nat (List.length (ChunkSpec.corpus_chunks before)))%Z).
Proof.
  induction before as [|e before IH]; intros rest docs c Hread.
  - simpl. rewrite app_nil_r, Z.add_0_r. reflexivity.
  - inversion Hread as [|e' l He Hrest]; subst.
    cbn [app Chunker.files_loop ChunkSpec.corpus_chunks flat_map].
    fold (ChunkSpec.corpus_chunks before).
    unfold ChunkSpec.file_chunks, ChunkSpec.readable, ChunkSpec.eligible in *.
    destruct (Chunker.is_regular_file e); cbn [negb andb] in *;
      [|rewrite IH by exact Hrest; reflexivity].
    destruct (String.eqb (Chunker.extension e) ".txt"); cbn [negb] in *;
      [|rewrite IH by exact Hrest; reflexivity].
    destruct (Chunker.file e) as [content|]; [|exfalso; apply He; reflexivity].
    destruct (String.length content =? 0) eqn:E0.
    + apply Nat.eqb_eq in E0. destruct content; [|discriminate].
      rewrite IH by exact Hrest. reflexivity.
    + apply Nat.eqb_neq in E0.
      rewrite chunk_loop_split by lia.
      assert (Hlt : (0 <? String.length content) = true) by (apply Nat.ltb_lt; lia).
      rewrite Hlt. cbn [ChunkSpec.drop].
      rewrite push_all_number, IH by exact Hrest.
      unfold Chunker.chunks_of.
      rewrite number_from_app, length_app, !length_map, <- app_assoc.
      f_equal. f_equal; lia.
Qed.

(** The first text file that cannot be opened ends loadDocuments. *)
Lemma loadDocuments_unreadable dataDir before e after :
  Forall ChunkSpec.readable before ->
  ChunkSpec.eligible e = true -> Chunker.file e = None ->
  Chunker.loadDocuments dataDir (Some (before ++ e :: after))
  = Some (Throw ("Failed to open file: " ++ Chunker.path e)%string).
Proof.
  intros Hread Hel Hfile. unfold Chunker.loadDocuments.
  rewrite files_loop_app by exact Hread.
  cbn [Chunker.files_loop].
  unfold ChunkSpec.eligible in Hel. apply andb_prop in Hel. destruct Hel as [H1 H2].
  rewrite H1, H2, Hfile. reflexivity.
Qed.

Lemma to_int_not_nil z : Z.to_int z <> Decimal.Pos Decimal.Nil /\
                         Z.to_int z <> Decimal.Neg Decimal.Nil.
Proof.
  destruct z as [|p|p]; cbn; split; try discriminate;
    intros H; injection H as H; exact (DecimalPos.Unsigned.to_uint_nonnil p H).
Qed.

Lemma to_string_inj a b : Chunker.to_string a = Chunker.to_string b -> a = b.
Proof.
  unfold Chunker.to_string. intros H.
  apply (f_equal NilZero.int_of_string) in H.
  destruct (to_int_not_nil a) as [Ha1 Ha2]. destruct (to_int_not_nil b) as [Hb1 Hb2].
  rewrite !NilZero.isi in H by assumption.
  injection H as H. apply DecimalZ.to_int_inj. exact H.
Qed.

Lemma number_from_ids : forall items c,
  map id (ChunkSpec.number_from c items)
  = map (fun k => ("doc-" ++ Chunker.to_string (c + Z.of_nat k))%string)
        (seq 0 (List.length items)).
Proof.
  induction items as [|[p t] items IH]; intros c; [reflexivity|].
  cbn [ChunkSpec.number_from map List.length seq id].
  rewrite Z.add_0_r. f_equal.
  rewrite IH, <- seq_shift, map_map.
  apply map_ext. intros k. do 2 f_equal. lia.
Qed.

Lemma number_from_ids_NoDup items c :
  NoDup (map id (ChunkSpec.number_from c items)).
Proof.
  rewrite number_from_ids.
  apply Finite.Injective_map_NoDup; [|apply seq_NoDup].
  intros a b H. injection H as H. apply to_string_inj in H. lia.
Qed.

Lemma index_none_no_separator : forall s,
  String.index 0 Chunker.separator s = None -> ChunkText.has_separator s = false.
Proof.
  induction s as [|b s IH]; intros H; [reflexivity|].
  cbn [String.index ChunkText.has_separator] in *.
  change (String Chunker.newline (String Chunker.newline EmptyString))
    with Chunker.separator in *.
  destruct (String.prefix Chunker.separator (String b s)); [discriminate H|].
  destruct (String.index 0 Chunker.separator s); [discriminate H|].
  apply IH. reflexivity.
Qed.

Lemma index_some_no_separator : forall s n,
  String.index 0 Chunker.separator s = Some n ->
  ChunkText.has_separator (String.substring 0 n s) = false.
Proof.
  induction s as [|b s IH]; intros n H.
  - destruct n; reflexivity.
  - cbn [String.index] in H.
    change (String Chunker.newline (String Chunker.newline EmptyString))
      with Chunker.separator in *.
    destruct (String.prefix Chunker.separator (String b s)) eqn:Hp.
    + injection H as <-. reflexivity.
    + destruct (String.index 0 Chunker.separator s) as [m|] eqn:Hm; [|discriminate H].
      injection H as <-.
      cbn [String.substring ChunkText.has_separator].
      rewrite (IH m eq_refl), orb_false_r.
      destruct (String.prefix Chunker.separator (String b (String.substring 0 m s)))
        eqn:Hq; [|reflexivity].
      exfalso.
      destruct (prefix_separator_inv _ _ Hq) as [-> [s' Hs']].
      destruct m as [|m], s as [|c s]; try discriminate Hs'.
      cbn [String.substring] in Hs'. injection Hs' as -> _.
      assert (Ht : String.prefix Chunker.separator
                     (String Chunker.newline (String Chunker.newline s)) = true)
        by (apply String.prefix_correct; destruct s; reflexivity).
      rewrite Ht in Hp. discriminate Hp.
Qed.

Lemma split_acc_no_separator : forall n s,
  String.length s <= n ->
  Forall (fun t => ChunkText.has_separator t = false)
         (Chunker.split_acc EmptyString s).
Proof.
  induction n as [|n IH]; intros s Hlen.
  - destruct s; [|cbn in Hlen; lia]. repeat constructor.
  - pose proof (split_acc_index s EmptyString) as H.
    destruct (String.index 0 Chunker.separator s) as [k|] eqn:Hk.
    + destruct H as [Hk2 ->]. constructor.
      * apply index_some_no_separator. exact Hk.
      * apply IH. rewrite drop_length. lia.
    + rewrite H. constructor; [|constructor].
      apply index_none_no_separator. exact Hk.
Qed.

Lemma chunks_of_texts content t :
  In t (Chunker.chunks_of content) ->
  t <> EmptyString /\ ChunkText.has_separator t = false /\
  In t (Chunker.split content).
Proof.
  intros H. apply chunks_of_In in H. destruct H as [Hin Hne].
  split; [exact Hne|]. split; [|exact Hin].
  pose proof (split_acc_no_separator (String.length content) content (le_n _)) as Hall.
  rewrite Forall_forall in Hall. apply Hall. exact Hin.
Qed.

Lemma files_loop_readable : forall entries st st',
  Chunker.files_loop entries st = Some (Ok st') ->
  Forall ChunkSpec.readable entries.
Proof.
  induction entries as [|e entries IH]; intros st st' H; [constructor|].
  cbn [Chunker.files_loop] in H.
  assert (He : ChunkSpec.readable e /\ exists st1,
                 Chunker.files_loop entries st1 = Some (Ok st')).
  { unfold ChunkSpec.readable, ChunkSpec.eligible.
    destruct (Chunker.is_regular_file e); cbn [negb andb] in *;
      [|split; [discriminate | eauto]].
    destruct (String.eqb (Chunker.extension e) ".txt"); cbn [negb] in *;
      [|split; [discriminate | eauto]].
    destruct (Chunker.file e) as [content|]; [|discriminate H].
    split; [discriminate|].
    destruct (String.length content =? 0); [eauto|].
    destruct (Chunker.chunk_loop (S (String.length content)) (Chunker.path e)
                                 content 0 st) as [st1|]; [eauto | discriminate H]. }
  destruct He as [He [st1 Hrest]].
  constructor; [exact He | exact (IH _ _ Hrest)].
Qed.

Lemma loadDocuments_ok_inv dataDir entries docs :
  Chunker.loadDocuments dataDir (Some entries) = Some (Ok docs) ->
  Forall ChunkSpec.readable entries /\
  docs = ChunkSpec.number_from 0 (ChunkSpec.corpus_chunks entries).
Proof.
  intros H.
  assert (Hread : Forall ChunkSpec.readable entries).
  { unfold Chunker.loadDocuments in H.
    destruct (Chunker.files_loop entries ([], 0%Z)) as [[st|w]|] eqn:E;
      try discriminate H.
    exact (files_loop_readable _ _ _ E). }
  split; [exact Hread|].
  unfold Chunker.loadDocuments in H.
  rewrite (files_loop_corpus entries [] 0%Z Hread) in H.
  injection H as <-. reflexivity.
Qed.

Lemma number_from_In : forall items c d,
  In d (ChunkSpec.number_from c items) ->
  In (sourcePath d, content d) items.
Proof.
  induction items as [|[p t] items IH]; intros c d H; [contradiction|].
  cbn [ChunkSpec.number_from] in H. destruct H as [<- | H].
  - left. reflexivity.
  - right. exact (IH _ _ H).
Qed.

Lemma corpus_chunks_In entries p t :
  In (p, t) (ChunkSpec.corpus_chunks entries) ->
  exists e text,
    In e entries /\ ChunkSpec.eligible e = true /\ p = Chunker.path e /\
    Chunker.file e = Some text /\ In t (Chunker.chunks_of text).
Proof.
  unfold ChunkSpec.corpus_chunks. intros H.
  apply in_flat_map in H. destruct H as (e & He & Hin).
  unfold ChunkSpec.file_chunks in Hin.
  destruct (ChunkSpec.eligible e) eqn:El; [|contradiction].
  destruct (Chunker.file e) as [text|] eqn:Ef; [|contradiction].
  apply in_map_iff in Hin. destruct Hin as (t' & E & Ht).
  injection E as <- <-.
  exists e, text. repeat split; assumption.
Qed.

(** ** The context of answer *)

Lemma substring_app_left : forall a b n,
  n <= String.length a ->
  String.substring 0 n (a ++ b) = String.substring 0 n a.
Proof.
  induction a as [|c a IH]; intros b n Hn.
  - cbn in Hn. replace n with 0 by lia. destruct b; reflexivity.
  - destruct n as [|n]; [reflexivity|].
    cbn [String.append String.substring]. f_equal. apply IH. cbn in Hn. lia.
Qed.

Lemma substring_app_right : forall a b k,
  String.substring 0 (String.length a + k) (a ++ b)
  = (a ++ String.substring 0 k b)%string.
Proof.
  induction a as [|c a IH]; intros b k; [reflexivity|].
  cbn [String.length Nat.add String.append String.substring]. f_equal. apply IH.
Qed.

Lemma substring_substring : forall s n m,
  n <= m -> String.substring 0 n (String.substring 0 m s) = String.substring 0 n s.
Proof.
  induction s as [|c s IH]; intros n m Hnm.
  - destruct n, m; reflexivity.
  - destruct n as [|n]; [destruct m; reflexivity|].
    destruct m as [|m]; [lia|].
    cbn [String.substring]. f_equal. apply IH. lia.
Qed.

Lemma per_chunk_cap_length chunk :
  String.length (SentraEngine.per_chunk_cap chunk) <= 803.
Proof.
  unfold SentraEngine.per_chunk_cap, SentraEngine.MAX_CHARS_PER_CHUNK.
  destruct (800 <? String.length chunk) eqn:E.
  - apply Nat.ltb_lt in E.
    rewrite string_length_append, string_length_substring by lia. cbn. lia.
  - apply Nat.ltb_ge in E. lia.
Qed.

(** What the test against the global cap lets through, before the budget is
    spent. *)
Lemma global_cap_cases total chunk :
  total < SentraEngine.MAX_TOTAL_CHARS ->
  (total + String.length chunk <= SentraEngine.MAX_TOTAL_CHARS /\
   SentraEngine.global_cap total chunk = Some chunk) \/
  (SentraEngine.MAX_TOTAL_CHARS - total < String.length chunk /\
   SentraEngine.global_cap total chunk
   = Some (String.substring 0 (SentraEngine.MAX_TOTAL_CHARS - total) chunk
           ++ SentraEngine.ellipsis)%string).
Proof.
  intros Hlt.
  destruct (Nat.le_gt_cases (total + String.length chunk) SentraEngine.MAX_TOTAL_CHARS)
    as [Hfit | Hover].
  - left. split; [exact Hfit | apply global_cap_fits; exact Hfit].
  - right. split; [lia | apply global_cap_truncates; lia].
Qed.

Lemma dots_three : SentraEngine.ellipsis = ContextSpec.dots 3.
Proof. reflexivity. Qed.

Lemma per_chunk_cap_shaped d :
  ContextSpec.shaped d (SentraEngine.per_chunk_cap (content d)).
Proof.
  unfold ContextSpec.shaped, SentraEngine.per_chunk_cap.
  destruct (SentraEngine.MAX_CHARS_PER_CHUNK <? String.length (content d)) eqn:E.
  - apply Nat.ltb_lt in E. right. exists SentraEngine.MAX_CHARS_PER_CHUNK, 3.
    repeat split; try lia.
  - left. reflexivity.
Qed.

Lemma global_cut_shaped d r :
  0 < r -> r < String.length (SentraEngine.per_chunk_cap (content d)) ->
  ContextSpec.shaped d
    (String.substring 0 r (SentraEngine.per_chunk_cap (content d))
     ++ SentraEngine.ellipsis)%string.
Proof.
  intros Hr Hlen. unfold ContextSpec.shaped, SentraEngine.per_chunk_cap in *.
  unfold SentraEngine.MAX_CHARS_PER_CHUNK in *.
  destruct (800 <? String.length (content d)) eqn:E.
  - apply Nat.ltb_lt in E.
    rewrite string_length_append, string_length_substring in Hlen by lia.
    change (String.length SentraEngine.ellipsis) with 3 in Hlen.
    right. destruct (Nat.le_gt_cases r 800) as [Hle | Hgt].
    + exists r, 3. repeat split; try lia.
      rewrite substring_app_left by (rewrite string_length_substring; lia).
      rewrite substring_substring by exact Hle. reflexivity.
    + exists 800, (r - 800 + 3). repeat split; try lia.
      replace r with (String.length (String.substring 0 800 (content d)) + (r - 800))
        at 1 by (rewrite string_length_substring; lia).
      rewrite substring_app_right, append_assoc. f_equal.
      assert (Hk : r - 800 = 1 \/ r - 800 = 2) by lia.
      destruct Hk as [-> | ->]; reflexivity.
  - apply Nat.ltb_ge in E. right. exists r, 3. repeat split; try lia.
Qed.

(** One turn of the loop of answer, before the budget is spent. *)
Lemma context_loop_step d rest total context :
  total < SentraEngine.MAX_TOTAL_CHARS ->
  exists chunk,
    SentraEngine.context_loop (d :: rest) total context
    = SentraEngine.context_loop rest
        (total + String.length (SentraEngine.decorate d chunk))
        (context ++ [SentraEngine.decorate d chunk]) /\
    ContextSpec.shaped d chunk /\
    total + String.length chunk <= SentraEngine.MAX_TOTAL_CHARS + 3.
Proof.
  intros Hlt. cbn [SentraEngine.context_loop].
  assert (Hc : (SentraEngine.MAX_TOTAL_CHARS <=? total) = false)
    by (apply Nat.leb_gt; exact Hlt).
  rewrite Hc.
  destruct (global_cap_cases total (SentraEngine.per_chunk_cap (content d)) Hlt)
    as [[Hfit ->] | [Hover ->]].
  - exists (SentraEngine.per_chunk_cap (content d)).
    split; [reflexivity|]. split; [apply per_chunk_cap_shaped | lia].
  - eexists. split; [reflexivity|]. split.
    + apply global_cut_shaped; [lia | exact Hover].
    + rewrite string_length_append, string_length_substring by lia.
      change (String.length SentraEngine.ellipsis) with 3. lia.
Qed.

(** The loop of answer as a whole: what it adds to the context comes from
    the first chunks, in order; its counter is the number of characters
    added; and it ends at most one source tag and one ellipsis beyond the
    cap. *)
Lemma context_loop_pieces L : forall docs total context,
  (forall d, In d docs -> String.length (sourcePath d) <= L) ->
  exists added,
    SentraEngine.context_loop docs total context
    = (context ++ added, total + SentraEngine.total_length added) /\
    List.length added <= List.length docs /\
    Forall2 (fun d piece => exists chunk,
               piece = SentraEngine.decorate d chunk /\ ContextSpec.shaped d chunk)
            (firstn (List.length added) docs) added /\
    (added <> [] ->
     total + SentraEngine.total_length added
     <= SentraEngine.MAX_TOTAL_CHARS + 6 + L).
Proof.
  induction docs as [|d rest IH]; intros total context HL.
  - exists []. cbn [SentraEngine.context_loop SentraEngine.total_length fold_right
                        List.length firstn].
    rewrite app_nil_r, Nat.add_0_r.
    split; [reflexivity|]. split; [apply Nat.le_refl|]. split; [constructor|].
    intros Habs. exfalso. apply Habs. reflexivity.
  - destruct (Nat.le_gt_cases SentraEngine.MAX_TOTAL_CHARS total) as [Hspent | Hlt].
    + exists []. rewrite context_loop_budget_spent by exact Hspent.
      cbn [SentraEngine.total_length fold_right List.length firstn].
      rewrite app_nil_r, Nat.add_0_r.
      split; [reflexivity|]. split; [lia|]. split; [constructor|].
      intros Habs. exfalso. apply Habs. reflexivity.
    + destruct (context_loop_step d rest total context Hlt)
        as (chunk & -> & Hshape & Hbound).
      set (piece := SentraEngine.decorate d chunk).
      destruct (IH (total + String.length piece) (context ++ [piece]))
        as (added & -> & Hlen & Hall & Hb).
      { intros x Hx. apply HL. right. exact Hx. }
      exists (piece :: added).
      rewrite <- app_assoc. cbn [app].
      assert (Htl : SentraEngine.total_length (piece :: added)
                    = String.length piece + SentraEngine.total_length added)
        by reflexivity.
      rewrite Htl.
      split; [f_equal; lia|]. split; [cbn [List.length]; lia|].
      split.
      * cbn [List.length firstn]. constructor; [|exact Hall].
        exists chunk. split; [reflexivity | exact Hshape].
      * intros _.
        assert (Hp : String.length piece <= L + 3 + String.length chunk).
        { unfold piece. rewrite decorate_length.
          pose proof (HL d (or_introl eq_refl)). lia. }
        destruct added as [|a added'].
        -- change (SentraEngine.total_length []) with 0. lia.
        -- assert (Ha : a :: added' <> []) by discriminate.
           specialize (Hb Ha). lia.
Qed.

(** The loop leaves chunks out only once its counter has reached the cap. *)
Lemma context_loop_exhausts : forall docs total context,
  List.length (fst (SentraEngine.context_loop docs total context))
  = List.length context + List.length docs \/
  SentraEngine.MAX_TOTAL_CHARS <= snd (SentraEngine.context_loop docs total context).
Proof.
  induction docs as [|d rest IH]; intros total context.
  - left. cbn [SentraEngine.context_loop fst List.length]. lia.
  - destruct (Nat.le_gt_cases SentraEngine.MAX_TOTAL_CHARS total) as [Hspent | Hlt].
    + right. rewrite context_loop_budget_spent by exact Hspent. exact Hspent.
    + destruct (context_loop_step d rest total context Hlt) as (chunk & -> & _ & _).
      destruct (IH (total + String.length (SentraEngine.decorate d chunk))
                   (context ++ [SentraEngine.decorate d chunk])) as [H | H].
      * left. rewrite H, length_app. cbn [List.length]. lia.
      * right. exact H.
Qed.

(** ** The prompt of chatWithContext *)

Lemma contextText_fold : forall chunks text,
  fold_left (fun text c => ((text ++ c) ++ LlmClient.rule)%string) chunks text
  = (text ++ String.concat EmptyString
               (map (fun c => (c ++ LlmClient.rule)%string) chunks))%string.
Proof.
  induction chunks as [|c chunks IH]; intros text.
  - cbn [fold_left map String.concat]. rewrite append_nil_r. reflexivity.
  - cbn [fold_left map]. rewrite IH.
    destruct chunks as [|c' chunks].
    + cbn [map String.concat]. rewrite append_nil_r, append_assoc. reflexivity.
    + cbn [map String.concat]. cbn [String.append].
      rewrite !append_assoc. reflexivity.
Qed.

Lemma contextText_length : forall chunks,
  String.length (LlmClient.contextText chunks)
  = SentraEngine.total_length chunks + 7 * List.length chunks.
Proof.
  intros chunks. unfold LlmClient.contextText.
  assert (H : forall text,
             String.length
               (fold_left (fun text c => ((text ++ c) ++ LlmClient.rule)%string)
                          chunks text)
             = String.length text + SentraEngine.total_length chunks
               + 7 * List.length chunks).
  { induction chunks as [|c chunks IH]; intros text.
    - cbn [fold_left SentraEngine.total_length fold_right List.length]. lia.
    - cbn [fold_left]. rewrite IH, !string_length_append.
      change (String.length LlmClient.rule) with 7.
      change (SentraEngine.total_length (c :: chunks))
        with (String.length c + SentraEngine.total_length chunks).
      cbn [List.length]. lia. }
  rewrite H. reflexivity.
Qed.

Lemma prompt_length question chunks :
  String.length (LlmClient.prompt question chunks)
  = 308 + SentraEngine.total_length chunks + 7 * List.length chunks
    + String.length question.
Proof.
  unfold LlmClient.prompt.
  rewrite !string_length_append, contextText_length.
  change (String.length LlmClient.instructions) with 288.
  change (String.length LlmClient.nl) with 1.
  change (String.length "Question:") with 9.
  change (String.length "Answer:") with 7. lia.
Qed.

Lemma search_ok_docs entries q topK docs :
  Search.search entries q topK (Ok docs) ->
  List.length docs <= Z.to_nat topK /\
  List.length docs <= List.length entries /\
  (forall d, In d docs -> exists e, In e entries /\ doc e = d).
Proof.
  intros H.
  inversion H as [|sorted Hne Hk (Hperm & _) Hdocs]; subst.
  set (k := Z.to_nat (Search.clamp topK (List.length entries))) in *.
  assert (Hsorted : List.length sorted = List.length entries).
  { rewrite <- (Permutation_length Hperm). apply scored_of_length. }
  rewrite docs_of_length, length_firstn, Hsorted.
  split; [|split].
  - assert ((Search.clamp topK (List.length entries) <= topK)%Z).
    { unfold Search.clamp.
      destruct (topK >? to_int (List.length entries))%Z eqn:E; lia. }
    unfold k. lia.
  - lia.
  - intros d Hd. apply (docs_of_In entries (firstn k sorted) d); [|exact Hd].
    intros [s idx] Hp. apply (scored_of_In q entries s idx).
    apply (Permutation_in _ (Permutation_sym Hperm)).
    rewrite <- (firstn_skipn k sorted). apply in_or_app. left. exact Hp.
Qed.

(** The prompt built for a question is bounded by the question, the cap of
    the context, the longest source tag and the number of chunks asked for. *)
Lemma prompt_bound entries q topK docs question L :
  (forall e, In e entries -> String.length (sourcePath (doc e)) <= L) ->
  Search.search entries q topK (Ok docs) ->
  String.length (LlmClient.prompt question (SentraEngine.build_context docs))
  <= 308 + (SentraEngine.MAX_TOTAL_CHARS + 6 + L) + 7 * Z.to_nat topK
     + String.length question.
Proof.
  intros HL Hsearch.
  destruct (search_ok_docs _ _ _ _ Hsearch) as (Hk & _ & Hfrom).
  rewrite prompt_length. unfold SentraEngine.build_context.
  destruct (context_loop_pieces L docs 0 []) as (added & Heq & Hlen & _ & Hb).
  { intros d Hd. destruct (Hfrom d Hd) as (e & He & <-). exact (HL e He). }
  rewrite Heq. cbn [fst app].
  destruct added as [|a added'].
  - change (SentraEngine.total_length []) with 0. cbn [List.length]. lia.
  - assert (Ha : a :: added' <> []) by discriminate.
    specialize (Hb Ha). lia.
Qed.

(** ** runCommand *)

Lemma fgets_split : forall n pipe,
  (fst (Command.fgets n pipe) ++ snd (Command.fgets n pipe))%string = pipe.
Proof.
  induction n as [|n IH]; intros pipe; [reflexivity|].
  destruct pipe as [|c pipe]; [reflexivity|].
  cbn [Command.fgets].
  destruct (Ascii.eqb c Chunker.newline); [reflexivity|].
  specialize (IH pipe). destruct (Command.fgets n pipe) as [buffer rest].
  cbn [fst snd String.append] in *. rewrite IH. reflexivity.
Qed.

Lemma fgets_progress n c pipe :
  String.length (snd (Command.fgets (S n) (String c pipe))) <= String.length pipe.
Proof.
  cbn [Command.fgets].
  destruct (Ascii.eqb c Chunker.newline); [apply Nat.le_refl|].
  pose proof (fgets_split n pipe) as H.
  destruct (Command.fgets n pipe) as [buffer rest]. cbn [fst snd] in *.
  rewrite <- H, string_length_append. lia.
Qed.

Lemma c_str_length buffer :
  String.length (Command.c_str buffer) <= String.length buffer.
Proof.
  induction buffer as [|c buffer IH]; [apply Nat.le_refl|].
  cbn [Command.c_str]. destruct (Ascii.eqb c Command.nul); cbn [String.length]; lia.
Qed.

Lemma c_str_without_nul buffer :
  Command.has_nul buffer = false -> Command.c_str buffer = buffer.
Proof.
  induction buffer as [|c buffer IH]; [reflexivity|].
  cbn [Command.has_nul Command.c_str]. intros H.
  apply orb_false_elim in H. destruct H as [Hc Hb].
  rewrite Hc, (IH Hb). reflexivity.
Qed.

Lemma c_str_with_nul buffer :
  Command.has_nul buffer = true ->
  String.length (Command.c_str buffer) < String.length buffer.
Proof.
  induction buffer as [|c buffer IH]; [discriminate|].
  cbn [Command.has_nul Command.c_str]. intros H.
  destruct (Ascii.eqb c Command.nul); cbn [String.length]; [lia|].
  cbn [orb] in H. specialize (IH H). lia.
Qed.

Lemma has_nul_app a b :
  Command.has_nul (a ++ b) = Command.has_nul a || Command.has_nul b.
Proof.
  induction a as [|c a IH]; [reflexivity|].
  cbn [String.append Command.has_nul]. rewrite IH, orb_assoc. reflexivity.
Qed.

(** The loop of runCommand ends, and gives the content of the pipe less what
    its NUL characters hide. *)
Lemma read_loop_total : forall fuel pipe result,
  String.length pipe < fuel ->
  exists r,
    Command.read_loop fuel pipe result = Some (result ++ r)%string /\
    String.length r <= String.length pipe /\
    (Command.has_nul pipe = false -> r = pipe) /\
    (Command.has_nul pipe = true -> String.length r < String.length pipe).
Proof.
  induction fuel as [|fuel IH]; intros pipe result Hfuel; [lia|].
  destruct pipe as [|c pipe].
  - exists EmptyString. cbn [Command.read_loop]. rewrite append_nil_r.
    split; [reflexivity|]. split; [apply Nat.le_refl|].
    split; [reflexivity | discriminate].
  - cbn [Command.read_loop].
    pose proof (fgets_split 4095 (String c pipe)) as Hsplit.
    pose proof (fgets_progress 4094 c pipe) as Hprog.
    destruct (Command.fgets 4095 (String c pipe)) as [buffer rest].
    cbn [fst snd] in Hsplit, Hprog. cbn [String.length] in Hfuel.
    destruct (IH rest (result ++ Command.c_str buffer)%string ltac:(lia))
      as (r & -> & Hlen & Hclean & Hnul).
    exists (Command.c_str buffer ++ r)%string.
    rewrite append_assoc. split; [reflexivity|].
    pose proof (c_str_length buffer) as Hc.
    assert (Hl : String.length (String c pipe)
                 = String.length buffer + String.length rest)
      by (rewrite <- Hsplit, string_length_append; reflexivity).
    rewrite Hl, string_length_append.
    rewrite <- Hsplit, has_nul_app.
    split; [lia|]. split.
    + intros H. apply orb_false_elim in H. destruct H as [Hb Hr].
      rewrite (c_str_without_nul buffer Hb), (Hclean Hr). reflexivity.
    + intros H. destruct (Command.has_nul buffer) eqn:Hb.
      * pose proof (c_str_with_nul buffer Hb). lia.
      * cbn [orb] in H. specialize (Hnul H). lia.
Qed.

Lemma runCommand_returns cmd out :
  exists r,
    Command.runCommand cmd (Some out) = Some (Ok r) /\
    String.length r <= String.length out /\
    (Command.has_nul out = false -> r = out) /\
    (Command.has_nul out = true -> String.length r < String.length out).
Proof.
  unfold Command.runCommand.
  destruct (read_loop_total (S (String.length out)) out EmptyString (Nat.lt_succ_diag_r _))
    as (r & -> & H).
  exists r. split; [reflexivity | exact H].
Qed.

(** ** postJson *)

Lemma lookup_written path data fs :
  Files.content_of path ((path, data) :: fs) = Some data.
Proof. cbn [Files.content_of]. rewrite String.eqb_refl. reflexivity. Qed.

Lemma lookup_other path p data fs :
  p <> path -> Files.content_of p ((path, data) :: fs) = Files.content_of p fs.
Proof.
  intros Hne. cbn [Files.content_of].
  destruct (String.eqb path p) eqn:E; [|reflexivity].
  apply String.eqb_eq in E. congruence.
Qed.

Lemma write_then_read path data fs fs' :
  Files.writeStringToFile path data fs = Ok fs' ->
  Files.readFileToString path fs' = Ok data /\
  (forall p, p <> path ->
             Files.readFileToString p fs' = Files.readFileToString p fs).
Proof.
  unfold Files.writeStringToFile.
  destruct (Files.creatable fs path); cbn [negb]; [|discriminate].
  intros H. injection H as <-. unfold Files.readFileToString. cbn [Files.files].
  split; [rewrite lookup_written; reflexivity|].
  intros p Hp. rewrite lookup_other by exact Hp. reflexivity.
Qed.

(** ** loadConfig *)

Lemma getline_line : forall key,
  TextSpec.occurs Chunker.newline key = false ->
  Config.getline key = (key, EmptyString).
Proof.
  induction key as [|c key IH]; [reflexivity|].
  cbn [TextSpec.occurs Config.getline]. intros H.
  apply orb_false_elim in H. destruct H as [Hc Hk].
  rewrite Hc, (IH Hk). reflexivity.
Qed.

Lemma getline_first : forall key rest,
  TextSpec.occurs Chunker.newline key = false ->
  Config.getline (key ++ String Chunker.newline rest) = (key, rest).
Proof.
  induction key as [|c key IH]; intros rest H.
  - cbn [String.append Config.getline]. rewrite Ascii.eqb_refl. reflexivity.
  - cbn [TextSpec.occurs] in H. apply orb_false_elim in H. destruct H as [Hc Hk].
    cbn [String.append Config.getline]. rewrite Hc, (IH rest Hk). reflexivity.
Qed.

Lemma getline_cases : forall text,
  let '(line, rest) := Config.getline text in
  TextSpec.occurs Chunker.newline line = false /\
  (text = line /\ rest = EmptyString \/
   text = (line ++ String Chunker.newline rest)%string).
Proof.
  induction text as [|c text IH]; [cbn; auto|].
  cbn [Config.getline].
  destruct (Ascii.eqb c Chunker.newline) eqn:Hc.
  - apply Ascii.eqb_eq in Hc. subst c. split; [reflexivity|]. right. reflexivity.
  - destruct (Config.getline text) as [line rest].
    destruct IH as [Hocc Hcases]. cbn [TextSpec.occurs]. rewrite Hc, Hocc.
    split; [reflexivity|].
    destruct Hcases as [[-> ->] | ->]; [left; auto | right; reflexivity].
Qed.

(** ** The command loop *)

Lemma sanitize_char_not_146 c : Ascii.eqb (Cli.sanitize_char c) "146"%char = false.
Proof.
  unfold Cli.sanitize_char.
  destruct (Ascii.eqb c "146"%char) eqn:E; cbn [orb]; [reflexivity|].
  destruct (Ascii.eqb c "039"%char); [reflexivity | exact E].
Qed.

Lemma sanitize_char_fixed c :
  Ascii.eqb c "146"%char = false -> Cli.sanitize_char c = c.
Proof.
  unfold Cli.sanitize_char. intros ->. cbn [orb].
  destruct (Ascii.eqb c "039"%char) eqn:E; [|reflexivity].
  apply Ascii.eqb_eq in E. symmetry. exact E.
Qed.

Lemma sanitize_facts : forall ans,
  String.length (Cli.sanitize ans) = String.length ans /\
  TextSpec.occurs "146"%char (Cli.sanitize ans) = false /\
  (TextSpec.occurs "146"%char ans = false -> Cli.sanitize ans = ans).
Proof.
  induction ans as [|c ans (Hlen & Hocc & Hfix)]; [repeat split|].
  cbn [Cli.sanitize String.length TextSpec.occurs].
  split; [f_equal; exact Hlen|]. split.
  - rewrite sanitize_char_not_146, Hocc. reflexivity.
  - intros H. apply orb_false_elim in H. destruct H as [Hc Hrest].
    rewrite (sanitize_char_fixed c Hc), (Hfix Hrest). reflexivity.
Qed.

Lemma sanitize_char_replaces c :
  Cli.sanitize_char c = if Ascii.eqb c "146"%char then "039"%char else c.
Proof.
  unfold Cli.sanitize_char.
  destruct (Ascii.eqb_spec c "146"%char) as [-> | _]; [reflexivity|].
  destruct (Ascii.eqb_spec c "039"%char) as [-> | _]; reflexivity.
Qed.

Lemma sanitize_get : forall ans i,
  String.get i (Cli.sanitize ans)
  = option_map (fun c => if Ascii.eqb c "146"%char then "039"%char else c)
               (String.get i ans).
Proof.
  induction ans as [|c ans IH]; intros i; [reflexivity|].
  destruct i as [|i]; cbn [Cli.sanitize String.get option_map].
  - rewrite sanitize_char_replaces. reflexivity.
  - apply IH.
Qed.

Section LoopFacts.
Context {W : Type} (answer : W -> string -> result string * W).

Lemma report_not_prompt r : Cli.is_prompt (Cli.report r) = false.
Proof. destruct r; reflexivity. Qed.

Lemma loop_asks : forall lines w,
  let asked := filter Chunker.nonempty (Cli.session lines) in
  filter (fun e => negb (Cli.is_prompt e)) (fst (Cli.loop answer lines w))
  = fst (Cli.ask_all answer asked w) /\
  snd (Cli.loop answer lines w) = snd (Cli.ask_all answer asked w) /\
  List.length (filter Cli.is_prompt (fst (Cli.loop answer lines w)))
  = S (List.length (Cli.session lines)).
Proof.
  induction lines as [|line lines IH]; intros w; [repeat split|].
  cbn [Cli.loop Cli.session].
  destruct (String.eqb line "exit" || String.eqb line "quit"); [repeat split|].
  assert (Hne : Chunker.nonempty line = negb (String.length line =? 0))
    by reflexivity.
  cbn [filter]. rewrite Hne.
  destruct (String.length line =? 0); cbn [negb].
  - specialize (IH w). cbv zeta in IH.
    destruct (Cli.loop answer lines w) as [out w'].
    cbn [fst snd] in *. destruct IH as (H1 & H2 & H3).
    cbn [filter]. change (Cli.is_prompt Cli.you) with true. cbn [negb List.length].
    rewrite H1, H2, H3. repeat split.
  - cbn [Cli.ask_all].
    destruct (answer w line) as [r w1].
    specialize (IH w1). cbv zeta in IH.
    destruct (Cli.loop answer lines w1) as [out w'].
    destruct (Cli.ask_all answer (filter Chunker.nonempty (Cli.session lines)) w1)
      as [out2 w2].
    cbn [fst snd] in *. destruct IH as (H1 & H2 & H3).
    cbn [filter]. rewrite report_not_prompt.
    change (Cli.is_prompt Cli.you) with true. cbn [negb List.length].
    rewrite H1, H2, H3. repeat split.
Qed.

End LoopFacts.

(** ** buildOrLoadIndex and answer *)

Lemma saveToDisk_exists entries d d' :
  Persist.saveToDisk entries d = Ok d' ->
  writable d = true /\ Engine.existsOnDisk d' = true.
Proof.
  unfold Persist.saveToDisk. destruct entries as [|e0 rest]; [discriminate|].
  destruct (writable d); cbn [negb]; [|discriminate].
  intros H. injection H as <-. split; reflexivity.
Qed.

Section EngineFacts.
Context {W : Type}.
Context (embed : W -> string -> result (list float) * W).
Context (chat : W -> string -> result string * W).

Lemma buildOrLoadIndex_cached dataDir dir d w :
  Engine.existsOnDisk d = true ->
  Engine.buildOrLoadIndex embed dataDir dir d w
  = Some (Persist.loadFromDisk d, d, w).
Proof. intros H. unfold Engine.buildOrLoadIndex. rewrite H. reflexivity. Qed.

Lemma buildOrLoadIndex_fresh dataDir dir d w entries d' w' :
  Engine.existsOnDisk d = false ->
  Engine.buildOrLoadIndex embed dataDir dir d w = Some (Ok entries, d', w') ->
  exists docs embeddings,
    Chunker.loadDocuments dataDir dir = Some (Ok docs) /\
    Engine.embed_all embed docs w = (Ok embeddings, w') /\
    VectorIndex.build docs embeddings = Ok entries /\
    Persist.saveToDisk entries d = Ok d'.
Proof.
  intros Hno. unfold Engine.buildOrLoadIndex. rewrite Hno.
  destruct (Chunker.loadDocuments dataDir dir) as [[docs|what]|];
    try discriminate.
  destruct (List.length docs =? 0); [discriminate|].
  destruct (Engine.embed_all embed docs w) as [[embeddings|what] w1] eqn:He;
    [|discriminate].
  destruct (VectorIndex.build docs embeddings) as [entries_|what] eqn:Hb;
    [|discriminate].
  destruct (Persist.saveToDisk entries_ d) as [d1|what] eqn:Hs; [|discriminate].
  intros H. injection H as <- <- <-.
  exists docs, embeddings. repeat split; try reflexivity; assumption.
Qed.

Lemma embed_all_length : forall docs w embeddings w',
  Engine.embed_all embed docs w = (Ok embeddings, w') ->
  List.length embeddings = List.length docs.
Proof.
  induction docs as [|d docs IH]; intros w embeddings w' H.
  - injection H as <- _. reflexivity.
  - cbn [Engine.embed_all] in H.
    destruct (embed w (content d)) as [[emb|what] w1]; [|discriminate H].
    destruct (Engine.embed_all embed docs w1) as [[embs|what] w2] eqn:E;
      [|discriminate H].
    injection H as <- _. cbn [List.length]. f_equal. exact (IH _ _ _ E).
Qed.


Lemma answer_outcomes entries topK question w out L :
  (forall e, In e entries -> String.length (sourcePath (doc e)) <= L) ->
  Engine.answer embed chat entries topK question w out ->
  (exists what, fst out = Throw what /\ snd out = snd (embed w question)) \/
  (exists prompt,
      out = chat (snd (embed w question)) prompt /\
      String.length prompt
      <= 308 + (SentraEngine.MAX_TOTAL_CHARS + 6 + L) + 7 * Z.to_nat topK
         + String.length question).
Proof.
  intros HL H.
  inversion H as [what w1 He | qEmb w1 what He Hs | qEmb w1 docs He Hs]; subst.
  - left. exists what. rewrite He. split; reflexivity.
  - left. exists what. rewrite He. split; reflexivity.
  - right. eexists. rewrite He. split; [reflexivity|].
    exact (prompt_bound entries qEmb topK docs question L HL Hs).
Qed.

End EngineFacts.

(** * Properties of the rest of the code *)

(** X1. cosineSim is symmetric: cosineSim(a, b) and cosineSim(b, a) are the
    same float, for all vectors, whatever their lengths and values. *)
Theorem X1_cosineSim_is_symmetric :
  forall a b, VectorIndex.cosineSim a b = VectorIndex.cosineSim b a.
Proof. exact cosineSim_comm. Qed.

(** X2. When no two entries have equal scores and no score is a NaN, search
    has exactly one possible result: the topK best entries in descending
    order of score. *)
Theorem X2_search_without_ties_has_one_result :
  forall entries q topK,
    entries <> [] ->
    (Z.of_nat (List.length entries) <= int_max)%Z ->
    (0 <= topK)%Z ->
    (forall p p', In p (Search.scored_of q entries) ->
                  In p' (Search.scored_of q entries) -> p <> p' ->
                  Search.comp p p' = true \/ Search.comp p' p = true) ->
    forall r, Search.search entries q topK r <->
              r = Ok (SearchSpec.stable_top_k entries q topK).
Proof.
  intros entries q topK Hne HN Hk Htot r. split.
  - apply search_without_ties; assumption.
  - intros ->. apply search_returns; try assumption.
    apply comp_strict_weak_when_total. exact Htot.
Qed.

Lemma demo_scores :
  Search.scored_of Sample.query Demo.store
  = [(Float32.zero, 0); (S754_finite false 11863283 (-24), 1); (Sample.score_one, 2)].
Proof. vm_compute. reflexivity. Qed.

(** X2 at three entries at different angles from the query. *)
Lemma X2_witness :
  Search.search Demo.store Sample.query 2 (Ok [Sample.doc2; Sample.doc1]).
Proof.
  apply (X2_search_without_ties_has_one_result Demo.store Sample.query 2).
  - discriminate.
  - vm_compute. discriminate.
  - lia.
  - rewrite demo_scores.
    intros p p' [<- | [<- | [<- | []]]] [<- | [<- | [<- | []]]] Hne;
      try (exfalso; apply Hne; reflexivity); vm_compute; auto.
  - vm_compute. reflexivity.
Defined.

(** X3. Whatever the two files hold, a store that loadFromDisk returns has as
    many entries as the metadata array, that number is the count at the head
    of the index file, and every embedding has exactly the number of floats
    announced there. *)
Theorem X3_loaded_store_is_rectangular :
  forall d entries,
    Persist.loadFromDisk d = Ok entries ->
    exists bytes j,
      indexFile d = Some bytes /\ metaFile d = Some (Some j) /\
      Z.of_nat (Json.size j) = IndexFile.num bytes /\
      List.length entries = Json.size j /\
      Forall (fun e => List.length (embedding e) = Z.to_nat (IndexFile.dim bytes))
             entries.
Proof. exact loadFromDisk_shape. Qed.

Lemma truncated_disk_loads :
  Persist.loadFromDisk Sample.truncated_disk
  = Ok [mkIndexEntry Sample.doc0 [Float32.of_bits 67305985];
        mkIndexEntry Sample.doc1 [Float32.of_bits 1541]].
Proof. vm_compute. reflexivity. Qed.

(** X3 at a file that ends in the middle of its second vector. *)
Lemma X3_witness :
  exists bytes j,
    indexFile Sample.truncated_disk = Some bytes /\
    metaFile Sample.truncated_disk = Some (Some j) /\
    Z.of_nat (Json.size j) = IndexFile.num bytes /\
    2 = Json.size j /\
    Forall (fun e => List.length (embedding e) = Z.to_nat (IndexFile.dim bytes))
           [mkIndexEntry Sample.doc0 [Float32.of_bits 67305985];
            mkIndexEntry Sample.doc1 [Float32.of_bits 1541]].
Proof.
  exact (X3_loaded_store_is_rectangular Sample.truncated_disk _ truncated_disk_loads).
Defined.

(** X4. loadFromDisk never looks past the N vectors of D floats that the
    head of the index file announces: bytes after them change nothing. *)
Theorem X4_bytes_after_the_payload_are_ignored :
  forall N D payload rest recs d d',
    (Z.of_nat N <= uint32_max)%Z ->
    (Z.of_nat D <= uint32_max)%Z ->
    List.length recs = N ->
    List.length payload = N * (4 * D) ->
    indexFile d = Some (IndexFile.head N D ++ payload) ->
    indexFile d' = Some (IndexFile.head N D ++ payload ++ rest) ->
    metaFile d = Some (Some (Json.Arr (map Persist.metadata_of recs))) ->
    metaFile d' = metaFile d ->
    Persist.loadFromDisk d' = Persist.loadFromDisk d /\
    exists entries,
      Persist.loadFromDisk d = Ok entries /\
      map doc entries = map doc recs /\
      flat_map LoadSpec.block_bytes entries = payload.
Proof.
  intros N D payload rest recs d d' HN HD Hrecs Hpay Hd Hd' Hm Hm'.
  rewrite <- (app_nil_r payload) in Hd.
  rewrite Hm in Hm'.
  destruct (load_complete_file d N D payload [] recs HN HD Hrecs Hpay Hd Hm)
    as (H1 & H2 & _ & H4).
  destruct (load_complete_file d' N D payload rest recs HN HD Hrecs Hpay Hd' Hm')
    as (H1' & _).
  split; [rewrite H1, H1'; reflexivity|].
  eexists. split; [exact H1|]. split; assumption.
Qed.

(** X4 at the index file of the sample store, followed by three bytes. *)
Lemma X4_witness :
  Persist.loadFromDisk Demo.padded_disk = Persist.loadFromDisk Demo.saved_disk /\
  exists entries,
    Persist.loadFromDisk Demo.saved_disk = Ok entries /\
    map doc entries = map doc Sample.entries /\
    flat_map LoadSpec.block_bytes entries = Demo.payload.
Proof.
  apply (X4_bytes_after_the_payload_are_ignored
           3 2 Demo.payload (map byte.of_Z [7; 8; 9]%Z) Sample.entries);
    try reflexivity; vm_compute; discriminate.
Defined.

(** X5. Loading a complete index file with its metadata and saving the
    store again writes the same head and payload back (bytes that followed
    the payload are dropped) and the same metadata. *)
Theorem X5_saving_a_loaded_store_reproduces_the_files :
  forall N D payload rest recs d,
    0 < N ->
    (Z.of_nat N <= uint32_max)%Z ->
    (Z.of_nat D <= uint32_max)%Z ->
    List.length recs = N ->
    List.length payload = N * (4 * D) ->
    writable d = true ->
    indexFile d = Some (IndexFile.head N D ++ payload ++ rest) ->
    metaFile d = Some (Some (Json.Arr (map Persist.metadata_of recs))) ->
    exists entries d',
      Persist.loadFromDisk d = Ok entries /\
      Persist.saveToDisk entries d = Ok d' /\
      indexFile d' = Some (IndexFile.head N D ++ payload) /\
      metaFile d' = metaFile d.
Proof.
  intros N D payload rest recs d HN0 HN HD Hrecs Hpay Hw Hidx Hmeta.
  destruct (load_complete_file d N D payload rest recs HN HD Hrecs Hpay Hidx Hmeta)
    as (Hload & Hdocs & Hdim & Hbytes).
  set (entries := LoadSpec.read_blocks (4 * D) recs payload) in *.
  assert (Hlen : List.length entries = N)
    by (unfold entries; rewrite read_blocks_length; exact Hrecs).
  assert (Hne : entries <> []).
  { intros E. rewrite E in Hlen. cbn in Hlen. lia. }
  exists entries. eexists.
  split; [exact Hload|]. split.
  - apply (saveToDisk_layout entries D d Hne Hdim Hw); [rewrite Hlen|]; assumption.
  - cbn [indexFile metaFile]. rewrite Hlen, Hbytes, Hmeta.
    rewrite (metadata_of_docs _ _ Hdocs). split; reflexivity.
Qed.

(** X5 at the index file of the sample store, followed by three bytes. *)
Lemma X5_witness :
  exists entries d',
    Persist.loadFromDisk Demo.padded_disk = Ok entries /\
    Persist.saveToDisk entries Demo.padded_disk = Ok d' /\
    indexFile d' = indexFile Demo.saved_disk /\
    metaFile d' = metaFile Demo.padded_disk.
Proof.
  apply (X5_saving_a_loaded_store_reproduces_the_files
           3 2 Demo.payload (map byte.of_Z [7; 8; 9]%Z) Sample.entries);
    try reflexivity; try lia; vm_compute; discriminate.
Defined.

Lemma sample_corpus_loads :
  Chunker.loadDocuments "data" (Some Sample.corpus)
  = Some (Ok [mkDocument "doc-0" "data/a.txt" "A";
              mkDocument "doc-1" "data/a.txt" "B";
              mkDocument "doc-2" "data/a.txt" "C";
              mkDocument "doc-3" "data/b.txt" "D"]).
Proof. vm_compute. reflexivity. Qed.

(** X6. The ids that loadDocuments hands out are pairwise different (as long
    as the counter stays an int). *)
Theorem X6_document_ids_are_distinct :
  forall dataDir entries docs,
    Chunker.loadDocuments dataDir (Some entries) = Some (Ok docs) ->
    (Z.of_nat (List.length docs) <= int_max)%Z ->
    NoDup (map id docs).
Proof.
  intros dataDir entries docs H _.
  destruct (loadDocuments_ok_inv _ _ _ H) as [_ ->].
  apply number_from_ids_NoDup.
Qed.

(** X6 at a directory of two text files and a sub-directory. *)
Lemma X6_witness : NoDup ["doc-0"; "doc-1"; "doc-2"; "doc-3"].
Proof.
  apply (X6_document_ids_are_distinct "data" Sample.corpus _ sample_corpus_loads).
  vm_compute. discriminate.
Defined.

(** X7. Every document that loadDocuments returns has a text that is not
    empty and holds no separator, and it comes from a regular .txt file of
    the directory: its source is the path of that file and its text is one
    of the pieces of the file. *)
Theorem X7_chunks_are_nonempty_pieces_of_text_files :
  forall dataDir entries docs d,
    Chunker.loadDocuments dataDir (Some entries) = Some (Ok docs) ->
    In d docs ->
    content d <> EmptyString /\
    ChunkText.has_separator (content d) = false /\
    exists e text,
      In e entries /\ ChunkSpec.eligible e = true /\
      sourcePath d = Chunker.path e /\ Chunker.file e = Some text /\
      In (content d) (Chunker.split text).
Proof.
  intros dataDir entries docs d H Hd.
  destruct (loadDocuments_ok_inv _ _ _ H) as [_ ->].
  apply number_from_In in Hd.
  apply corpus_chunks_In in Hd.
  destruct Hd as (e & text & He & Hel & Hp & Hf & Ht).
  destruct (chunks_of_texts _ _ Ht) as (Hne & Hsep & Hin).
  split; [exact Hne|]. split; [exact Hsep|].
  exists e, text. repeat split; assumption.
Qed.

(** X7 at the last document of the sample directory. *)
Lemma X7_witness :
  "D" <> EmptyString /\
  ChunkText.has_separator "D" = false /\
  exists e text,
    In e Sample.corpus /\ ChunkSpec.eligible e = true /\
    "data/b.txt" = Chunker.path e /\ Chunker.file e = Some text /\
    In "D" (Chunker.split text).
Proof.
  apply (X7_chunks_are_nonempty_pieces_of_text_files
           "data" Sample.corpus _ (mkDocument "doc-3" "data/b.txt" "D")
           sample_corpus_loads).
  right. right. right. left. reflexivity.
Defined.

(** X8. When a regular .txt file of the directory cannot be opened,
    loadDocuments throws, naming the first such file: the documents of the
    files before it are not returned, the files after it are not read. *)
Theorem X8_unreadable_text_file_ends_the_load :
  forall dataDir before e after,
    Forall ChunkSpec.readable before ->
    ChunkSpec.eligible e = true ->
    Chunker.file e = None ->
    Chunker.loadDocuments dataDir (Some (before ++ e :: after))
    = Some (Throw ("Failed to open file: " ++ Chunker.path e)%string).
Proof. exact loadDocuments_unreadable. Qed.

Lemma sample_corpus_readable : Forall ChunkSpec.readable Sample.corpus.
Proof.
  unfold Sample.corpus.
  repeat (apply Forall_cons;
          [intros H; first [discriminate H | intros Hf; discriminate Hf]|]).
  apply Forall_nil.
Qed.

(** X8 at a directory whose third file is locked. *)
Lemma X8_witness :
  Chunker.loadDocuments "data" (Some Demo.broken_corpus)
  = Some (Throw "Failed to open file: data/c.txt").
Proof.
  exact (X8_unreadable_text_file_ends_the_load
           "data" Sample.corpus Demo.locked Sample.corpus
           sample_corpus_readable eq_refl eq_refl).
Defined.

Lemma longest_source docs :
  forall d, In d docs ->
    String.length (sourcePath d)
    <= list_max (map (fun d => String.length (sourcePath d)) docs).
Proof.
  intros d Hd.
  pose proof (proj1 (list_max_le (map (fun d => String.length (sourcePath d)) docs)
                                 _) (Nat.le_refl _)) as Hall.
  rewrite Forall_forall in Hall. apply Hall.
  apply in_map_iff. exists d. split; [reflexivity | exact Hd].
Qed.

(** X9. The context that answer builds can exceed MAX_TOTAL_CHARS, but by no
    more than one source tag and one ellipsis: with source paths of at most
    L characters it has at most 3000 + 6 + L characters in all. *)
Theorem X9_context_overrun_is_bounded :
  forall docs L,
    (forall d, In d docs -> String.length (sourcePath d) <= L) ->
    SentraEngine.total_length (SentraEngine.build_context docs)
    <= SentraEngine.MAX_TOTAL_CHARS + 6 + L.
Proof.
  intros docs L HL. unfold SentraEngine.build_context.
  destruct (context_loop_pieces L docs 0 [] HL) as (added & -> & _ & _ & Hb).
  cbn [fst app]. destruct added as [|a added'].
  - change (SentraEngine.total_length []) with 0. lia.
  - assert (Ha : a :: added' <> []) by discriminate.
    specialize (Hb Ha). lia.
Qed.

(** X9 at three chunks of 1000 characters from a file with a path of 200
    characters. *)
Lemma X9_witness :
  SentraEngine.total_length
    (SentraEngine.build_context
       [Sample.long_path_doc; Sample.long_path_doc; Sample.long_path_doc])
  <= SentraEngine.MAX_TOTAL_CHARS + 6 + 200.
Proof.
  apply X9_context_overrun_is_bounded.
  intros d [<- | [<- | [<- | []]]]; vm_compute; repeat constructor.
Defined.

(** X10. The context is made from the first retrieved chunks, in their order,
    none skipped: each piece is the source tag of its chunk followed by the
    chunk's text, whole or cut to at most 800 characters and closed by three
    to five full stops; the counter total_chars of the loop ends as the
    number of characters of the context; and chunks are left out only when
    that number has reached MAX_TOTAL_CHARS. *)
Theorem X10_context_follows_the_retrieved_chunks :
  forall docs,
    let context := SentraEngine.build_context docs in
    List.length context <= List.length docs /\
    Forall2 (fun d piece => exists chunk,
               piece = SentraEngine.decorate d chunk /\ ContextSpec.shaped d chunk)
            (firstn (List.length context) docs) context /\
    snd (SentraEngine.context_loop docs 0 []) = SentraEngine.total_length context /\
    (List.length context = List.length docs \/
     SentraEngine.MAX_TOTAL_CHARS <= SentraEngine.total_length context).
Proof.
  intros docs. cbv zeta. unfold SentraEngine.build_context.
  pose proof (context_loop_exhausts docs 0 []) as Hex.
  destruct (context_loop_pieces _ docs 0 [] (longest_source docs))
    as (added & Heq & Hlen & Hall & _).
  rewrite Heq in *.
  cbn [fst snd app List.length Nat.add] in *.
  split; [exact Hlen|]. split; [exact Hall|]. split; [reflexivity | exact Hex].
Qed.

Lemma sample_answer :
  Engine.answer Demo.embed Demo.chat Sample.entries 3 "Which letter?" 0
                (Ok "It is a letter.", 2).
Proof.
  exact (Engine.answer_chat Demo.embed Demo.chat Sample.entries 3 "Which letter?" 0
           Sample.query 1 _ eq_refl sample_search_unstable).
Qed.

(** X11. Every outcome of answer is either an exception, raised by the
    embedding of the question or by search before the chat model is
    consulted, or what the chat model gives on a prompt whose length is
    bounded by the question, the cap of the context, the longest source path
    and topK. *)
Theorem X11_answer_sends_a_bounded_prompt :
  forall (W : Type) (embed : W -> string -> result (list float) * W)
         (chat : W -> string -> result string * W)
         entries topK question w out L,
    (forall e, In e entries -> String.length (sourcePath (doc e)) <= L) ->
    Engine.answer embed chat entries topK question w out ->
    (exists what, fst out = Throw what /\ snd out = snd (embed w question)) \/
    (exists prompt,
        out = chat (snd (embed w question)) prompt /\
        String.length prompt
        <= 308 + (SentraEngine.MAX_TOTAL_CHARS + 6 + L) + 7 * Z.to_nat topK
           + String.length question).
Proof.
  intros W embed chat entries topK question w out L.
  apply answer_outcomes.
Qed.

(** X11 at the sample store and a model that always answers. *)
Lemma X11_witness :
  (exists what, fst (Ok "It is a letter.", 2) = Throw what /\
                snd (Ok "It is a letter.", 2) = snd (Demo.embed 0 "Which letter?")) \/
  (exists prompt,
      (Ok "It is a letter.", 2) = Demo.chat (snd (Demo.embed 0 "Which letter?")) prompt /\
      String.length prompt
      <= 308 + (SentraEngine.MAX_TOTAL_CHARS + 6 + 10) + 7 * Z.to_nat 3
         + String.length "Which letter?").
Proof.
  apply (X11_answer_sends_a_bounded_prompt nat Demo.embed Demo.chat Sample.entries 3
           "Which letter?" 0 (Ok "It is a letter.", 2) 10).
  - intros e [<- | [<- | [<- | []]]]; vm_compute; repeat constructor.
  - exact sample_answer.
Defined.

(** X12. chatWithContext puts the rule "\n\n---\n\n" after every chunk of
    the context, the last one too, between the instructions and the
    question; the prompt has 308 characters besides the chunks, 7 for each
    rule, and the question. *)
Theorem X12_prompt_of_chatWithContext :
  forall question chunks,
    LlmClient.prompt question chunks
    = (LlmClient.instructions
       ++ String.concat EmptyString
            (map (fun c => (c ++ LlmClient.rule)%string) chunks)
       ++ LlmClient.nl ++ "Question:" ++ LlmClient.nl ++ question
       ++ LlmClient.nl ++ LlmClient.nl ++ "Answer:")%string /\
    String.length (LlmClient.prompt question chunks)
    = 308 + SentraEngine.total_length chunks + 7 * List.length chunks
      + String.length question.
Proof.
  intros question chunks. split; [|apply prompt_length].
  unfold LlmClient.prompt, LlmClient.contextText.
  rewrite contextText_fold. reflexivity.
Qed.

(** X13. runCommand throws when the command cannot be started.  For a
    command that has run to its end and written a finite output, the loop of
    runCommand ends and gives back what was written, whatever the lengths of
    its lines: the output comes back whole exactly when it holds no NUL
    character, and shorter when it holds one.  (While a command runs, fgets
    waits for it; a command that never ends is outside this statement.) *)
Theorem X13_runCommand_returns_the_output :
  forall cmd,
    Command.runCommand cmd None
    = Some (Throw ("Failed to run command: " ++ cmd)%string) /\
    forall out, exists r,
      Command.runCommand cmd (Some out) = Some (Ok r) /\
      String.length r <= String.length out /\
      (Command.has_nul out = false -> r = out) /\
      (Command.has_nul out = true -> String.length r < String.length out).
Proof.
  intros cmd. split; [reflexivity|]. intros out. apply runCommand_returns.
Qed.

(** X13 at an output of two lines. *)
Lemma X13_witness :
  Command.runCommand "curl" (Some ("a" ++ LlmClient.nl ++ "b")%string)
  = Some (Ok ("a" ++ LlmClient.nl ++ "b")%string).
Proof.
  destruct (X13_runCommand_returns_the_output "curl") as [_ H].
  destruct (H ("a" ++ LlmClient.nl ++ "b")%string) as (r & Hr & _ & Hclean & _).
  rewrite Hr, (Hclean eq_refl). reflexivity.
Defined.

(** X14. postJson first writes the body to artifactsDir/curl_body.json: when
    that fails it throws without running curl; otherwise curl runs on a
    file system where that file holds exactly the body and every other file
    is as before, and postJson returns what curl printed, or throws when
    curl printed nothing (or could not be started). *)
Theorem X14_postJson_writes_the_body_then_runs_curl :
  forall cfg shell path bodyJson fs,
    (Files.creatable fs (HttpClient.tmpPath cfg) = false ->
     HttpClient.postJson cfg shell path bodyJson fs
     = Some (Throw ("Failed to write file: " ++ HttpClient.tmpPath cfg)%string, fs)) /\
    (Files.creatable fs (HttpClient.tmpPath cfg) = true ->
     exists fs',
       Files.readFileToString (HttpClient.tmpPath cfg) fs' = Ok bodyJson /\
       (forall p, p <> HttpClient.tmpPath cfg ->
                  Files.readFileToString p fs' = Files.readFileToString p fs) /\
       (shell (HttpClient.command cfg path) fs' = None ->
        HttpClient.postJson cfg shell path bodyJson fs
        = Some (Throw ("Failed to run command: " ++ HttpClient.command cfg path)%string,
                fs')) /\
       (forall out,
           shell (HttpClient.command cfg path) fs' = Some out ->
           Command.has_nul out = false ->
           HttpClient.postJson cfg shell path bodyJson fs
           = Some (if String.length out =? 0
                   then Throw ("Empty response from curl (or curl failed). Command: "
                               ++ HttpClient.command cfg path)%string
                   else Ok out, fs'))).
Proof.
  intros cfg shell path bodyJson fs. split; intros Hc.
  - unfold HttpClient.postJson, Files.writeStringToFile. rewrite Hc. reflexivity.
  - unfold HttpClient.postJson.
    destruct (Files.writeStringToFile (HttpClient.tmpPath cfg) bodyJson fs)
      as [fs'|what] eqn:Hw.
    2:{ unfold Files.writeStringToFile in Hw. rewrite Hc in Hw. discriminate Hw. }
    destruct (write_then_read _ _ _ _ Hw) as [Hread Hother].
    exists fs'. split; [exact Hread|]. split; [exact Hother|]. split.
    + intros ->. reflexivity.
    + intros out -> Hnul.
      destruct (runCommand_returns (HttpClient.command cfg path) out)
        as (r & -> & _ & Hclean & _).
      rewrite (Hclean Hnul). destruct (String.length out =? 0); reflexivity.
Qed.

(** X14 at a curl that prints the body it is given. *)
Lemma X14_witness :
  exists fs',
    HttpClient.postJson Demo.config Demo.curl "/embeddings" "{}" Demo.machine
    = Some (Ok "{}", fs') /\
    Files.readFileToString "artifacts/curl_body.json" fs' = Ok "{}" /\
    Files.readFileToString "notes.txt" fs' = Ok "n".
Proof.
  destruct (X14_postJson_writes_the_body_then_runs_curl
              Demo.config Demo.curl "/embeddings" "{}" Demo.machine) as [_ H].
  destruct (H eq_refl) as (fs' & Hread & Hother & _ & Hout).
  exists fs'. split; [|split].
  - rewrite (Hout "{}"); [reflexivity | | reflexivity].
    unfold Demo.curl. unfold Files.readFileToString in Hread.
    destruct (Files.content_of (HttpClient.tmpPath Demo.config) (Files.files fs'))
      as [data|]; [|discriminate Hread].
    injection Hread as ->. reflexivity.
  - exact Hread.
  - rewrite Hother; [reflexivity | discriminate].
Defined.

(** X15. loadConfig takes the first line of api_key.txt as the key and leaves
    every other setting at its default: a text without newline is the key,
    of a longer text the key is what comes before the first newline; a
    missing file, an empty file and a file that begins with a newline are
    refused; a key that is returned is never empty and holds no newline. *)
Theorem X15_loadConfig_takes_the_first_line :
  Config.loadConfig None = Throw "Create api_key.txt with your API key." /\
  Config.loadConfig (Some EmptyString) = Throw "api_key.txt is empty." /\
  (forall rest, Config.loadConfig (Some (String Chunker.newline rest))
                = Throw "api_key.txt is empty.") /\
  (forall key rest,
      key <> EmptyString -> TextSpec.occurs Chunker.newline key = false ->
      Config.loadConfig (Some key) = Ok (Config.with_apiKey Config.defaults key) /\
      Config.loadConfig (Some (key ++ String Chunker.newline rest)%string)
      = Ok (Config.with_apiKey Config.defaults key)) /\
  (forall text cfg,
      Config.loadConfig (Some text) = Ok cfg ->
      Config.apiKey cfg <> EmptyString /\
      TextSpec.occurs Chunker.newline (Config.apiKey cfg) = false /\
      cfg = Config.with_apiKey Config.defaults (Config.apiKey cfg) /\
      (text = Config.apiKey cfg \/
       exists rest, text = (Config.apiKey cfg ++ String Chunker.newline rest)%string)).
Proof.
  split; [reflexivity|]. split; [reflexivity|]. split.
  { intros rest. unfold Config.loadConfig. cbn [Config.getline].
    rewrite Ascii.eqb_refl. reflexivity. }
  split.
  - intros key rest Hne Hocc. unfold Config.loadConfig.
    rewrite (getline_line key Hocc), (getline_first key rest Hocc). cbn [fst].
    destruct key as [|c key]; [contradiction|]. split; reflexivity.
  - intros text cfg. unfold Config.loadConfig.
    pose proof (getline_cases text) as H.
    destruct (Config.getline text) as [line rest]. cbn [fst].
    destruct H as [Hocc Hcases].
    destruct (String.length line =? 0) eqn:E; [discriminate|].
    intros Hok. injection Hok as <-. cbn [Config.with_apiKey Config.apiKey].
    split.
    + intros ->. discriminate E.
    + split; [exact Hocc|]. split; [reflexivity|].
      destruct Hcases as [[-> _] | ->]; [left; reflexivity | right; eauto].
Qed.

(** X15 at a key file of two lines. *)
Lemma X15_witness :
  Config.loadConfig (Some ("sk-test" ++ String Chunker.newline "second line")%string)
  = Ok Demo.config.
Proof.
  destruct X15_loadConfig_takes_the_first_line as (_ & _ & _ & H & _).
  destruct (H "sk-test" "second line") as [_ H2];
    [discriminate | reflexivity | exact H2].
Defined.

(** X16. The command loop of main puts to the engine exactly the lines typed
    before the first "exit" or "quit" (or the end of the input), without the
    empty ones, in their order, each once; an exception of one answer is
    reported and the loop goes on; and "You> " is written once for every
    line read, and once more before the line that ends the loop. *)
Theorem X16_command_loop_asks_the_lines_typed :
  forall (W : Type) (answer : W -> string -> result string * W) lines w,
    let asked := filter Chunker.nonempty (Cli.session lines) in
    filter (fun e => negb (Cli.is_prompt e)) (fst (Cli.loop answer lines w))
    = fst (Cli.ask_all answer asked w) /\
    snd (Cli.loop answer lines w) = snd (Cli.ask_all answer asked w) /\
    List.length (filter Cli.is_prompt (fst (Cli.loop answer lines w)))
    = S (List.length (Cli.session lines)).
Proof. intros W answer lines w. apply loop_asks. Qed.

(** The loop on five lines: one answer, one error, and nothing after quit. *)
Lemma demo_session :
  Cli.loop Demo.echo Demo.typed 0
  = ([Cli.you; Cli.report (Ok "hello"); Cli.you; Cli.you;
      Cli.report (Throw "no answer"); Cli.you], 2).
Proof. vm_compute. reflexivity. Qed.

(** X17. An answer is printed with every byte 0x92 replaced by an apostrophe
    and nothing else changed: at every position the printed text holds an
    apostrophe where the answer holds the byte 0x92, and the character of the
    answer anywhere else; so the length is kept, no byte 0x92 is left, a
    text without that byte is printed as it is, and doing it twice changes
    nothing more. *)
Theorem X17_sanitize_replaces_byte_0x92_only :
  forall ans,
    (forall i,
        String.get i (Cli.sanitize ans)
        = option_map (fun c => if Ascii.eqb c "146"%char then "039"%char else c)
                     (String.get i ans)) /\
    String.length (Cli.sanitize ans) = String.length ans /\
    TextSpec.occurs "146"%char (Cli.sanitize ans) = false /\
    (TextSpec.occurs "146"%char ans = false -> Cli.sanitize ans = ans) /\
    Cli.sanitize (Cli.sanitize ans) = Cli.sanitize ans.
Proof.
  intros ans. destruct (sanitize_facts ans) as (Hlen & Hocc & Hfix).
  split; [apply sanitize_get|].
  split; [exact Hlen|]. split; [exact Hocc|]. split; [exact Hfix|].
  destruct (sanitize_facts (Cli.sanitize ans)) as (_ & _ & Hfix2).
  apply Hfix2. exact Hocc.
Qed.

(** X17 at an answer with the byte 0x92 at its third place, and at a text
    with an apostrophe. *)
Lemma X17_witness :
  String.get 2 Demo.curly = Some "146"%char /\
  String.get 2 (Cli.sanitize Demo.curly) = Some "039"%char /\
  String.get 3 (Cli.sanitize Demo.curly) = Some "s"%char /\
  String.length (Cli.sanitize Demo.curly) = 7 /\
  Cli.sanitize "it's" = "it's".
Proof.
  destruct (X17_sanitize_replaces_byte_0x92_only Demo.curly) as (Hget & Hlen & _).
  destruct (X17_sanitize_replaces_byte_0x92_only "it's") as (_ & _ & _ & Hfix & _).
  split; [reflexivity|].
  split; [rewrite Hget; reflexivity|].
  split; [rewrite Hget; reflexivity|].
  split; [rewrite Hlen; reflexivity|].
  apply Hfix. reflexivity.
Defined.

(** X18. buildOrLoadIndex reads the data directory and calls the embedding
    model only when an artifact is missing: with both artifacts on disk it
    does exactly what loadFromDisk does; and once it has built and saved a
    store (of sizes that fit the 32-bit head of the index file), both
    artifacts exist and every later run, with any directory and any model,
    loads that same store. *)
Theorem X18_buildOrLoadIndex_builds_once :
  forall (W : Type) (embed : W -> string -> result (list float) * W)
         dataDir dir d w,
    (Engine.existsOnDisk d = true ->
     Engine.buildOrLoadIndex embed dataDir dir d w
     = Some (Persist.loadFromDisk d, d, w)) /\
    (Engine.existsOnDisk d = false ->
     forall entries d' w',
       Engine.buildOrLoadIndex embed dataDir dir d w = Some (Ok entries, d', w') ->
       (Z.of_nat (List.length entries) <= uint32_max)%Z ->
       Forall (fun e => (Z.of_nat (List.length (embedding e)) <= uint32_max)%Z)
              entries ->
       entries <> [] /\
       Engine.existsOnDisk d' = true /\
       forall (W2 : Type) (embed2 : W2 -> string -> result (list float) * W2)
              dataDir2 dir2 w2,
         Engine.buildOrLoadIndex embed2 dataDir2 dir2 d' w2
         = Some (Ok entries, d', w2)).
Proof.
  intros W embed dataDir dir d w. split.
  - apply buildOrLoadIndex_cached.
  - intros Hno entries d' w' Hrun HN HD.
    destruct (buildOrLoadIndex_fresh embed dataDir dir d w entries d' w' Hno Hrun)
      as (docs & embeddings & _ & _ & Hbuild & Hsave).
    destruct (build_ok_inv _ _ _ Hbuild) as (_ & Hne & _ & Hdim).
    destruct (saveToDisk_exists _ _ _ Hsave) as [Hw Hex].
    split; [exact Hne|]. split; [exact Hex|].
    intros W2 embed2 dataDir2 dir2 w2.
    rewrite buildOrLoadIndex_cached by exact Hex.
    assert (HDmax : (Z.of_nat (VectorIndex.refDim_of embeddings) <= uint32_max)%Z).
    { destruct entries as [|e0 rest]; [contradiction|].
      inversion Hdim as [|x l He0 _]; subst.
      inversion HD as [|x l Hb _]; subst. rewrite <- He0. exact Hb. }
    destruct (save_then_load entries _ d Hne Hdim Hw HN HDmax) as (d'' & Hs & Hl).
    rewrite Hsave in Hs. injection Hs as <-. rewrite Hl. reflexivity.
Qed.

Lemma demo_first_run :
  Engine.buildOrLoadIndex Demo.embed "data" (Some Sample.corpus) Sample.empty_disk 0
  = Some (Ok (map (fun d => mkIndexEntry d Sample.query)
                  [mkDocument "doc-0" "data/a.txt" "A";
                   mkDocument "doc-1" "data/a.txt" "B";
                   mkDocument "doc-2" "data/a.txt" "C";
                   mkDocument "doc-3" "data/b.txt" "D"]),
          mkDisk true
            (Some (IndexFile.head 4 2
                   ++ flat_map (fun _ => bytes_of_floats Sample.query) (seq 0 4)))
            (Some (Some (Json.Arr
               (map (fun d => Persist.metadata_of (mkIndexEntry d Sample.query))
                    [mkDocument "doc-0" "data/a.txt" "A";
                     mkDocument "doc-1" "data/a.txt" "B";
                     mkDocument "doc-2" "data/a.txt" "C";
                     mkDocument "doc-3" "data/b.txt" "D"])))),
          4).
Proof. vm_compute. reflexivity. Qed.

(** X18 at a first run on the sample directory, then a run on an empty
    directory with a model that is never asked. *)
Lemma X18_witness :
  exists entries d',
    Engine.buildOrLoadIndex Demo.embed "data" (Some Sample.corpus)
                            Sample.empty_disk 0 = Some (Ok entries, d', 4) /\
    List.length entries = 4 /\
    Engine.existsOnDisk d' = true /\
    Engine.buildOrLoadIndex Demo.embed "nowhere" None d' 7 = Some (Ok entries, d', 7).
Proof.
  destruct (X18_buildOrLoadIndex_builds_once
              nat Demo.embed "data" (Some Sample.corpus) Sample.empty_disk 0)
    as [_ H].
  do 2 eexists. split; [exact demo_first_run|].
  destruct (H eq_refl _ _ _ demo_first_run) as (_ & Hex & Hagain).
  - vm_compute. discriminate.
  - repeat (apply Forall_cons; [vm_compute; discriminate|]). apply Forall_nil.
  - split; [reflexivity|]. split; [exact Hex|]. apply Hagain.
Defined.



(** X20. build throws in three cases only: no document, lists of different
    sizes, and embeddings that are all empty.  Its last check never fires:
    when some embedding is not empty, the first such one has the reference
    dimension and is kept, so build never throws "No valid entries after
    filtering embeddings.". *)
Theorem X20_build_throws_in_three_cases_only :
  forall docs embeddings what,
    VectorIndex.build docs embeddings = Throw what ->
    (docs = [] /\ what = "No documents to build index.") \/
    (docs <> [] /\ List.length docs <> List.length embeddings /\
     what = "Docs and embeddings size mismatch") \/
    (docs <> [] /\ List.length docs = List.length embeddings /\
     Forall (fun e => e = []) embeddings /\ what = "All embeddings are empty.").
Proof.
  intros docs embeddings what. unfold VectorIndex.build.
  destruct (List.length docs =? 0) eqn:E0.
  { intros H. injection H as <-. left.
    apply length_zero_nil in E0. split; [exact E0 | reflexivity]. }
  assert (Hne : docs <> []).
  { intros ->. discriminate E0. }
  destruct (List.length docs =? List.length embeddings) eqn:El; cbn [negb].
  2:{ intros H. injection H as <-. right. left.
      apply Nat.eqb_neq in El. repeat split; assumption. }
  apply Nat.eqb_eq in El.
  destruct (VectorIndex.refDim_of embeddings =? 0) eqn:Ed.
  { intros H. injection H as <-. right. right.
    apply Nat.eqb_eq in Ed. apply refDim_of_zero in Ed. repeat split; assumption. }
  rewrite build_loop_survivors.
  destruct (List.length (BuildSpec.survivors (VectorIndex.refDim_of embeddings)
                                             docs embeddings) =? 0) eqn:Es;
    [|discriminate].
  exfalso. apply length_zero_nil in Es.
  apply (survivors_nonempty docs embeddings El); [|exact Es].
  intros Hall. apply refDim_of_all_empty in Hall. rewrite Hall in Ed. discriminate Ed.
Qed.

(** X20 at three documents without a usable embedding. *)
Lemma X20_witness :
  (Sample.docs = [] /\
   "All embeddings are empty." = "No documents to build index.") \/
  (Sample.docs <> [] /\ List.length Sample.docs <> List.length [[]; []; [] : list float] /\
   "All embeddings are empty." = "Docs and embeddings size mismatch") \/
  (Sample.docs <> [] /\ List.length Sample.docs = List.length [[]; []; [] : list float] /\
   Forall (fun e => e = []) [[]; []; [] : list float] /\
   "All embeddings are empty." = "All embeddings are empty.").
Proof.
  apply (X20_build_throws_in_three_cases_only Sample.docs [[]; []; []]).
  reflexivity.
Defined.

Lemma corpus_chunks_eligible : forall entries,
  ChunkSpec.corpus_chunks (filter ChunkSpec.eligible entries)
  = ChunkSpec.corpus_chunks entries.
Proof.
  induction entries as [|e entries IH]; [reflexivity|].
  unfold ChunkSpec.corpus_chunks in *. cbn [filter flat_map].
  destruct (ChunkSpec.eligible e) eqn:El.
  - cbn [flat_map]. rewrite IH. reflexivity.
  - rewrite IH. unfold ChunkSpec.file_chunks at 2. rewrite El. reflexivity.
Qed.

Lemma readable_eligible entries :
  Forall ChunkSpec.readable entries ->
  Forall ChunkSpec.readable (filter ChunkSpec.eligible entries).
Proof.
  intros H. rewrite Forall_forall in *. intros e He.
  apply filter_In in He. apply H. exact (proj1 He).
Qed.

(** X21. Only the regular files with the extension .txt count: when these can
    all be opened, loadDocuments gives for a directory what it gives for the
    directory without its other entries, ids included. *)
Theorem X21_only_regular_txt_files_count :
  forall dataDir entries,
    Forall ChunkSpec.readable entries ->
    Chunker.loadDocuments dataDir (Some entries)
    = Chunker.loadDocuments dataDir (Some (filter ChunkSpec.eligible entries)).
Proof.
  intros dataDir entries Hread. unfold Chunker.loadDocuments.
  rewrite (files_loop_corpus entries [] 0%Z Hread).
  rewrite (files_loop_corpus _ [] 0%Z (readable_eligible entries Hread)).
  rewrite corpus_chunks_eligible. reflexivity.
Qed.

(** X21 at the sample directory, which holds a sub-directory. *)
Lemma X21_witness :
  Chunker.loadDocuments "data" (Some Sample.corpus)
  = Chunker.loadDocuments "data"
      (Some [Chunker.mkDirEntry true "data/a.txt" ".txt" (Some Sample.abc);
             Chunker.mkDirEntry true "data/b.txt" ".txt"
               (Some (Chunker.separator ++ "D" ++ Chunker.separator)%string)]).
Proof.
  exact (X21_only_regular_txt_files_count "data" Sample.corpus sample_corpus_readable).
Defined.


(** X22. Whichever way buildOrLoadIndex gets its store, from the artifacts
    or from the data directory, all embeddings of the store have one and
    the same length D; so a query of another length scores 0.0f against
    every entry, and a query of length D is compared with every entry. *)
Theorem X22_store_of_buildOrLoadIndex_is_rectangular :
  forall (W : Type) (embed : W -> string -> result (list float) * W)
         dataDir dir d w entries d' w',
    Engine.buildOrLoadIndex embed dataDir dir d w = Some (Ok entries, d', w') ->
    exists D,
      Forall (fun e => List.length (embedding e) = D) entries /\
      (forall q e, List.length q <> D -> In e entries ->
                   VectorIndex.cosineSim q (embedding e) = Float32.zero).
Proof.
  intros W embed dataDir dir d w entries d' w' Hrun.
  assert (Hrect : exists D, Forall (fun e => List.length (embedding e) = D) entries).
  { destruct (Engine.existsOnDisk d) eqn:Hex.
    - rewrite buildOrLoadIndex_cached in Hrun by exact Hex.
      injection Hrun as Hload _ _.
      destruct (loadFromDisk_shape d entries Hload) as (bytes & j & _ & _ & _ & _ & H).
      eexists. exact H.
    - destruct (buildOrLoadIndex_fresh embed dataDir dir d w entries d' w' Hex Hrun)
        as (docs & embeddings & _ & _ & Hbuild & _).
      destruct (build_ok_inv _ _ _ Hbuild) as (_ & _ & _ & H).
      eexists. exact H. }
  destruct Hrect as [D HD]. exists D. split; [exact HD|].
  intros q e Hq He. apply cosineSim_length_mismatch.
  rewrite Forall_forall in HD. rewrite (HD e He). exact Hq.
Qed.

(** X22 at the first run on the sample directory. *)
Lemma X22_witness :
  exists D,
    Forall (fun e => List.length (embedding e) = D)
           (map (fun d => mkIndexEntry d Sample.query)
                [mkDocument "doc-0" "data/a.txt" "A";
                 mkDocument "doc-1" "data/a.txt" "B";
                 mkDocument "doc-2" "data/a.txt" "C";
                 mkDocument "doc-3" "data/b.txt" "D"]) /\
    (forall q e, List.length q <> D ->
       In e (map (fun d => mkIndexEntry d Sample.query)
                 [mkDocument "doc-0" "data/a.txt" "A";
                  mkDocument "doc-1" "data/a.txt" "B";
                  mkDocument "doc-2" "data/a.txt" "C";
                  mkDocument "doc-3" "data/b.txt" "D"]) ->
       VectorIndex.cosineSim q (embedding e) = Float32.zero).
Proof.
  exact (X22_store_of_buildOrLoadIndex_is_rectangular
           nat Demo.embed "data" (Some Sample.corpus) Sample.empty_disk 0 _ _ _
           demo_first_run).
Defined.

